(** * RANSAC bad-sensor detection: a shallow embedding of [autoreject/ransac.py]

    The development follows the four stages of [Ransac.fit]: the subset
    sampler ([_get_random_subsets]), the operator builder ([_get_mappings]),
    the consensus scorer ([_compute_correlations], driven by
    [_iterate_epochs]) and the classifier at the end of [fit].

    Numbers.  Array data are numpy [float64] values; they are modelled by the
    Standard Library's [spec_float] with the binary64 parameters, so [nan],
    the infinities, signed zeros and rounding are the IEEE ones.  The two
    fractions [min_channels] and [unbroken_time] are finite floats that each
    enter one multiplication with a count.  A fraction is modelled by the
    rational number it is given as, and the multiplication by
    [Binary64.mul_int]: both operands are converted to binary64 and the
    exact product is rounded to the nearest binary64 number, ties to even.
    Products beyond the binary64 range are not modelled.  The per-sensor
    tally, a sum of 0.0/1.0 entries, is kept as the natural number it
    counts; it enters the comparison with the threshold as the binary64
    value of that number.

    Arrays.  A 2-D array is the list of its rows.  Where numpy reads a
    dimension off the [shape] attribute, the model passes it explicitly. *)

From Stdlib Require Import String Ascii.
From Stdlib Require Import List Arith ZArith QArith Qabs Qpower Lia Bool.
From Stdlib Require Import Morphisms.
From Stdlib Require Import Permutation Sorted.
From Stdlib Require Import Floats.SpecFloat.
Import ListNotations.
Local Open Scope nat_scope.
Local Open Scope list_scope.

Set Implicit Arguments.

(** ** binary64 *)

Module Float64.

Definition float64 : Type := spec_float.
Definition prec : Z := 53.
Definition emax : Z := 1024.

Definition of_Z (z : Z) : float64 := binary_normalize prec emax z 0 false.
Definition zero : float64 := S754_zero false.
Definition two : float64 := of_Z 2.
Definition nan : float64 := S754_nan.

Definition add : float64 -> float64 -> float64 := SFadd prec emax.
Definition mul : float64 -> float64 -> float64 := SFmul prec emax.
Definition div : float64 -> float64 -> float64 := SFdiv prec emax.
Definition sqrt : float64 -> float64 := SFsqrt prec emax.
Definition ltb : float64 -> float64 -> bool := SFltb.
Definition leb : float64 -> float64 -> bool := SFleb.

Definition is_nan (x : float64) : bool :=
  match x with S754_nan => true | _ => false end.

(** The rational value of a finite number. *)
Definition to_Q (x : float64) : option Q :=
  match x with
  | S754_zero _ => Some 0%Q
  | S754_finite s m e =>
      Some (inject_Z (if s then Z.neg m else Z.pos m) * 2 ^ e)%Q
  | _ => None
  end.

End Float64.

Import Float64.

Definition vector : Type := list float64.
Definition matrix : Type := list vector.

(** ** Exceptions *)

Inductive exn : Type :=
| ValueError (msg : string)
| IndexError (msg : string)
| AttributeError (name : string).

Inductive result (A : Type) : Type :=
| Ok (a : A)
| Raise (e : exn).

Arguments Ok {A} a.
Arguments Raise {A} e.

Definition bind {A B : Type} (r : result A) (k : A -> result B) : result B :=
  match r with
  | Ok a => k a
  | Raise e => Raise e
  end.

Declare Scope result_scope.
Delimit Scope result_scope with result.
Notation "x <- r ;; k" := (bind r (fun x => k))
  (at level 61, r at next level, right associativity) : result_scope.
Local Open Scope result_scope.

(** [for x in xs: acc = body(acc, x)], stopping at the first exception. *)
Fixpoint for_each {A S : Type} (xs : list A) (body : S -> A -> result S)
  (acc : S) : result S :=
  match xs with
  | [] => Ok acc
  | x :: rest => acc' <- body acc x ;; for_each rest body acc'
  end.

(** [[f(x) for x in xs]] with a fallible [f]. *)
Fixpoint map_result {A B : Type} (f : A -> result B) (xs : list A)
  : result (list B) :=
  match xs with
  | [] => Ok []
  | x :: rest => y <- f x ;; ys <- map_result f rest ;; Ok (y :: ys)
  end.

(** ** The numpy operations the source uses *)

Module Np.

(** [[f(0), ..., f(n-1)]]. *)
Definition tabulate {A : Type} (n : nat) (f : nat -> A) : list A :=
  map f (seq 0 n).

Definition zeros (n : nat) : vector := repeat zero n.
Definition zeros2 (n m : nat) : matrix := repeat (zeros m) n.

Fixpoint zip_with {A B C : Type} (f : A -> B -> C) (xs : list A) (ys : list B)
  : list C :=
  match xs, ys with
  | x :: xs', y :: ys' => f x y :: zip_with f xs' ys'
  | _, _ => []
  end.

(** [np.sum] of a 1-D array: [add.reduce], left to right; 0.0 when empty. *)
Definition sum (xs : vector) : float64 :=
  match xs with
  | [] => zero
  | x :: rest => fold_left add rest x
  end.

Definition get (v : vector) (i : nat) : float64 := nth i v zero.
Definition get2 (m : matrix) (i j : nat) : float64 := get (nth i m []) j.
Definition get3 (a : list matrix) (i j k : nat) : float64 :=
  get2 (nth i a []) j k.

(** [m[:, j]]. *)
Definition column (j : nat) (m : matrix) : vector :=
  map (fun row => get row j) m.

(** [m.T] for [m] with [ncols] columns. *)
Definition transpose (ncols : nat) (m : matrix) : matrix :=
  tabulate ncols (fun j => column j m).

Definition has_shape (n m : nat) (a : matrix) : bool :=
  (length a =? n) && forallb (fun row => length row =? m) a.

(** [a.dot(b)] for [a] of shape (n, k) and [b] of shape (k, m): entry (i, j)
    is the sum of [a[i, l] * b[l, j]] over [l]. *)
Definition dot (m : nat) (a b : matrix) : matrix :=
  map (fun row => tabulate m (fun j => sum (zip_with mul row (column j b)))) a.

(** The elements of a 2-D array with [ncols] columns in Fortran order: the
    first index changes fastest, so the columns follow one another. *)
Definition ravel_F (ncols : nat) (a : matrix) : vector :=
  concat (transpose ncols a).

(** [a.reshape((n0, n1, n2), order='F')] of a 2-D array with [ncols]
    columns: the source is read in Fortran order and the target is filled in
    Fortran order, so target (i, j, k) is element [i + n0*j + n0*n1*k] of the
    Fortran-order sequence. *)
Definition reshape_F3 (n0 n1 n2 : nat) (ncols : nat) (a : matrix)
  : list matrix :=
  let flat := ravel_F ncols a in
  tabulate n0 (fun i =>
    tabulate n1 (fun j =>
      tabulate n2 (fun k => get flat (i + n0 * j + n0 * n1 * k)))).

Fixpoint insert_sorted (x : float64) (l : vector) : vector :=
  match l with
  | [] => [x]
  | y :: rest => if leb x y then x :: l else y :: insert_sorted x rest
  end.

Definition sort (l : vector) : vector := fold_right insert_sorted [] l.

(** [np.median] of a 1-D array: [nan] when the array is empty or holds a
    [nan]; otherwise the middle element of the sorted values when their
    number is odd, and the mean of the two middle ones when it is even. *)
Definition median (l : vector) : float64 :=
  let sz := length l in
  if (sz =? 0) || existsb is_nan l then nan
  else
    let part := sort l in
    let index := sz / 2 in
    if sz mod 2 =? 1 then get part index
    else div (add (get part (index - 1)) (get part index)) two.

(** [np.median(a, axis=-1)] of a 3-D array. *)
Definition median_last_axis (a : list matrix) : matrix :=
  map (map median) a.

(** [np.sum(a, axis=0)] of a 2-D array with [ncols] columns. *)
Definition sum_axis0 (ncols : nat) (a : matrix) : vector :=
  tabulate ncols (fun j => sum (column j a)).

(** Element-wise [a * b], [a ** 2], [np.sqrt(v)], [v * w], [v / w]. *)
Definition mul2 (a b : matrix) : matrix := zip_with (zip_with mul) a b.
Definition square2 (a : matrix) : matrix := map (map (fun x => mul x x)) a.
Definition vsqrt (v : vector) : vector := map sqrt v.
Definition vmul (v w : vector) : vector := zip_with mul v w.
Definition vdiv (v w : vector) : vector := zip_with div v w.

(** [np.concatenate(arrays)] along axis 0; numpy refuses an empty list. *)
Definition concatenate {A : Type} (arrays : list (list A)) : result (list A) :=
  match arrays with
  | [] => Raise (ValueError "need at least one array to concatenate")
  | _ => Ok (concat arrays)
  end.

(** [l[:n]] with Python's reading of a negative [n]. *)
Definition slice_to {A : Type} (l : list A) (n : Z) : list A :=
  if (0 <=? n)%Z then firstn (Z.to_nat n) l
  else firstn (length l - Z.to_nat (- n)) l.

(** [np.round]: to the nearest integer, ties to the even one. *)
Definition round (q : Q) : Z :=
  let fl := (Qnum q / Z.pos (Qden q))%Z in
  let twice_rem := (2 * (Qnum q mod Z.pos (Qden q)))%Z in
  match (twice_rem ?= Z.pos (Qden q))%Z with
  | Lt => fl
  | Gt => (fl + 1)%Z
  | Eq => if Z.even fl then fl else (fl + 1)%Z
  end.

(** [np.array_split(np.arange(n), sections)]: [sections] contiguous chunks,
    the first [n mod sections] of them one longer than the others; numpy
    refuses [sections = 0]. *)
Fixpoint split_sizes (start : nat) (sizes : list nat) : list (list nat) :=
  match sizes with
  | [] => []
  | sz :: rest => seq start sz :: split_sizes (start + sz) rest
  end.

Definition section_sizes (n sections : nat) : list nat :=
  repeat (S (n / sections)) (n mod sections)
  ++ repeat (n / sections) (sections - n mod sections).

Definition array_split_arange (n sections : nat) : result (list (list nat)) :=
  if sections =? 0
  then Raise (ValueError "number sections must be larger than 0.")
  else Ok (split_sizes 0 (section_sizes n sections)).

(** [np.where(mask)[0]]: the positions where [mask] holds, ascending. *)
Definition where_ (mask : list bool) : list nat :=
  map fst (filter snd (combine (seq 0 (length mask)) mask)).

End Np.

(** ** Finite binary64 numbers, by their values

    A finite binary64 number is a rational [m * 2^e] with [|m| < 2^53] and
    [e >= -1074].  [nearest q] is the binary64 number nearest to the
    rational [q], the one with the even [m] when [q] lies half-way between
    two of them: this is how Python reads a decimal literal, how it converts
    an int to a float and how IEEE 754 rounds the exact result of an
    operation.  The exponent has no upper end here: overflow to infinity is
    not modelled. *)

Module Binary64.

Definition prec : Z := 53.
Definition emin : Z := -1074.

(** The least [k] with [|q| < 2^k], for [q] other than 0. *)
Definition mag (q : Q) : Z :=
  if (Qnum q =? 0)%Z then 0%Z
  else
    let k := (Z.log2 (Z.abs (Qnum q)) - Z.log2 (Z.pos (Qden q)))%Z in
    if Qle_bool (2 ^ k) (Qabs q) then (k + 1)%Z else k.

(** The exponent of the last binary place of the numbers around [q]: 53
    places below its magnitude, and never below that of the subnormal
    numbers. *)
Definition ulp_exp (q : Q) : Z := Z.max (mag q - prec) emin.

(** The multiple of [2^e] nearest to [q], ties to the even multiple. *)
Definition round_at (e : Z) (q : Q) : Q :=
  inject_Z (Np.round (q / 2 ^ e)) * 2 ^ e.

Definition nearest (q : Q) : Q := round_at (ulp_exp q) q.

(** [x * y] on two floats. *)
Definition mul (x y : Q) : Q := nearest (x * y).

(** [float(n)]. *)
Definition of_nat (n : nat) : Q := nearest (inject_Z (Z.of_nat n)).

(** [x * n] for a float [x] and an int [n]: Python converts the int. *)
Definition mul_int (x : Q) (n : nat) : Q := mul (nearest x) (of_nat n).

End Binary64.

(** ** Recordings (the part of MNE's [Epochs] the source reads) *)

(** One entry of [info['chs']]: the position vector [ch['loc']] and the
    channel type that MNE's [channel_type] gives the channel. *)
Record Channel : Type := {
  loc : vector;
  kind : string
}.

Record Info : Type := {
  ch_names : list string;
  chs : list Channel
}.

(** [get_data()] has shape (n_epochs, n_channels, n_times): one matrix of
    [n_channels] rows and [n_times] columns per epoch. *)
Record Epochs : Type := {
  info : Info;
  n_times : nat;
  get_data : list matrix
}.

Definition n_channels_of (e : Epochs) : nat := length (ch_names (info e)).

(** [len(epochs)]. *)
Definition len (e : Epochs) : nat := length (get_data e).

(** [epochs[idx]] for an integer [idx]: the recording restricted to that one
    epoch. *)
Definition getitem (e : Epochs) (idx : nat) : result Epochs :=
  match nth_error (get_data e) idx with
  | Some x => Ok {| info := info e; n_times := n_times e; get_data := [x] |}
  | None => Raise (IndexError "index out of bounds")
  end.

Definition contains_ch_type (i : Info) (ch_type : string) : bool :=
  existsb (fun ch => String.eqb (kind ch) ch_type) (chs i).

(** [ch_type in epochs]: ['meg'] stands for magnetometers or gradiometers. *)
Definition contains (e : Epochs) (ch_type : string) : bool :=
  if String.eqb ch_type "meg"
  then contains_ch_type (info e) "mag" || contains_ch_type (info e) "grad"
  else contains_ch_type (info e) ch_type.

(** ** External collaborators

    What the source imports and this file does not have: the channel types
    MNE's [channel_indices_by_type] keys its dictionary with, autoreject's
    [_check_data], numpy's random generator and the two interpolation
    kernels. *)
Class Externals : Type := {
  pick_types_keys : list string;
  check_data : Epochs -> result unit;
  RandomState : Type;
  check_random_state : option Z -> RandomState;
  permutation : RandomState -> nat -> list nat * RandomState;
  make_interpolation_matrix : matrix -> matrix -> float64 -> matrix;
  fast_map_meg_channels : Epochs -> list nat -> list nat -> matrix
}.

(** [channel_indices_by_type(info)]: for every key the indices of the
    channels of that type. *)
Definition channel_indices_by_type `{E : Externals} (i : Info)
  : list (string * list nat) :=
  map (fun key =>
         (key, Np.where_ (map (fun ch => String.eqb (kind ch) key) (chs i))))
      pick_types_keys.

(** ** The estimator object *)

Record Ransac : Type := {
  n_resample : nat;
  min_channels : Q;
  min_corr : float64;
  unbroken_time : Q;
  n_jobs : positive;
  random_state : option Z;
  (* attributes that [fit] sets; [None] while unset *)
  ch_type : option (option string);
  ch_subsets_ : option (list (list string));
  mappings_ : option matrix;
  corr_ : option matrix;
  bad_log : option (list (list nat));
  bad_chs_ : option (list string)
}.

(** [Ransac(...)]: the constructor stores the parameters only. *)
Definition init (n_resample : nat) (min_channels : Q) (min_corr : float64)
  (unbroken_time : Q) (n_jobs : positive) (random_state : option Z) : Ransac :=
  {| n_resample := n_resample; min_channels := min_channels;
     min_corr := min_corr; unbroken_time := unbroken_time;
     n_jobs := n_jobs; random_state := random_state;
     ch_type := None; ch_subsets_ := None; mappings_ := None;
     corr_ := None; bad_log := None; bad_chs_ := None |}.

Definition set_ch_type (v : option string) (s : Ransac) : Ransac :=
  {| n_resample := n_resample s; min_channels := min_channels s;
     min_corr := min_corr s; unbroken_time := unbroken_time s;
     n_jobs := n_jobs s; random_state := random_state s;
     ch_type := Some v; ch_subsets_ := ch_subsets_ s;
     mappings_ := mappings_ s; corr_ := corr_ s; bad_log := bad_log s;
     bad_chs_ := bad_chs_ s |}.

Definition set_ch_subsets_ (v : list (list string)) (s : Ransac) : Ransac :=
  {| n_resample := n_resample s; min_channels := min_channels s;
     min_corr := min_corr s; unbroken_time := unbroken_time s;
     n_jobs := n_jobs s; random_state := random_state s;
     ch_type := ch_type s; ch_subsets_ := Some v;
     mappings_ := mappings_ s; corr_ := corr_ s; bad_log := bad_log s;
     bad_chs_ := bad_chs_ s |}.

Definition set_mappings_ (v : matrix) (s : Ransac) : Ransac :=
  {| n_resample := n_resample s; min_channels := min_channels s;
     min_corr := min_corr s; unbroken_time := unbroken_time s;
     n_jobs := n_jobs s; random_state := random_state s;
     ch_type := ch_type s; ch_subsets_ := ch_subsets_ s;
     mappings_ := Some v; corr_ := corr_ s; bad_log := bad_log s;
     bad_chs_ := bad_chs_ s |}.

Definition set_corr_ (v : matrix) (s : Ransac) : Ransac :=
  {| n_resample := n_resample s; min_channels := min_channels s;
     min_corr := min_corr s; unbroken_time := unbroken_time s;
     n_jobs := n_jobs s; random_state := random_state s;
     ch_type := ch_type s; ch_subsets_ := ch_subsets_ s;
     mappings_ := mappings_ s; corr_ := Some v; bad_log := bad_log s;
     bad_chs_ := bad_chs_ s |}.

Definition set_bad_log (v : list (list nat)) (s : Ransac) : Ransac :=
  {| n_resample := n_resample s; min_channels := min_channels s;
     min_corr := min_corr s; unbroken_time := unbroken_time s;
     n_jobs := n_jobs s; random_state := random_state s;
     ch_type := ch_type s; ch_subsets_ := ch_subsets_ s;
     mappings_ := mappings_ s; corr_ := corr_ s; bad_log := Some v;
     bad_chs_ := bad_chs_ s |}.

Definition set_bad_chs_ (v : list string) (s : Ransac) : Ransac :=
  {| n_resample := n_resample s; min_channels := min_channels s;
     min_corr := min_corr s; unbroken_time := unbroken_time s;
     n_jobs := n_jobs s; random_state := random_state s;
     ch_type := ch_type s; ch_subsets_ := ch_subsets_ s;
     mappings_ := mappings_ s; corr_ := corr_ s; bad_log := bad_log s;
     bad_chs_ := Some v |}.

(** Reading an attribute that was never set raises [AttributeError]. *)
Definition getattr {A : Type} (name : string) (v : option A) : result A :=
  match v with
  | Some a => Ok a
  | None => Raise (AttributeError name)
  end.

(** ** [_get_channel_type] *)

Definition in_strings (x : string) (l : list string) : bool :=
  existsb (String.eqb x) l.

(** Python's implicit [return None] is the result [Ok None]. *)
Definition _get_channel_type `{E : Externals} (epochs : Epochs)
  : result (option string) :=
  let idx := channel_indices_by_type (info epochs) in
  let invalid_ch_types_present :=
    filter (fun key => negb (in_strings key ["mag"; "grad"; "eeg"]%string)
                       && contains epochs key)
           (map fst idx) in
  if 0 <? length invalid_ch_types_present then
    Raise (ValueError
             ("Invalid channel types present in epochs. Expected ONLY `meg` or ONLY `eeg`. Got "
              ++ String.concat ", " invalid_ch_types_present))
  else if contains epochs "meg" && contains epochs "eeg" then
    Raise (ValueError
             "Got mixed channel types. Pick either eeg or meg but not both")
  else if contains epochs "eeg" then Ok (Some "eeg"%string)
  else if contains epochs "meg" then Ok (Some "meg"%string)
  else Ok None.

(** ** [Ransac._get_random_subsets] *)

(** [l[p]] on a Python list. *)
Definition list_getitem {A : Type} (l : list A) (p : nat) : result A :=
  match nth_error l p with
  | Some a => Ok a
  | None => Raise (IndexError "list index out of range")
  end.

(** The loop [for idx in range(n_resample)]: one permutation per resample,
    all drawn from the one generator, each cut to its first [n_samples]
    entries. *)
Fixpoint draw_picks `{E : Externals} (rng : RandomState) (n_channels : nat)
  (n_samples : Z) (n : nat) : list (list nat) :=
  match n with
  | O => []
  | S n' =>
      let (perm, rng') := permutation rng n_channels in
      Np.slice_to perm n_samples :: draw_picks rng' n_channels n_samples n'
  end.

(** [int(np.round(self.min_channels * n_channels))]: a float times an int,
    then the nearest integer. *)
Definition n_samples_of (min_channels : Q) (n_channels : nat) : Z :=
  Np.round (Binary64.mul_int min_channels n_channels).

Definition picks_of `{E : Externals} (self : Ransac) (i : Info) : list (list nat) :=
  let rng := check_random_state (random_state self) in
  let n_channels := length (ch_names i) in
  let n_samples := n_samples_of (min_channels self) n_channels in
  draw_picks rng n_channels n_samples (n_resample self).

Definition _get_random_subsets `{E : Externals} (self : Ransac) (i : Info)
  : result (list (list string)) :=
  let picks := picks_of self i in
  map_result (fun pick => map_result (list_getitem (ch_names i)) pick) picks.

(** ** [Ransac._get_mappings] *)

(** [names.index(name)]: the first position of [name]. *)
Fixpoint index (names : list string) (name : string) : result nat :=
  match names with
  | [] => Raise (ValueError "name is not in list")
  | x :: rest =>
      if String.eqb x name then Ok 0
      else p <- index rest name ;; Ok (S p)
  end.

(** [np.array([ch_names.index(name) for name in subset])]. *)
Definition pick_from_of (names : list string) (subset : list string)
  : result (list nat) :=
  map_result (index names) subset.

(** [row[c] = v] for [c] within the row. *)
Fixpoint set_nth (c : nat) (v : float64) (row : vector) : vector :=
  match row, c with
  | [], _ => []
  | _ :: rest, O => v :: rest
  | x :: rest, S c' => x :: set_nth c' v rest
  end.

Definition assign_row (row : vector) (cols : list nat) (values : vector)
  : vector :=
  fold_left (fun r cv => set_nth (fst cv) (snd cv) r) (combine cols values) row.

(** [mapping[:, cols] = k] for [mapping] of shape (nrows, ncols): numpy
    refuses a column index outside the array and a [k] whose shape is not
    (nrows, len(cols)) (broadcasting of smaller shapes is not modelled, the
    kernels return the full shape). *)
Definition set_columns (nrows ncols : nat) (mapping : matrix)
  (cols : list nat) (k : matrix) : result matrix :=
  if negb (forallb (fun c => c <? ncols) cols) then
    Raise (IndexError "index is out of bounds for axis 1")
  else if negb (Np.has_shape nrows (length cols) k) then
    Raise (ValueError "shape mismatch")
  else Ok (Np.zip_with (fun row values => assign_row row cols values)
                       mapping k).

(** [pos[picks]]: the rows of [pos] at the given positions. *)
Definition take_rows (pos : matrix) (picks : list nat) : result matrix :=
  map_result (list_getitem pos) picks.

(** An array used as an index must hold integers, and [np.array] of an
    empty list is an array of floats: numpy refuses it as an index. *)
Definition as_index (picks : list nat) : result (list nat) :=
  match picks with
  | [] => Raise (IndexError
                   "arrays used as indices must be of integer (or boolean) type")
  | _ => Ok picks
  end.

(** The literal [1e-5]: the binary64 value nearest to 1/100000. *)
Definition alpha : float64 := div (of_Z 1) (of_Z 100000).

(** One turn of the loop over the subsets: the operator of one subset.
    [pick_from] is used as an index in both branches, by [pos[pick_from]]
    and by [mapping[:, pick_from] = ...]; the right-hand side of the
    assignment is computed before the assignment is tried. *)
Definition mapping_of `{E : Externals} (self : Ransac)
  (inst : Epochs) (pos : matrix) (subset : list string) : result matrix :=
  let names := ch_names (info inst) in
  let n_channels := length names in
  let pick_to := seq 0 n_channels in
  pick_from <- pick_from_of names subset ;;
  let mapping := Np.zeros2 n_channels n_channels in
  self_ch_type <- getattr "ch_type" (ch_type self) ;;
  match self_ch_type with
  | Some t =>
      if String.eqb t "meg" then
        let k := fast_map_meg_channels inst pick_from pick_to in
        cols <- as_index pick_from ;;
        set_columns n_channels n_channels mapping cols k
      else if String.eqb t "eeg" then
        rows <- as_index pick_from ;;
        pos_from <- take_rows pos rows ;;
        pos_to <- take_rows pos pick_to ;;
        set_columns n_channels n_channels mapping rows
                    (make_interpolation_matrix pos_from pos_to alpha)
      else Ok mapping
  | None => Ok mapping
  end.

Definition _get_mappings `{E : Externals} (self : Ransac) (inst : Epochs)
  : result matrix :=
  ch_subsets <- getattr "ch_subsets_" (ch_subsets_ self) ;;
  let pos := map (fun ch => firstn 3 (loc ch)) (chs (info inst)) in
  mappings <- map_result (mapping_of self inst pos) ch_subsets ;;
  Np.concatenate mappings.

(** ** [Ransac._compute_correlations] *)

(** The stacked predictions [inst.get_data()[0].T.dot(mappings.T)], reshaped
    to (n_times, n_channels, n_resample) in Fortran order.  [dot] refuses
    operands whose inner dimensions differ, [reshape] a target of another
    size. *)
Definition y_pred_of (n_resample : nat) (mappings : matrix) (inst : Epochs)
  : result (list matrix) :=
  let n_channels := n_channels_of inst in
  let n_times := n_times inst in
  x <- list_getitem (get_data inst) 0 ;;
  if negb (Np.has_shape (length mappings) n_channels mappings) then
    Raise (ValueError "shapes not aligned")
  else
    let y_pred := Np.dot (length mappings)
                         (Np.transpose n_times x)
                         (Np.transpose n_channels mappings) in
    if negb (n_times * length mappings =? n_times * n_channels * n_resample)
    then Raise (ValueError "cannot reshape array")
    else Ok (Np.reshape_F3 n_times n_channels n_resample
                           (length mappings) y_pred).

Definition _compute_correlations (self : Ransac) (inst : Epochs)
  : result vector :=
  mappings <- getattr "mappings_" (mappings_ self) ;;
  let n_channels := n_channels_of inst in
  let n_times := n_times inst in
  y_pred <- y_pred_of (n_resample self) mappings inst ;;
  let y_pred := Np.median_last_axis y_pred in
  x <- list_getitem (get_data inst) 0 ;;
  let xT := Np.transpose n_times x in
  let num := Np.sum_axis0 n_channels (Np.mul2 xT y_pred) in
  let denom := Np.vmul (Np.vsqrt (Np.sum_axis0 n_channels (Np.square2 xT)))
                       (Np.vsqrt (Np.sum_axis0 n_channels (Np.square2 y_pred))) in
  let corr := Np.vdiv num denom in
  Ok corr.

(** ** [_iterate_epochs] *)

(** [enumerate(idxs)]. *)
Definition enumerate {A : Type} (l : list A) : list (nat * A) :=
  combine (seq 0 (length l)) l.

(** [corrs[idx, :] = row] for [corrs] with [ncols] columns. *)
Definition set_row (ncols : nat) (corrs : matrix) (idx : nat) (row : vector)
  : result matrix :=
  if negb (idx <? length corrs) then
    Raise (IndexError "index is out of bounds for axis 0")
  else if negb (length row =? ncols) then
    Raise (ValueError "could not broadcast input array")
  else Ok (firstn idx corrs ++ row :: skipn (S idx) corrs).

(** The loop variable [idx] is the position that [enumerate] counts; the
    element of [idxs] is bound to [_] and not used.  (The assignment to
    [ransac.corr_] inside the loop is overwritten by [fit] and left out.) *)
Definition _iterate_epochs (ransac : Ransac) (epochs : Epochs)
  (idxs : list nat) : result matrix :=
  let n_channels := n_channels_of epochs in
  let corrs := Np.zeros2 (length idxs) n_channels in
  for_each (enumerate idxs)
    (fun corrs (p : nat * nat) =>
       let idx := fst p in
       inst <- getitem epochs idx ;;
       corr <- _compute_correlations ransac inst ;;
       set_row n_channels corrs idx corr)
    corrs.

(** ** [Ransac.fit]

    [fit] updates the object attribute by attribute and may raise in
    between, so it runs in a state-and-exception monad.  Next to the object
    the state keeps the list of calls made so far. *)

Inductive call : Type :=
| Call_check_data
| Call_get_channel_type
| Call_get_random_subsets
| Call_get_mappings
| Call_iterate_epochs (idxs : list nat).

Record World : Type := {
  self : Ransac;
  calls : list call
}.

Definition M (A : Type) : Type := World -> World * result A.

Definition ret {A : Type} (a : A) : M A := fun w => (w, Ok a).

Definition bindM {A B : Type} (m : M A) (k : A -> M B) : M B :=
  fun w =>
    match m w with
    | (w', Ok a) => k a w'
    | (w', Raise e) => (w', Raise e)
    end.

Notation "x <~ m ;; k" := (bindM m (fun x => k))
  (at level 61, m at next level, right associativity) : result_scope.

(** The current object. *)
Definition read : M Ransac := fun w => (w, Ok (self w)).

(** [self.attr = v]. *)
Definition setattr (f : Ransac -> Ransac) : M unit :=
  fun w => ({| self := f (self w); calls := calls w |}, Ok tt).

(** A call: it is recorded, then it returns or raises. *)
Definition invoke {A : Type} (c : call) (r : result A) : M A :=
  fun w => ({| self := self w; calls := calls w ++ [c] |}, r).

Definition lift {A : Type} (r : result A) : M A := fun w => (w, r).

Fixpoint map_M {A B : Type} (f : A -> M B) (xs : list A) : M (list B) :=
  match xs with
  | [] => ret []
  | x :: rest => y <~ f x ;; ys <~ map_M f rest ;; ret (y :: ys)
  end.

(** The parallel collaborator: it runs the submitted calls and returns their
    results in submission order. *)
Definition parallel (ransac : Ransac) (epochs : Epochs)
  (chunks : list (list nat)) : M (list matrix) :=
  map_M (fun idxs =>
           invoke (Call_iterate_epochs idxs)
                  (_iterate_epochs ransac epochs idxs))
        chunks.

(** [x < y] on rationals. *)
Definition Qltb (x y : Q) : bool := negb (Qle_bool y x).

(** [bad_log = zeros_like(corr_); bad_log[corr_ < min_corr] = 1]. *)
Definition bad_log_of (min_corr : float64) (corr : matrix)
  : list (list nat) :=
  map (map (fun c => if ltb c min_corr then 1 else 0)) corr.

(** [bad_log.sum(axis=0)] for [ncols] columns. *)
Definition tally_of (ncols : nat) (bl : list (list nat)) : list nat :=
  Np.tabulate ncols
    (fun j => fold_left Nat.add (map (fun row => nth j row 0) bl) 0).

(** [np.where(bad_log > unbroken_time * n_epochs)[0]]: the entries of
    [bad_log] are floats, the threshold is a float times an int. *)
Definition bad_idx_of (unbroken_time : Q) (n_epochs : nat)
  (tally : list nat) : list nat :=
  Np.where_
    (map (fun b => Qltb (Binary64.mul_int unbroken_time n_epochs)
                        (Binary64.of_nat b))
         tally).

(** [check_n_jobs] returns a positive [n_jobs] as it is. *)
Definition check_n_jobs (n_jobs : positive) : nat := Pos.to_nat n_jobs.

(** The progress messages that [fit] prints are left out. *)
Definition fit `{E : Externals} (epochs : Epochs) : M unit :=
  _ <~ invoke Call_check_data (check_data epochs) ;;
  t <~ invoke Call_get_channel_type (_get_channel_type epochs) ;;
  _ <~ setattr (set_ch_type t) ;;
  let n_epochs := len epochs in
  this <~ read ;;
  subsets <~ invoke Call_get_random_subsets
                    (_get_random_subsets this (info epochs)) ;;
  _ <~ setattr (set_ch_subsets_ subsets) ;;
  this <~ read ;;
  mappings <~ invoke Call_get_mappings (_get_mappings this epochs) ;;
  _ <~ setattr (set_mappings_ mappings) ;;
  this <~ read ;;
  let n_jobs := check_n_jobs (n_jobs this) in
  chunks <~ lift (Np.array_split_arange n_epochs n_jobs) ;;
  corrs <~ parallel this epochs chunks ;;
  corr <~ lift (Np.concatenate corrs) ;;
  _ <~ setattr (set_corr_ corr) ;;
  this <~ read ;;
  let bl := bad_log_of (min_corr this) corr in
  _ <~ setattr (set_bad_log bl) ;;
  let bad_log_sum := tally_of (n_channels_of epochs) bl in
  let bad_idx := bad_idx_of (unbroken_time this) n_epochs bad_log_sum in
  if 0 <? length bad_idx then
    names <~ lift (map_result (list_getitem (ch_names (info epochs))) bad_idx) ;;
    setattr (set_bad_chs_ names)
  else setattr (set_bad_chs_ []).

(** A fresh run of [fit] on an object. *)
Definition run_fit `{E : Externals} (r : Ransac) (epochs : Epochs)
  : World * result unit :=
  fit epochs {| self := r; calls := [] |}.

(** ** Reference notions the properties are stated against *)

(** The [r]-th per-subset operator inside the stacked one: its rows
    [r*C .. r*C+C-1]. *)
Definition operator_block (C r : nat) (mappings : matrix) : matrix :=
  firstn C (skipn (r * C) mappings).

(** The prediction one operator makes for a segment [x] of [C] sensors and
    [T] samples: [x.T.dot(op.T)], entry (t, c) being the predicted value of
    sensor [c] at time [t]. *)
Definition predict (C T : nat) (op x : matrix) : matrix :=
  Np.dot C (Np.transpose T x) (Np.transpose C op).


(** The pooled prediction at (t, c): the median over the resample axis. *)
Definition pooled (y : list matrix) (t c : nat) : float64 :=
  Np.median (nth c (nth t y []) []).



(** The correlations of one segment, scored on its own. *)
Definition score_epoch (ransac : Ransac) (epochs : Epochs) (i : nat)
  : result vector :=
  inst <- getitem epochs i ;; _compute_correlations ransac inst.

(** What a fully sequential pass over the segments [first .. first+n-1]
    computes, in segment order. *)
Definition sequential_scores (ransac : Ransac) (epochs : Epochs)
  (idxs : list nat) : result matrix :=
  map_result (score_epoch ransac epochs) idxs.

(** The number of segments in which sensor [j] correlates below
    [min_corr]. *)
Definition count_below (min_corr : float64) (corr : matrix) (j : nat) : nat :=
  length (filter (fun row => ltb (Np.get row j) min_corr) corr).

(** The same count over the entries that are not [nan]. *)
Definition count_below_not_nan (min_corr : float64) (corr : matrix) (j : nat)
  : nat :=
  length (filter (fun row => negb (is_nan (Np.get row j))
                             && ltb (Np.get row j) min_corr) corr).

(** The number of sensors the last stage of [fit] flags, for a correlation
    matrix with [C] columns and [N] segments. *)
Definition flagged_count (min_corr : float64) (unbroken_time : Q)
  (N C : nat) (corr : matrix) : nat :=
  length (bad_idx_of unbroken_time N (tally_of C (bad_log_of min_corr corr))).

(** What the sampler promises of every pick, for [C] sensors and a cut at
    [n_samples]. *)
Definition pick_ok (C : nat) (n_samples : Z) (pick : list nat) : Prop :=
  Z.of_nat (length pick) = n_samples /\
  NoDup pick /\
  Forall (fun p => p < C) pick /\
  exists perm, Permutation perm (seq 0 C) /\ pick = firstn (length pick) perm.

(** A per-subset block: square, and zero outside the columns [cols]. *)
Definition block_ok (C : nat) (cols : list nat) (m : matrix) : Prop :=
  Np.has_shape C C m = true /\
  forall i j, ~ In j cols -> Np.get2 m i j = zero.

(** The object as a run of [fit] leaves it when every stage returned:
    channel type [t], the sampled subsets, the stacked operator and the
    assembled correlation matrix [corr]. *)
Definition fitted (r : Ransac) (e : Epochs) (t : option string)
  (subsets : list (list string)) (mappings corr : matrix) : Ransac :=
  set_bad_chs_
    (map (fun p => nth p (ch_names (info e)) ""%string)
         (bad_idx_of (unbroken_time r) (len e)
            (tally_of (n_channels_of e) (bad_log_of (min_corr r) corr))))
    (set_bad_log (bad_log_of (min_corr r) corr)
       (set_corr_ corr
          (set_mappings_ mappings
             (set_ch_subsets_ subsets (set_ch_type t r))))).

(** The test [tally > unbroken_time * n_epochs], on floats. *)
Definition exceeds (unbroken_time : Q) (n_epochs tally : nat) : bool :=
  Qltb (Binary64.mul_int unbroken_time n_epochs) (Binary64.of_nat tally).

(** What [np.round] promises of its result [n] for the value [x]: the
    integer nearest to [x], the even one of the two when [x] lies half-way
    between them. *)
Definition nearest_even (x : Q) (n : Z) : Prop :=
  (inject_Z n - (1 # 2) <= x)%Q /\
  (x <= inject_Z n + (1 # 2))%Q /\
  ((x == inject_Z n - (1 # 2))%Q \/ (x == inject_Z n + (1 # 2))%Q ->
   Z.even n = true).

(** The multiples of [2^e]. *)
Definition multiple (e : Z) (y : Q) : Prop :=
  exists k : Z, (y == inject_Z k * 2 ^ e)%Q.

(** The values of the finite binary64 numbers (with no upper end to the
    exponent). *)
Definition representable (y : Q) : Prop :=
  exists m e : Z,
    (Z.abs m < 2 ^ 53)%Z /\ (Binary64.emin <= e)%Z /\
    (y == inject_Z m * 2 ^ e)%Q.

(** The two models of binary64 side by side: the float [a/b] and its
    product with the count [n], computed by the operations on [spec_float]
    and by [Binary64]. *)
Definition same_fraction (a : Z) (b : positive) : bool :=
  match to_Q (div (of_Z a) (of_Z (Z.pos b))) with
  | Some v => Qeq_bool v (Binary64.nearest (a # b))
  | None => false
  end.

Definition same_product (a : Z) (b : positive) (n : nat) : bool :=
  match to_Q (mul (div (of_Z a) (of_Z (Z.pos b))) (of_Z (Z.of_nat n))) with
  | Some v => Qeq_bool v (Binary64.mul_int (a # b) n)
  | None => false
  end.

(** The tally of sensor [j] as [fit] computes it. *)
Definition tally_at (min_corr : float64) (corr : matrix) (j : nat) : nat :=
  fold_left Nat.add
    (map (fun row => nth j row 0) (bad_log_of min_corr corr)) 0.

(** The contract of [RandomState.permutation(n)]: a permutation of
    [0 .. n-1]. *)
Definition permutation_ok `{E : Externals} : Prop :=
  forall (rng : RandomState) (n : nat),
    Permutation (fst (permutation rng n)) (seq 0 n).

(** ** A concrete recording and concrete collaborators *)

Module Demo.

Definition rotate (k : nat) (l : list nat) : list nat :=
  skipn k l ++ firstn k l.

(** Every kernel weight is 1/(number of source sensors): the prediction is
    the mean of the subset. *)
Definition mean_kernel (n_from n_to : nat) : matrix :=
  repeat (repeat (div (of_Z 1) (of_Z (Z.of_nat n_from))) n_from) n_to.

#[export] Instance externals : Externals := {|
  pick_types_keys :=
    ["eeg"; "stim"; "eog"; "ecg"; "emg"; "misc"; "mag"; "grad"]%string;
  check_data := fun _ => Ok tt;
  RandomState := nat;
  check_random_state :=
    fun seed => match seed with Some z => Z.to_nat z | None => 0 end;
  permutation := fun s n => (rotate (s mod n) (seq 0 n), S s);
  make_interpolation_matrix :=
    fun pos_from pos_to _ => mean_kernel (length pos_from) (length pos_to);
  fast_map_meg_channels :=
    fun _ pick_from pick_to => mean_kernel (length pick_from) (length pick_to)
|}.

Definition channel (k : string) : Channel :=
  {| loc := [zero; zero; zero]; kind := k |}.

Definition eeg3 : Info :=
  {| ch_names := ["a"; "b"; "c"]%string;
     chs := [channel "eeg"; channel "eeg"; channel "eeg"] |}.

(** Two segments of three sensors and two samples; the third sensor is flat
    in the first segment. *)
Definition epochs : Epochs :=
  {| info := eeg3;
     n_times := 2;
     get_data :=
       [ [[of_Z 1; of_Z 2]; [of_Z 1; of_Z 2]; [of_Z 0; of_Z 0]];
         [[of_Z 1; of_Z 2]; [of_Z (-1); of_Z (-2)]; [of_Z 3; of_Z 1]] ] |}.

(** min_corr = 0.75, unbroken_time = 0.4, two resamples of two sensors. *)
Definition ransac (n_jobs : positive) : Ransac :=
  init 2 (2 # 3) (div (of_Z 3) (of_Z 4)) (4 # 10) n_jobs (Some 0%Z).

(** A recording without any channel. *)
Definition no_channels : Epochs :=
  {| info := {| ch_names := []; chs := [] |};
     n_times := 2;
     get_data := [ [] ] |}.

(** A recording with one EEG and one magnetometer channel. *)
Definition mixed : Epochs :=
  {| info := {| ch_names := ["a"; "b"]%string;
                chs := [channel "eeg"; channel "mag"] |};
     n_times := 1;
     get_data := [ [[of_Z 1]; [of_Z 2]] ] |}.

(** The first segment on its own, and a stacked operator of two blocks whose
    entries are pairwise distinct. *)
Definition first_epoch : Epochs :=
  {| info := eeg3;
     n_times := 2;
     get_data := [ [[of_Z 1; of_Z 2]; [of_Z 1; of_Z 2]; [of_Z 0; of_Z 0]] ] |}.

Definition stacked : matrix :=
  map (fun k => [of_Z k; of_Z (k + 10); of_Z (k + 20)]) [0; 1; 2; 3; 4; 5]%Z.

(** The demo object once the stacked operator is stored on it. *)
Definition with_stacked : Ransac := set_mappings_ stacked (ransac 1).

Definition first_data : matrix :=
  [[of_Z 1; of_Z 2]; [of_Z 1; of_Z 2]; [of_Z 0; of_Z 0]].

(** The demo object after the first two stages of [fit], and the stacked
    operator that the builder returns for it. *)
Definition sampled : Ransac :=
  set_ch_subsets_ [["a"; "b"]; ["b"; "c"]]%string
                  (set_ch_type (Some "eeg"%string) (ransac 1)).

Definition mappings : matrix :=
  Eval vm_compute in
    match _get_mappings sampled epochs with
    | Ok m => m
    | Raise _ => []
    end.

(** The state after a sequential [fit] of the demo object, and the
    correlation matrix it leaves; the flat third sensor of the first segment
    scores [nan]. *)
Definition world1 : World :=
  Eval vm_compute in fst (run_fit (ransac 1) epochs).

Definition corr1 : matrix :=
  Eval vm_compute in
    match corr_ (self world1) with
    | Some c => c
    | None => []
    end.

End Demo.

(** ** [Ransac.transform] and [Ransac.fit_transform] *)

(** The repair collaborator: [epochs.interpolate_bads(reset_bads=True)] on a
    recording whose [info['bads']] has just been set to the given names. *)
Class Repair : Type := {
  interpolate_bads : Epochs -> list string -> result Epochs
}.

(** [transform] works on a copy of the recording; it reads [self.bad_chs_]
    after [_check_data] has accepted the copy. *)
Definition transform `{E : Externals} `{P : Repair} (epochs : Epochs)
  : M Epochs :=
  let epochs := epochs in
  _ <~ invoke Call_check_data (check_data epochs) ;;
  this <~ read ;;
  bads <~ lift (getattr "bad_chs_" (bad_chs_ this)) ;;
  lift (interpolate_bads epochs bads).

(** [self.fit(epochs).transform(epochs)]. *)
Definition fit_transform `{E : Externals} `{P : Repair} (epochs : Epochs)
  : M Epochs :=
  _ <~ fit epochs ;; transform epochs.

(** ** Further notions *)

(** A channel type other than the three supported ones is present. *)
Definition invalid_present `{E : Externals} (e : Epochs) : Prop :=
  exists key,
    In key pick_types_keys /\
    in_strings key ["mag"; "grad"; "eeg"]%string = false /\
    contains e key = true.

(** A value that is a zero of either sign. *)
Definition is_zero (v : float64) : bool :=
  match v with S754_zero _ => true | _ => false end.

(** A value that is a zero or [nan]. *)
Definition zero_or_nan (v : float64) : bool :=
  match v with S754_zero _ | S754_nan => true | _ => false end.



(** [names.index] finds the first channel that bears the name of channel
    [p]. *)
Definition first_bearer (names : list string) (p q : nat) : Prop :=
  q <= p /\
  nth q names ""%string = nth p names ""%string /\
  forall q', q' < q -> nth q' names ""%string <> nth p names ""%string.

Module More.

(** A repair step that drops the data of the bad channels' names from the
    channel list; it stands for the interpolation. *)
#[export] Instance repair : Repair := {|
  interpolate_bads := fun e bads =>
    Ok {| info := {| ch_names := filter (fun n => negb (in_strings n bads))
                                        (ch_names (info e));
                     chs := chs (info e) |};
          n_times := n_times e;
          get_data := get_data e |}
|}.

(** Three channels of which two bear the same name. *)
Definition twin_names : list string := ["a"; "a"; "b"]%string.


(** The demo object with a fraction that rounds to no channel. *)
Definition no_sample : Ransac :=
  init 2 (1 # 10) (div (of_Z 3) (of_Z 4)) (4 # 10) 1 (Some 0%Z).

(** Two segments in which the third sensor is flat. *)
Definition flat_third : Epochs :=
  {| info := Demo.eeg3;
     n_times := 2;
     get_data :=
       [ [[of_Z 1; of_Z 2]; [of_Z 1; of_Z 2]; [of_Z 0; of_Z 0]];
         [[of_Z 1; of_Z 2]; [of_Z (-1); of_Z (-2)]; [of_Z 0; S754_zero true]] ] |}.

Definition flat_world : World :=
  Eval vm_compute in
    fst (run_fit (E := Demo.externals) (Demo.ransac 2) flat_third).

(** The demo object after sampling, with the channel type left at [None]. *)
Definition untyped : Ransac :=
  set_ch_subsets_ [["a"; "b"]; ["b"; "c"]]%string
                  (set_ch_type None (Demo.ransac 1)).

Definition world2 : World :=
  Eval vm_compute in fst (run_fit (E := Demo.externals) (Demo.ransac 2) Demo.epochs).

(** The demo object with [unbroken_time = 1], and its state after a fit. *)
Definition full_fraction : Ransac :=
  init 2 (2 # 3) (div (of_Z 3) (of_Z 4)) 1 1 (Some 0%Z).

Definition full_world : World :=
  Eval vm_compute in
    fst (run_fit (E := Demo.externals) full_fraction Demo.epochs).

(** A recording of two EOG channels: neither supported family is present. *)
Definition eog_only : Epochs :=
  {| info := {| ch_names := ["a"; "b"]%string;
                chs := [Demo.channel "eog"; Demo.channel "eog"] |};
     n_times := 1;
     get_data := [ [[of_Z 1]; [of_Z 2]] ] |}.

End More.

(** * Properties *)

(** ** Lists and arrays *)

Lemma nth_tabulate {A : Type} (n : nat) (f : nat -> A) (i : nat) (d : A) :
  i < n -> nth i (Np.tabulate n f) d = f i.
Proof.
  intros Hi. unfold Np.tabulate.
  rewrite (nth_indep _ d (f 0)) by (rewrite length_map, length_seq; exact Hi).
  rewrite map_nth, seq_nth by exact Hi. reflexivity.
Qed.

Lemma length_tabulate {A : Type} (n : nat) (f : nat -> A) :
  length (Np.tabulate n f) = n.
Proof. unfold Np.tabulate. now rewrite length_map, length_seq. Qed.

Lemma tabulate_ext {A : Type} (n : nat) (f g : nat -> A) :
  (forall i, i < n -> f i = g i) -> Np.tabulate n f = Np.tabulate n g.
Proof.
  intros H. unfold Np.tabulate. apply map_ext_in.
  intros i Hi. apply in_seq in Hi. apply H. lia.
Qed.

Lemma tabulate_nth {A : Type} (l : list A) (d : A) :
  Np.tabulate (length l) (fun i => nth i l d) = l.
Proof.
  unfold Np.tabulate. induction l as [|x l IH]; simpl; [reflexivity|].
  f_equal. rewrite <- seq_shift, map_map. exact IH.
Qed.

Lemma nth_map_in {A B : Type} (f : A -> B) (l : list A) (i : nat) (d : A) (e : B) :
  i < length l -> nth i (map f l) e = f (nth i l d).
Proof.
  intros Hi. rewrite (nth_indep _ e (f d)) by (rewrite length_map; exact Hi).
  apply map_nth.
Qed.

Lemma nth_concat_uniform {A : Type} (T : nat) (ls : list (list A)) (t k : nat) (d : A) :
  Forall (fun l => length l = T) ls -> t < T ->
  nth (t + T * k) (concat ls) d = nth t (nth k ls []) d.
Proof.
  intros Hall Ht. revert k. induction Hall as [|l ls Hl Hall IH]; intros k.
  - simpl. destruct (t + T * k), k, t; reflexivity.
  - simpl. destruct k as [|k].
    + rewrite Nat.mul_0_r, Nat.add_0_r. apply app_nth1. lia.
    + rewrite app_nth2 by nia.
      replace (t + T * S k - length l) with (t + T * k) by nia.
      apply IH.
Qed.

Lemma length_column (j : nat) (m : matrix) : length (Np.column j m) = length m.
Proof. unfold Np.column. apply length_map. Qed.

Lemma get_column (j i : nat) (m : matrix) :
  Np.get (Np.column j m) i = Np.get2 m i j.
Proof.
  unfold Np.get2, Np.get, Np.column.
  destruct (Nat.lt_ge_cases i (length m)) as [Hi|Hi].
  - now rewrite nth_map_in with (d := ([] : vector)) by exact Hi.
  - rewrite nth_overflow by (rewrite length_map; lia).
    rewrite (nth_overflow m) by lia. now destruct j.
Qed.

Lemma nth_transpose (ncols : nat) (m : matrix) (j : nat) :
  j < ncols -> nth j (Np.transpose ncols m) [] = Np.column j m.
Proof.
  intros Hj. unfold Np.transpose.
  now rewrite nth_tabulate by exact Hj.
Qed.

Lemma get2_transpose (ncols : nat) (m : matrix) (i j : nat) :
  j < ncols -> Np.get2 (Np.transpose ncols m) j i = Np.get2 m i j.
Proof.
  intros Hj. unfold Np.get2 at 1. rewrite nth_transpose by exact Hj.
  apply get_column.
Qed.

Lemma has_shape_spec (n m : nat) (a : matrix) :
  Np.has_shape n m a = true <->
  length a = n /\ Forall (fun row => length row = m) a.
Proof.
  unfold Np.has_shape. rewrite andb_true_iff, Nat.eqb_eq, forallb_forall, Forall_forall.
  split; intros [H1 H2]; split; auto; intros x Hx; apply Nat.eqb_eq; auto.
Qed.

(** Row [k] of a matrix is column [k] of its transpose. *)
Lemma column_transpose (ncols : nat) (m : matrix) (k : nat) :
  length (nth k m []) = ncols ->
  k < length m ->
  Np.column k (Np.transpose ncols m) = nth k m [].
Proof.
  intros Hlen Hk. unfold Np.column, Np.transpose, Np.tabulate.
  rewrite map_map.
  transitivity (Np.tabulate ncols (fun j => nth j (nth k m []) zero)).
  - apply map_ext_in. intros j Hj. rewrite get_column. reflexivity.
  - rewrite <- Hlen. apply tabulate_nth.
Qed.

Lemma get_ravel_F (T K : nat) (a : matrix) (t k : nat) :
  length a = T -> t < T -> k < K ->
  Np.get (Np.ravel_F K a) (t + T * k) = Np.get2 a t k.
Proof.
  intros Ha Ht Hk. unfold Np.ravel_F, Np.get.
  rewrite nth_concat_uniform with (T := T).
  - rewrite nth_transpose by exact Hk. apply get_column.
  - unfold Np.transpose, Np.tabulate. apply Forall_forall. intros l Hl.
    apply in_map_iff in Hl. destruct Hl as [j [<- _]].
    now rewrite length_column.
  - exact Ht.
Qed.

Lemma get3_reshape_F3 (n0 n1 n2 K : nat) (a : matrix) (i j k : nat) :
  length a = n0 -> i < n0 -> j < n1 -> k < n2 -> j + n1 * k < K ->
  Np.get3 (Np.reshape_F3 n0 n1 n2 K a) i j k = Np.get2 a i (j + n1 * k).
Proof.
  intros Ha Hi Hj Hk HK. unfold Np.get3, Np.get2, Np.reshape_F3.
  rewrite nth_tabulate by exact Hi. rewrite nth_tabulate by exact Hj.
  unfold Np.get at 1. rewrite nth_tabulate by exact Hk.
  replace (i + n0 * j + n0 * n1 * k) with (i + n0 * (j + n1 * k)) by nia.
  now apply get_ravel_F.
Qed.

Lemma get2_dot (m : nat) (a b : matrix) (i j : nat) :
  i < length a -> j < m ->
  Np.get2 (Np.dot m a b) i j
  = Np.sum (Np.zip_with mul (nth i a []) (Np.column j b)).
Proof.
  intros Hi Hj. unfold Np.get2, Np.dot.
  rewrite nth_map_in with (d := ([] : vector)) by exact Hi. unfold Np.get.
  now rewrite nth_tabulate.
Qed.

Lemma nth_operator_block (C r c : nat) (mappings : matrix) :
  c < C -> nth c (operator_block C r mappings) [] = nth (r * C + c) mappings [].
Proof.
  intros Hc. unfold operator_block.
  rewrite nth_firstn. destruct (Nat.ltb_spec c C); [|lia].
  now rewrite nth_skipn.
Qed.

Lemma length_operator_block (C R r : nat) (mappings : matrix) :
  length mappings = R * C -> r < R -> length (operator_block C r mappings) = C.
Proof.
  intros Hlen Hr. unfold operator_block.
  rewrite length_firstn, length_skipn, Hlen. nia.
Qed.

Lemma y_pred_of_ok (R : nat) (mappings : matrix) (inst : Epochs) (x : matrix) :
  nth_error (get_data inst) 0 = Some x ->
  Np.has_shape (R * n_channels_of inst) (n_channels_of inst) mappings = true ->
  y_pred_of R mappings inst
  = Ok (Np.reshape_F3 (n_times inst) (n_channels_of inst) R (length mappings)
          (Np.dot (length mappings) (Np.transpose (n_times inst) x)
                  (Np.transpose (n_channels_of inst) mappings))).
Proof.
  intros Hx Hshape. unfold y_pred_of, list_getitem. rewrite Hx. simpl.
  pose proof Hshape as Hs. apply has_shape_spec in Hs. destruct Hs as [Hlen _].
  rewrite Hlen, Hshape. simpl.
  replace (n_times inst * (R * n_channels_of inst)
           =? n_times inst * n_channels_of inst * R) with true
    by (symmetry; apply Nat.eqb_eq; nia).
  reflexivity.
Qed.

(** C2.  The Fortran-order reshape of [data.T.dot(mappings.T)] to
    (T, C, n_resample) puts at index (t, c, r) the prediction of sensor [c]
    at time [t] made by the [r]-th operator of the stack, that is by rows
    [r*C .. r*C+C-1] of the stacked operator. *)
Theorem C2_reshape_recovers_predictions
  (R : nat) (mappings : matrix) (inst : Epochs) (x : matrix) :
  nth_error (get_data inst) 0 = Some x ->
  Np.has_shape (R * n_channels_of inst) (n_channels_of inst) mappings = true ->
  exists y,
    y_pred_of R mappings inst = Ok y /\
    forall t c r,
      t < n_times inst -> c < n_channels_of inst -> r < R ->
      Np.get3 y t c r
      = Np.get2 (predict (n_channels_of inst) (n_times inst)
                         (operator_block (n_channels_of inst) r mappings) x)
                t c.
Proof.
  intros Hx Hshape. eexists. split; [exact (y_pred_of_ok R mappings inst Hx Hshape)|].
  apply has_shape_spec in Hshape. destruct Hshape as [Hlen Hrows].
  set (C := n_channels_of inst) in *. set (T := n_times inst) in *.
  intros t c r Ht Hc Hr.
  assert (Hk : c + C * r < length mappings) by (rewrite Hlen; nia).
  assert (HT : length (Np.transpose T x) = T) by apply length_tabulate.
  rewrite get3_reshape_F3; try assumption.
  2:{ unfold Np.dot. now rewrite length_map. }
  unfold predict.
  rewrite !get2_dot by (rewrite ?HT; assumption).
  f_equal. f_equal.
  rewrite column_transpose; try assumption.
  2:{ rewrite Forall_forall in Hrows. apply Hrows, nth_In, Hk. }
  rewrite column_transpose.
  - rewrite nth_operator_block by exact Hc. f_equal. lia.
  - rewrite nth_operator_block by exact Hc.
    rewrite Forall_forall in Hrows. apply Hrows, nth_In. lia.
  - rewrite (length_operator_block C (R := R)); assumption.
Qed.

Lemma C2_witness :
  exists y,
    y_pred_of 2 Demo.stacked Demo.first_epoch = Ok y /\
    forall t c r, t < 2 -> c < 3 -> r < 2 ->
      Np.get3 y t c r
      = Np.get2 (predict 3 2 (operator_block 3 r Demo.stacked)
                         [[of_Z 1; of_Z 2]; [of_Z 1; of_Z 2]; [of_Z 0; of_Z 0]])
                t c.
Proof.
  apply (@C2_reshape_recovers_predictions 2 Demo.stacked Demo.first_epoch
           [[of_Z 1; of_Z 2]; [of_Z 1; of_Z 2]; [of_Z 0; of_Z 0]]);
    reflexivity.
Defined.


(** ** The order of binary64 values *)

Ltac cmp_cases :=
  repeat match goal with
  | H : context [Z.compare ?a ?b] |- _ => destruct (Z.compare_spec a b)
  | |- context [Z.compare ?a ?b] => destruct (Z.compare_spec a b)
  | H : context [Pos.compare ?a ?b] |- _ => destruct (Pos.compare_spec a b)
  | |- context [Pos.compare ?a ?b] => destruct (Pos.compare_spec a b)
  end.

Ltac float_order :=
  unfold leb, ltb, SFleb, SFltb, SFcompare, is_nan in *;
  repeat match goal with
  | x : float64 |- _ => destruct x
  | s : bool |- _ => destruct s
  end;
  simpl in *; try discriminate; try reflexivity;
  change PosDef.Pos.compare_cont with Pos.compare_cont in *;
  fold Pos.compare in *;
  cmp_cases; simpl in *; subst;
  try discriminate; try reflexivity; try lia.


Lemma ltb_leb_trans (x a b : float64) :
  ltb x a = true -> leb a b = true -> ltb x b = true.
Proof. intros H1 H2. float_order. Qed.

Lemma ltb_nan_l (x y : float64) : is_nan x = true -> ltb x y = false.
Proof. intros H. destruct x; try discriminate. reflexivity. Qed.

(** ** Sorting and the median *)








Lemma median_odd (l : vector) (k : nat) :
  existsb is_nan l = false -> length l = 2 * k + 1 ->
  Np.median l = Np.get (Np.sort l) k.
Proof.
  intros Hnan Hlen. unfold Np.median. rewrite Hnan, Hlen.
  replace (2 * k + 1 =? 0) with false by (symmetry; apply Nat.eqb_neq; lia).
  replace ((2 * k + 1) mod 2) with 1.
  2:{ rewrite Nat.add_comm, Nat.mul_comm, Nat.Div0.mod_add. reflexivity. }
  replace ((2 * k + 1) / 2) with k.
  2:{ rewrite Nat.add_comm, Nat.mul_comm, Nat.div_add by lia. reflexivity. }
  reflexivity.
Qed.

(** ** Zipped arrays *)

Lemma length_zip_with {A B C : Type} (f : A -> B -> C) (xs : list A) (ys : list B) :
  length (Np.zip_with f xs ys) = Nat.min (length xs) (length ys).
Proof.
  revert ys. induction xs as [|x xs IH]; intros [|y ys]; simpl; auto.
Qed.

Lemma nth_zip_with {A B C : Type} (f : A -> B -> C) (xs : list A) (ys : list B)
  (i : nat) (da : A) (db : B) (dc : C) :
  i < length xs -> i < length ys ->
  nth i (Np.zip_with f xs ys) dc = f (nth i xs da) (nth i ys db).
Proof.
  revert ys i. induction xs as [|x xs IH]; intros [|y ys] [|i]; simpl; intros H1 H2;
    try lia; auto. apply IH; lia.
Qed.

Lemma zip_with_tabulate {A B C : Type} (f : A -> B -> C) (n : nat)
  (g : nat -> A) (h : nat -> B) :
  Np.zip_with f (Np.tabulate n g) (Np.tabulate n h)
  = Np.tabulate n (fun i => f (g i) (h i)).
Proof.
  unfold Np.tabulate. generalize 0. induction n as [|n IH]; intros s; simpl; [reflexivity|].
  now rewrite IH.
Qed.

Lemma map_tabulate {A B : Type} (f : A -> B) (n : nat) (g : nat -> A) :
  map f (Np.tabulate n g) = Np.tabulate n (fun i => f (g i)).
Proof. unfold Np.tabulate. now rewrite map_map. Qed.

(** ** The scorer in closed form *)

Lemma column_as_tabulate (j : nat) (m : matrix) :
  Np.column j m = Np.tabulate (length m) (fun i => Np.get2 m i j).
Proof.
  apply nth_ext with (d := zero) (d' := zero).
  - now rewrite length_column, length_tabulate.
  - intros i Hi. rewrite length_column in Hi.
    rewrite nth_tabulate by exact Hi. apply get_column.
Qed.

Lemma column_tabulate2 (n m : nat) (g : nat -> nat -> float64) (j : nat) :
  j < m ->
  Np.column j (Np.tabulate n (fun i => Np.tabulate m (g i)))
  = Np.tabulate n (fun i => g i j).
Proof.
  intros Hj. unfold Np.column. rewrite map_tabulate.
  apply tabulate_ext. intros i _. unfold Np.get. now apply nth_tabulate.
Qed.

Lemma sum_axis0_tabulate2 (n m : nat) (g : nat -> nat -> float64) :
  Np.sum_axis0 m (Np.tabulate n (fun i => Np.tabulate m (g i)))
  = Np.tabulate m (fun j => Np.sum (Np.tabulate n (fun i => g i j))).
Proof.
  unfold Np.sum_axis0. apply tabulate_ext. intros j Hj.
  now rewrite column_tabulate2.
Qed.


Lemma transpose_as_tabulate (n k : nat) (m : matrix) :
  length m = n ->
  Np.transpose k m
  = Np.tabulate k (fun j => Np.tabulate n (fun i => Np.get2 m i j)).
Proof.
  intros Hn. unfold Np.transpose. apply tabulate_ext. intros j _.
  rewrite column_as_tabulate. now rewrite Hn.
Qed.

Lemma median_last_axis_reshape (n0 n1 n2 K : nat) (a : matrix) :
  Np.median_last_axis (Np.reshape_F3 n0 n1 n2 K a)
  = Np.tabulate n0 (fun t =>
      Np.tabulate n1 (fun c => pooled (Np.reshape_F3 n0 n1 n2 K a) t c)).
Proof.
  unfold Np.median_last_axis. unfold Np.reshape_F3 at 1.
  rewrite map_tabulate. apply tabulate_ext. intros t Ht.
  rewrite map_tabulate. apply tabulate_ext. intros c Hc.
  unfold pooled, Np.reshape_F3. now rewrite !nth_tabulate.
Qed.

Lemma compute_correlations_closed_form
  (self : Ransac) (mappings : matrix) (inst : Epochs) (x : matrix) (y : list matrix) :
  mappings_ self = Some mappings ->
  nth_error (get_data inst) 0 = Some x ->
  length x = n_channels_of inst ->
  y_pred_of (n_resample self) mappings inst = Ok y ->
  Np.median_last_axis y
  = Np.tabulate (n_times inst) (fun t =>
      Np.tabulate (n_channels_of inst) (fun c => pooled y t c)) ->
  _compute_correlations self inst
  = Ok (Np.tabulate (n_channels_of inst) (fun c =>
          div (Np.sum (Np.tabulate (n_times inst)
                         (fun t => mul (Np.get2 x c t) (pooled y t c))))
              (mul (sqrt (Np.sum (Np.tabulate (n_times inst)
                             (fun t => mul (Np.get2 x c t) (Np.get2 x c t)))))
                   (sqrt (Np.sum (Np.tabulate (n_times inst)
                             (fun t => mul (pooled y t c) (pooled y t c)))))))).
Proof.
  intros Hm Hx Hlen Hy Hmed. unfold _compute_correlations.
  rewrite Hm. simpl. rewrite Hy. simpl. unfold list_getitem. rewrite Hx. simpl.
  rewrite Hmed. set (C := n_channels_of inst) in *. set (T := n_times inst).
  f_equal. unfold Np.vdiv, Np.vmul, Np.vsqrt, Np.mul2, Np.square2.
  rewrite transpose_as_tabulate with (n := C) by exact Hlen.
  set (P := Np.tabulate T (fun t => Np.tabulate C (fun c => pooled y t c))).
  set (X := Np.tabulate T (fun j => Np.tabulate C (fun i => Np.get2 x i j))).
  assert (E1 : Np.zip_with (Np.zip_with mul) X P
               = Np.tabulate T (fun t => Np.tabulate C
                   (fun c => mul (Np.get2 x c t) (pooled y t c)))).
  { unfold X, P. rewrite zip_with_tabulate. apply tabulate_ext.
    intros t _. apply zip_with_tabulate. }
  assert (E2 : map (map (fun v => mul v v)) X
               = Np.tabulate T (fun t => Np.tabulate C
                   (fun c => mul (Np.get2 x c t) (Np.get2 x c t)))).
  { unfold X. rewrite map_tabulate. apply tabulate_ext.
    intros t _. apply map_tabulate. }
  assert (E3 : map (map (fun v => mul v v)) P
               = Np.tabulate T (fun t => Np.tabulate C
                   (fun c => mul (pooled y t c) (pooled y t c)))).
  { unfold P. rewrite map_tabulate. apply tabulate_ext.
    intros t _. apply map_tabulate. }
  rewrite E1, E2, E3, !sum_axis0_tabulate2, !map_tabulate, !zip_with_tabulate.
  reflexivity.
Qed.



(** ** Rounding to an integer *)

Lemma round_nearest_even (x : Q) : nearest_even x (Np.round x).
Proof.
  destruct x as [n d]. unfold nearest_even, Np.round. cbn [Qnum Qden].
  pose proof (Z.div_mod n (Z.pos d) ltac:(lia)) as Hdm.
  pose proof (Z.mod_pos_bound n (Z.pos d) ltac:(lia)) as Hmod.
  revert Hdm Hmod. generalize (n / Z.pos d)%Z (n mod Z.pos d)%Z.
  intros q r Hdm Hmod.
  assert (Hodd : Z.even q = false -> Z.even (q + 1) = true).
  { intros H. rewrite Z.even_add, H. reflexivity. }
  unfold Qle, Qeq, Qminus, Qplus, Qopp, inject_Z.
  destruct (Z.compare_spec (2 * r) (Z.pos d)) as [H|H|H];
    [destruct (Z.even q) eqn:He|..];
    cbn [Qnum Qden]; rewrite ?Pos2Z.inj_mul;
    (split; [nia|split; [nia|]]); intros [Ht|Ht]; auto; try nia.
Qed.

Lemma nearest_even_unique (x : Q) (a b : Z) :
  nearest_even x a -> nearest_even x b -> a = b.
Proof.
  destruct x as [n d]. unfold nearest_even.
  unfold Qle, Qeq, Qminus, Qplus, Qopp, inject_Z.
  cbn [Qnum Qden]. rewrite ?Pos2Z.inj_mul.
  intros (Ha1 & Ha2 & Ha) (Hb1 & Hb2 & Hb).
  assert (Hp : (0 < Z.pos d)%Z) by lia.
  assert (Hab : (a <= b + 1)%Z) by nia.
  assert (Hba : (b <= a + 1)%Z) by nia.
  destruct (Z.eq_dec a b) as [|Hne]; [assumption|exfalso].
  assert (Hcase : (a = b + 1 \/ b = a + 1)%Z) by lia.
  destruct Hcase as [->| ->].
  - assert (He1 : Z.even (b + 1) = true) by (apply Ha; left; nia).
    assert (He2 : Z.even b = true) by (apply Hb; right; nia).
    rewrite Z.even_add, He2 in He1. discriminate.
  - assert (He1 : Z.even (a + 1) = true) by (apply Hb; left; nia).
    assert (He2 : Z.even a = true) by (apply Ha; right; nia).
    rewrite Z.even_add, He2 in He1. discriminate.
Qed.

Lemma nearest_even_eq (x y : Q) (n : Z) :
  (x == y)%Q -> nearest_even x n -> nearest_even y n.
Proof.
  intros H (H1 & H2 & H3). unfold nearest_even. rewrite <- H. tauto.
Qed.

Lemma round_eq (x y : Q) : (x == y)%Q -> Np.round x = Np.round y.
Proof.
  intros H. apply (@nearest_even_unique y).
  - apply (@nearest_even_eq x y _ H). apply round_nearest_even.
  - apply round_nearest_even.
Qed.

Lemma round_inject_Z (z : Z) : Np.round (inject_Z z) = z.
Proof.
  symmetry. apply (@nearest_even_unique (inject_Z z)); [|apply round_nearest_even].
  unfold nearest_even, Qle, Qeq, Qminus, Qplus, Qopp, inject_Z. cbn [Qnum Qden].
  repeat split; try lia.
Qed.

Lemma round_mono (x y : Q) : (x <= y)%Q -> (Np.round x <= Np.round y)%Z.
Proof.
  intros Hxy.
  pose proof (round_nearest_even x) as Hx.
  pose proof (round_nearest_even y) as Hy.
  destruct (Z.le_gt_cases (Np.round x) (Np.round y)) as [|Hgt]; [assumption|].
  exfalso.
  assert (Heq : (x == y)%Q).
  { apply Qle_antisym; [exact Hxy|].
    destruct Hx as (Hx1 & _ & _). destruct Hy as (_ & Hy2 & _).
    eapply Qle_trans; [exact Hy2|]. eapply Qle_trans; [|exact Hx1].
    unfold Qle, Qminus, Qplus, Qopp, inject_Z. cbn [Qnum Qden]. lia. }
  pose proof (round_eq Heq). lia.
Qed.

(** ** Powers of two *)

Lemma two_neq_0 : ~ (2 == 0)%Q.
Proof. discriminate. Qed.

Lemma pow2_pos (e : Z) : (0 < 2 ^ e)%Q.
Proof. apply Qpower_0_lt. reflexivity. Qed.

Lemma pow2_neq_0 (e : Z) : ~ (2 ^ e == 0)%Q.
Proof.
  intros H. pose proof (pow2_pos e) as Hp. rewrite H in Hp.
  exact (Qlt_irrefl _ Hp).
Qed.

Lemma pow2_plus (a b : Z) : (2 ^ (a + b) == 2 ^ a * 2 ^ b)%Q.
Proof. apply Qpower_plus, two_neq_0. Qed.

Lemma pow2_le (a b : Z) : (a <= b)%Z -> (2 ^ a <= 2 ^ b)%Q.
Proof. intros H. apply Qpower_le_compat_l; [exact H|discriminate]. Qed.

Lemma pow2_lt_inv (a b : Z) : (2 ^ a < 2 ^ b)%Q -> (a < b)%Z.
Proof. intros H. apply (Qpower_lt_compat_l_inv _ _ _ H). reflexivity. Qed.

Lemma pow2_Z (a : Z) : (0 <= a)%Z -> (2 ^ a == inject_Z (2 ^ a))%Q.
Proof. intros H. now rewrite Zpower_Qpower. Qed.

Lemma div_pow2_mul (x : Q) (e : Z) : (x / 2 ^ e * 2 ^ e == x)%Q.
Proof. rewrite Qmult_comm. apply Qmult_div_r, pow2_neq_0. Qed.

Lemma mul_pow2_div (x : Q) (e : Z) : (x * 2 ^ e / 2 ^ e == x)%Q.
Proof. apply Qdiv_mult_l, pow2_neq_0. Qed.

(** ** Rounding at a fixed exponent *)

Lemma div_pow2_le (e : Z) (x y : Q) : (x <= y)%Q -> (x / 2 ^ e <= y / 2 ^ e)%Q.
Proof.
  intros H. apply Qmult_le_compat_r; [exact H|].
  apply Qinv_le_0_compat, Qlt_le_weak, pow2_pos.
Qed.

Lemma round_at_mono (e : Z) (x y : Q) :
  (x <= y)%Q -> (Binary64.round_at e x <= Binary64.round_at e y)%Q.
Proof.
  intros H. unfold Binary64.round_at.
  apply Qmult_le_compat_r; [|apply Qlt_le_weak, pow2_pos].
  rewrite <- Zle_Qle. apply round_mono, div_pow2_le, H.
Qed.

Lemma round_at_multiple (e : Z) (y : Q) :
  multiple e y -> (Binary64.round_at e y == y)%Q.
Proof.
  intros [k Hk]. unfold Binary64.round_at.
  assert (Hq : (y / 2 ^ e == inject_Z k)%Q).
  { rewrite Hk. apply mul_pow2_div. }
  rewrite (round_eq Hq), round_inject_Z. now rewrite Hk.
Qed.

Lemma multiple_le (e e' : Z) (y : Q) :
  (e <= e')%Z -> multiple e' y -> multiple e y.
Proof.
  intros He [k Hk]. exists (k * 2 ^ (e' - e))%Z.
  rewrite Hk, inject_Z_mult, <- pow2_Z by lia.
  rewrite <- Qmult_assoc, <- pow2_plus.
  replace (e' - e + e)%Z with e' by lia. reflexivity.
Qed.

Lemma multiple_0 (e : Z) : multiple e 0.
Proof. exists 0%Z. now rewrite Qmult_0_l. Qed.

Lemma multiple_pow2 (e m : Z) : (e <= m)%Z -> multiple e (2 ^ m).
Proof.
  intros H. apply (@multiple_le e m); [exact H|].
  exists 1%Z. now rewrite Qmult_1_l.
Qed.

Lemma multiple_opp (e : Z) (y : Q) : multiple e y -> multiple e (- y).
Proof.
  intros [k Hk]. exists (- k)%Z. rewrite Hk, inject_Z_opp. ring.
Qed.

Lemma round_at_le_multiple (e : Z) (x y : Q) :
  (x <= y)%Q -> multiple e y -> (Binary64.round_at e x <= y)%Q.
Proof.
  intros H Hy. rewrite <- (round_at_multiple Hy). now apply round_at_mono.
Qed.

Lemma round_at_ge_multiple (e : Z) (x y : Q) :
  (y <= x)%Q -> multiple e y -> (y <= Binary64.round_at e x)%Q.
Proof.
  intros H Hy. rewrite <- (round_at_multiple Hy). now apply round_at_mono.
Qed.

(** ** Magnitude *)

Lemma pow2_log2 (z : Z) :
  (0 < z)%Z ->
  (2 ^ Z.log2 z <= inject_Z z)%Q /\ (inject_Z z < 2 ^ (Z.log2 z + 1))%Q.
Proof.
  intros Hz. pose proof (Z.log2_nonneg z) as Hn.
  pose proof (Z.log2_spec z Hz) as [Hl Hu].
  rewrite !pow2_Z by lia. rewrite <- Zle_Qle, <- Zlt_Qlt.
  replace (Z.log2 z + 1)%Z with (Z.succ (Z.log2 z)) by lia. split; assumption.
Qed.

Lemma mag_spec (q : Q) :
  ~ (q == 0)%Q ->
  (2 ^ (Binary64.mag q - 1) <= Qabs q)%Q /\ (Qabs q < 2 ^ Binary64.mag q)%Q.
Proof.
  destruct q as [n d]. intros Hq.
  assert (Hn : n <> 0%Z).
  { intros ->. apply Hq. reflexivity. }
  unfold Binary64.mag. cbn [Qnum Qden].
  destruct (Z.eqb_spec n 0) as [|_]; [contradiction|].
  set (a := Z.log2 (Z.abs n)). set (b := Z.log2 (Z.pos d)).
  destruct (@pow2_log2 (Z.abs n) ltac:(lia)) as [Ha1 Ha2]. fold a in Ha1, Ha2.
  destruct (@pow2_log2 (Z.pos d) ltac:(lia)) as [Hb1 Hb2]. fold b in Hb1, Hb2.
  assert (Hd : (0 < inject_Z (Z.pos d))%Q) by reflexivity.
  assert (Habs : (Qabs (n # d) == inject_Z (Z.abs n) / inject_Z (Z.pos d))%Q).
  { cbn [Qabs]. now rewrite Qmake_Qdiv. }
  assert (HL : (2 ^ (a - b - 1) < Qabs (n # d))%Q).
  { rewrite Habs. apply Qlt_shift_div_l; [exact Hd|].
    eapply Qlt_le_trans; [|exact Ha1].
    replace a with ((a - b - 1) + (b + 1))%Z at 2 by lia.
    rewrite pow2_plus. apply Qmult_lt_l; [apply pow2_pos|exact Hb2]. }
  assert (HU : (Qabs (n # d) < 2 ^ (a - b + 1))%Q).
  { rewrite Habs. apply Qlt_shift_div_r; [exact Hd|].
    eapply Qlt_le_trans; [exact Ha2|].
    replace (a + 1)%Z with ((a - b + 1) + b)%Z by lia.
    rewrite pow2_plus. apply Qmult_le_l; [apply pow2_pos|exact Hb1]. }
  destruct (Qle_bool (2 ^ (a - b)) (Qabs (n # d))) eqn:Hc.
  - apply Qle_bool_iff in Hc.
    replace (a - b + 1 - 1)%Z with (a - b)%Z by lia. split; assumption.
  - split; [apply Qlt_le_weak, HL|].
    apply Qnot_le_lt. intros Hle. apply Qle_bool_iff in Hle. congruence.
Qed.

Lemma mag_0 (q : Q) : (q == 0)%Q -> Binary64.mag q = 0%Z.
Proof.
  destruct q as [n d]. unfold Qeq. cbn [Qnum Qden]. intros H.
  assert (n = 0%Z) as -> by lia. reflexivity.
Qed.

Lemma mag_upper (q : Q) : (Qabs q < 2 ^ Binary64.mag q)%Q.
Proof.
  destruct (Qeq_dec q 0) as [H0|Hn]; [|now apply mag_spec].
  rewrite (mag_0 H0), H0. reflexivity.
Qed.

Lemma mag_le_of_lt (q : Q) (m : Z) :
  ~ (q == 0)%Q -> (Qabs q < 2 ^ m)%Q -> (Binary64.mag q <= m)%Z.
Proof.
  intros Hq Hlt. destruct (@mag_spec q Hq) as [Hl _].
  assert (H : (2 ^ (Binary64.mag q - 1) < 2 ^ m)%Q)
    by (eapply Qle_lt_trans; eassumption).
  apply pow2_lt_inv in H. lia.
Qed.

Lemma mag_mono (x y : Q) :
  ~ (x == 0)%Q -> (Qabs x <= Qabs y)%Q -> (Binary64.mag x <= Binary64.mag y)%Z.
Proof.
  intros Hx Hxy. apply mag_le_of_lt; [exact Hx|].
  eapply Qle_lt_trans; [exact Hxy|apply mag_upper].
Qed.

Lemma ulp_exp_mono (x y : Q) :
  ~ (x == 0)%Q -> (Qabs x <= Qabs y)%Q ->
  (Binary64.ulp_exp x <= Binary64.ulp_exp y)%Z.
Proof.
  intros Hx Hxy. pose proof (@mag_mono x y Hx Hxy). unfold Binary64.ulp_exp. lia.
Qed.

Lemma ulp_exp_emin (x : Q) : (Binary64.emin <= Binary64.ulp_exp x)%Z.
Proof. unfold Binary64.ulp_exp. lia. Qed.

(** ** Rounding to the nearest binary64 number *)

Lemma nearest_nonneg (x : Q) : (0 <= x)%Q -> (0 <= Binary64.nearest x)%Q.
Proof. intros H. apply round_at_ge_multiple; [exact H|apply multiple_0]. Qed.

Lemma nearest_nonpos (x : Q) : (x <= 0)%Q -> (Binary64.nearest x <= 0)%Q.
Proof. intros H. apply round_at_le_multiple; [exact H|apply multiple_0]. Qed.

Lemma ulp_exp_lt_mag (x y : Q) :
  (Binary64.ulp_exp x < Binary64.ulp_exp y)%Z ->
  (Binary64.mag x <= Binary64.mag y - 1)%Z /\
  (Binary64.ulp_exp y <= Binary64.mag y - 1)%Z.
Proof. unfold Binary64.ulp_exp, Binary64.prec, Binary64.emin. lia. Qed.

Lemma nearest_mono_pos (x y : Q) :
  (0 < x)%Q -> (x <= y)%Q -> (Binary64.nearest x <= Binary64.nearest y)%Q.
Proof.
  intros Hx Hxy.
  assert (Hy : (0 < y)%Q) by (eapply Qlt_le_trans; eassumption).
  assert (Hx0 : ~ (x == 0)%Q).
  { intros H. rewrite H in Hx. exact (Qlt_irrefl _ Hx). }
  assert (Hy0 : ~ (y == 0)%Q).
  { intros H. rewrite H in Hy. exact (Qlt_irrefl _ Hy). }
  assert (Hax : (Qabs x == x)%Q) by (apply Qabs_pos, Qlt_le_weak, Hx).
  assert (Hay : (Qabs y == y)%Q) by (apply Qabs_pos, Qlt_le_weak, Hy).
  assert (Habs : (Qabs x <= Qabs y)%Q) by (rewrite Hax, Hay; exact Hxy).
  pose proof (@ulp_exp_mono x y Hx0 Habs) as He.
  unfold Binary64.nearest.
  destruct (Z.eq_dec (Binary64.ulp_exp x) (Binary64.ulp_exp y)) as [Heq|Hne].
  - rewrite Heq. now apply round_at_mono.
  - destruct (@ulp_exp_lt_mag x y ltac:(lia)) as [Hm Hu].
    apply Qle_trans with (2 ^ (Binary64.mag y - 1))%Q.
    + apply round_at_le_multiple; [|apply multiple_pow2; lia].
      apply Qle_trans with (2 ^ Binary64.mag x)%Q; [|now apply pow2_le].
      apply Qle_trans with (Qabs x); [apply Qle_Qabs|].
      apply Qlt_le_weak, mag_upper.
    + apply round_at_ge_multiple; [|apply multiple_pow2; lia].
      apply Qle_trans with (Qabs y); [now apply mag_spec|].
      rewrite Hay. apply Qle_refl.
Qed.

Lemma nearest_mono_neg (x y : Q) :
  (y < 0)%Q -> (x <= y)%Q -> (Binary64.nearest x <= Binary64.nearest y)%Q.
Proof.
  intros Hy Hxy.
  assert (Hx : (x < 0)%Q) by (eapply Qle_lt_trans; eassumption).
  assert (Hx0 : ~ (x == 0)%Q).
  { intros H. rewrite H in Hx. exact (Qlt_irrefl _ Hx). }
  assert (Hy0 : ~ (y == 0)%Q).
  { intros H. rewrite H in Hy. exact (Qlt_irrefl _ Hy). }
  assert (Hax : (Qabs x == - x)%Q) by (apply Qabs_neg, Qlt_le_weak, Hx).
  assert (Hay : (Qabs y == - y)%Q) by (apply Qabs_neg, Qlt_le_weak, Hy).
  assert (Habs : (Qabs y <= Qabs x)%Q)
    by (rewrite Hax, Hay; now apply Qopp_le_compat).
  pose proof (@ulp_exp_mono y x Hy0 Habs) as He.
  unfold Binary64.nearest.
  destruct (Z.eq_dec (Binary64.ulp_exp y) (Binary64.ulp_exp x)) as [Heq|Hne].
  - rewrite Heq. now apply round_at_mono.
  - destruct (@ulp_exp_lt_mag y x ltac:(lia)) as [Hm Hu].
    apply Qle_trans with (- 2 ^ (Binary64.mag x - 1))%Q.
    + apply round_at_le_multiple; [|apply multiple_opp, multiple_pow2; lia].
      assert (H1 : (2 ^ (Binary64.mag x - 1) <= - x)%Q)
        by (rewrite <- Hax; now apply mag_spec).
      apply Qopp_le_compat in H1. now rewrite Qopp_involutive in H1.
    + apply round_at_ge_multiple; [|apply multiple_opp, multiple_pow2; lia].
      assert (H1 : (- y <= 2 ^ (Binary64.mag x - 1))%Q).
      { rewrite <- Hay.
        apply Qle_trans with (2 ^ Binary64.mag y)%Q; [|now apply pow2_le].
        apply Qlt_le_weak, mag_upper. }
      apply Qopp_le_compat in H1. now rewrite Qopp_involutive in H1.
Qed.

Lemma nearest_mono (x y : Q) :
  (x <= y)%Q -> (Binary64.nearest x <= Binary64.nearest y)%Q.
Proof.
  intros Hxy. destruct (Qlt_le_dec 0 x) as [Hx|Hx].
  - now apply nearest_mono_pos.
  - destruct (Qlt_le_dec y 0) as [Hy|Hy].
    + now apply nearest_mono_neg.
    + apply Qle_trans with 0%Q; [now apply nearest_nonpos|now apply nearest_nonneg].
Qed.

Lemma nearest_eq (x y : Q) :
  (x == y)%Q -> (Binary64.nearest x == Binary64.nearest y)%Q.
Proof.
  intros H. apply Qle_antisym; apply nearest_mono; rewrite H; apply Qle_refl.
Qed.

#[global] Instance nearest_proper : Proper (Qeq ==> Qeq) Binary64.nearest.
Proof. intros x y H. now apply nearest_eq. Qed.

Lemma nearest_multiple (y : Q) :
  multiple (Binary64.ulp_exp y) y -> (Binary64.nearest y == y)%Q.
Proof. apply round_at_multiple. Qed.

Lemma nearest_format_lt (k e : Z) :
  (Binary64.emin <= e)%Z -> (Z.abs k < 2 ^ 53)%Z ->
  (Binary64.nearest (inject_Z k * 2 ^ e) == inject_Z k * 2 ^ e)%Q.
Proof.
  intros He Hk. apply nearest_multiple.
  destruct (Z.eq_dec k 0) as [->|Hk0].
  - exists 0%Z. reflexivity.
  - apply (@multiple_le _ e); [|now exists k].
    assert (Hm : (Binary64.mag (inject_Z k * 2 ^ e) <= 53 + e)%Z).
    { apply mag_le_of_lt.
      - intros H. apply Qmult_integral in H. destruct H as [H|H].
        + apply Hk0. unfold Qeq in H. simpl in H. lia.
        + exact (@pow2_neq_0 e H).
      - rewrite Qabs_Qmult, (Qabs_pos (2 ^ e)) by apply Qlt_le_weak, pow2_pos.
        rewrite pow2_plus. apply Qmult_lt_r; [apply pow2_pos|].
        rewrite pow2_Z by lia. change (Qabs (inject_Z k)) with (inject_Z (Z.abs k)).
        now rewrite <- Zlt_Qlt. }
    unfold Binary64.ulp_exp, Binary64.prec. lia.
Qed.

Lemma nearest_format (k e : Z) :
  (Binary64.emin <= e)%Z -> (Z.abs k <= 2 ^ 53)%Z ->
  (Binary64.nearest (inject_Z k * 2 ^ e) == inject_Z k * 2 ^ e)%Q.
Proof.
  intros He Hk. destruct (Z.eq_dec (Z.abs k) (2 ^ 53)) as [Heq|Hne].
  - assert (Hy : (inject_Z k * 2 ^ e == inject_Z (Z.sgn k) * 2 ^ (53 + e))%Q).
    { rewrite pow2_plus, Qmult_assoc. apply Qmult_comp; [|reflexivity].
      rewrite pow2_Z by lia. rewrite <- inject_Z_mult.
      rewrite <- Heq. rewrite Z.mul_comm, Z.abs_sgn. reflexivity. }
    rewrite Hy. apply nearest_format_lt; [lia|].
    assert (Z.abs (Z.sgn k) <= 1)%Z by lia. 
    assert (1 < 2 ^ 53)%Z by reflexivity. lia.
  - apply nearest_format_lt; [exact He|lia].
Qed.

Lemma nearest_inject_Z (z : Z) :
  (Z.abs z <= 2 ^ 53)%Z -> (Binary64.nearest (inject_Z z) == inject_Z z)%Q.
Proof.
  intros Hz.
  assert (H : (inject_Z z == inject_Z z * 2 ^ 0)%Q) by (simpl; ring).
  rewrite H. apply nearest_format; [discriminate|exact Hz].
Qed.

Lemma round_scaled_bound (x : Q) :
  (Z.abs (Np.round (x / 2 ^ Binary64.ulp_exp x)) <= 2 ^ 53)%Z.
Proof.
  set (e := Binary64.ulp_exp x).
  assert (He : (Binary64.mag x <= 53 + e)%Z)
    by (unfold e, Binary64.ulp_exp, Binary64.prec; lia).
  assert (Hb : (Qabs x <= inject_Z (2 ^ 53) * 2 ^ e)%Q).
  { rewrite <- pow2_Z, <- pow2_plus by lia.
    apply Qle_trans with (2 ^ Binary64.mag x)%Q; [|now apply pow2_le].
    apply Qlt_le_weak, mag_upper. }
  apply Qabs_Qle_condition in Hb. destruct Hb as [Hl Hu].
  assert (Hu' : (x / 2 ^ e <= inject_Z (2 ^ 53))%Q).
  { apply Qle_shift_div_r; [apply pow2_pos|exact Hu]. }
  assert (Hl' : (inject_Z (- 2 ^ 53) <= x / 2 ^ e)%Q).
  { apply Qle_shift_div_l; [apply pow2_pos|].
    rewrite inject_Z_opp.
    setoid_replace (- inject_Z (2 ^ 53) * 2 ^ e)%Q
      with (- (inject_Z (2 ^ 53) * 2 ^ e))%Q by ring.
    exact Hl. }
  apply round_mono in Hu', Hl'. rewrite round_inject_Z in Hu', Hl'. lia.
Qed.

Lemma nearest_idem (x : Q) :
  (Binary64.nearest (Binary64.nearest x) == Binary64.nearest x)%Q.
Proof.
  unfold Binary64.nearest at 2 3. unfold Binary64.round_at.
  apply nearest_format; [apply ulp_exp_emin|apply round_scaled_bound].
Qed.

Lemma nearest_0 : (Binary64.nearest 0 == 0)%Q.
Proof. apply (nearest_inject_Z 0). discriminate. Qed.

Lemma nearest_1 : (Binary64.nearest 1 == 1)%Q.
Proof. apply (nearest_inject_Z 1). discriminate. Qed.

(** ** Products with a count *)

Lemma inject_nat_nonneg (n : nat) : (0 <= inject_Z (Z.of_nat n))%Q.
Proof. change 0%Q with (inject_Z 0). rewrite <- Zle_Qle. lia. Qed.

Lemma of_nat_nonneg (n : nat) : (0 <= Binary64.of_nat n)%Q.
Proof. apply nearest_nonneg, inject_nat_nonneg. Qed.

Lemma of_nat_mono (n m : nat) :
  n <= m -> (Binary64.of_nat n <= Binary64.of_nat m)%Q.
Proof. intros H. apply nearest_mono. rewrite <- Zle_Qle. lia. Qed.

Lemma of_nat_exact (n : nat) :
  (Z.of_nat n <= 2 ^ 53)%Z -> (Binary64.of_nat n == inject_Z (Z.of_nat n))%Q.
Proof. intros H. apply nearest_inject_Z. lia. Qed.

Lemma of_nat_0 : (Binary64.of_nat 0 == 0)%Q.
Proof. apply nearest_0. Qed.

Lemma mul_int_mono (x y : Q) (n : nat) :
  (x <= y)%Q -> (Binary64.mul_int x n <= Binary64.mul_int y n)%Q.
Proof.
  intros H. apply nearest_mono.
  apply Qmult_le_compat_r; [now apply nearest_mono|apply of_nat_nonneg].
Qed.

Lemma mul_int_nonneg (x : Q) (n : nat) :
  (0 <= x)%Q -> (0 <= Binary64.mul_int x n)%Q.
Proof.
  intros H. apply nearest_nonneg.
  apply Qmult_le_0_compat; [now apply nearest_nonneg|apply of_nat_nonneg].
Qed.

Lemma mul_int_1 (x : Q) (n : nat) :
  (x == 1)%Q -> (Binary64.mul_int x n == Binary64.of_nat n)%Q.
Proof.
  intros H. unfold Binary64.mul_int, Binary64.mul.
  rewrite H, nearest_1, Qmult_1_l. apply nearest_idem.
Qed.

Lemma mul_int_ge (x : Q) (n : nat) :
  (1 <= x)%Q -> (Binary64.of_nat n <= Binary64.mul_int x n)%Q.
Proof.
  intros H. rewrite <- (@mul_int_1 1 n) by reflexivity. now apply mul_int_mono.
Qed.

Lemma mul_int_le (x : Q) (n : nat) :
  (x <= 1)%Q -> (Binary64.mul_int x n <= Binary64.of_nat n)%Q.
Proof.
  intros H. rewrite <- (@mul_int_1 1 n) by reflexivity. now apply mul_int_mono.
Qed.

(** ** [nearest] returns a nearest binary64 number *)

Lemma representable_scaled (k e : Z) :
  (Z.abs k <= 2 ^ 53)%Z -> (Binary64.emin <= e)%Z ->
  representable (inject_Z k * 2 ^ e).
Proof.
  intros Hk He. destruct (Z.eq_dec (Z.abs k) (2 ^ 53)) as [Heq|Hne].
  - exists (Z.sgn k), (53 + e)%Z. split; [|split; [lia|]].
    + assert (Z.abs (Z.sgn k) <= 1)%Z by lia.
      assert (1 < 2 ^ 53)%Z by reflexivity. lia.
    + rewrite pow2_plus, Qmult_assoc. apply Qmult_comp; [|reflexivity].
      rewrite pow2_Z by lia. rewrite <- inject_Z_mult.
      rewrite <- Heq. rewrite Z.mul_comm, Z.abs_sgn. reflexivity.
  - exists k, e. split; [lia|]. split; [exact He|reflexivity].
Qed.

Lemma nearest_representable (q : Q) : representable (Binary64.nearest q).
Proof.
  unfold Binary64.nearest, Binary64.round_at.
  apply representable_scaled; [apply round_scaled_bound|apply ulp_exp_emin].
Qed.

(** No integer is nearer to [x] than [Np.round x]. *)
Lemma round_is_nearest (x : Q) (k : Z) :
  (Qabs (inject_Z (Np.round x) - x) <= Qabs (inject_Z k - x))%Q.
Proof.
  pose proof (round_nearest_even x) as (H1 & H2 & _).
  revert H1 H2. generalize (Np.round x). intros R.
  destruct x as [n d].
  unfold Qle, Qabs, Qminus, Qplus, Qopp, inject_Z. cbn [Qnum Qden].
  rewrite ?Pos2Z.inj_mul. intros H1 H2.
  assert (Hd : (0 < Z.pos d)%Z) by lia.
  apply Z.mul_le_mono_nonneg_r; [lia|].
  destruct (Z.eq_dec k R) as [->|Hne]; [lia|].
  assert (Hk : (k <= R - 1 \/ R + 1 <= k)%Z) by lia.
  destruct Hk as [Hk|Hk]; nia.
Qed.

Lemma Qabs_mul_pos (a c : Q) : (0 <= c)%Q -> (Qabs a * c == Qabs (a * c))%Q.
Proof. intros H. now rewrite Qabs_Qmult, (Qabs_pos c). Qed.

Lemma scale_sub (a q p : Q) :
  ~ (p == 0)%Q -> ((a - q / p) * p == a * p - q)%Q.
Proof. intros H. field. exact H. Qed.

Lemma round_at_is_nearest (e : Z) (q z : Q) :
  multiple e z ->
  (Qabs (Binary64.round_at e q - q) <= Qabs (z - q))%Q.
Proof.
  intros [k Hk]. unfold Binary64.round_at. rewrite Hk.
  pose proof (round_is_nearest (q / 2 ^ e) k) as H.
  apply Qmult_le_compat_r with (z := (2 ^ e)%Q) in H;
    [|apply Qlt_le_weak, pow2_pos].
  rewrite !Qabs_mul_pos in H by apply Qlt_le_weak, pow2_pos.
  now rewrite !scale_sub in H by apply pow2_neq_0.
Qed.

(** No binary64 number is nearer to [q] than [nearest q]. *)
Lemma nearest_is_nearest (q y : Q) :
  representable y ->
  (Qabs (Binary64.nearest q - q) <= Qabs (y - q))%Q.
Proof.
  intros (m & e' & Hm & He' & Hy).
  set (e := Binary64.ulp_exp q).
  destruct (Z.le_gt_cases e e') as [Hle|Hgt].
  { apply round_at_is_nearest. apply (@multiple_le e e'); [exact Hle|].
    now exists m. }
  destruct (Qeq_dec q 0) as [Hq0|Hq0].
  { assert (H0 : (Binary64.nearest q == 0)%Q) by (rewrite Hq0; apply nearest_0).
    rewrite H0, Hq0. apply Qabs_nonneg. }
  assert (Hmag : (e = Binary64.mag q - 53)%Z).
  { unfold e, Binary64.ulp_exp, Binary64.prec in *. lia. }
  destruct (mag_spec Hq0) as [Hlow _].
  set (B := (2 ^ (Binary64.mag q - 1))%Q) in *.
  assert (HyB : (Qabs y <= B)%Q).
  { rewrite Hy, Qabs_Qmult, (Qabs_pos (2 ^ e')) by apply Qlt_le_weak, pow2_pos.
    unfold B. replace (Binary64.mag q - 1)%Z with (52 + e)%Z by lia.
    apply Qle_trans with (inject_Z (2 ^ 53) * 2 ^ e')%Q.
    - apply Qmult_le_compat_r; [|apply Qlt_le_weak, pow2_pos].
      change (Qabs (inject_Z m)) with (inject_Z (Z.abs m)).
      rewrite <- Zle_Qle. lia.
    - rewrite <- pow2_Z, <- pow2_plus by lia. apply pow2_le. lia. }
  assert (HB : multiple e B) by (apply multiple_pow2; lia).
  destruct (Qlt_le_dec q 0) as [Hneg|Hpos].
  - apply Qle_trans with (Qabs (- B - q)).
    + apply round_at_is_nearest. now apply multiple_opp.
    + rewrite (Qabs_neg q) in Hlow by now apply Qlt_le_weak.
      apply Qabs_Qle_condition in HyB. destruct HyB as [Hy1 Hy2].
      rewrite (Qabs_pos (- B - q)).
      * apply Qle_trans with (y - q)%Q; [|apply Qle_Qabs].
        apply Qplus_le_l. exact Hy1.
      * apply Qplus_le_l with (z := q). ring_simplify.
        apply Qopp_le_compat in Hlow. now rewrite Qopp_involutive in Hlow.
  - apply Qle_trans with (Qabs (B - q)).
    + now apply round_at_is_nearest.
    + rewrite (Qabs_pos q) in Hlow by exact Hpos.
      apply Qabs_Qle_condition in HyB. destruct HyB as [Hy1 Hy2].
      rewrite (Qabs_neg (B - q)).
      * rewrite <- (Qabs_opp (y - q)).
        apply Qle_trans with (- (y - q))%Q; [|apply Qle_Qabs].
        apply Qopp_le_compat. apply Qplus_le_l. exact Hy2.
      * apply Qplus_le_l with (z := q). ring_simplify. exact Hlow.
Qed.

(** ** The rounded products at some inputs *)

(** On the fractions [a/b] with [-12 <= a <= 12] and [1 <= b <= 12], and on
    their products with the counts up to 40, [Binary64] gives the values
    that the operations on [spec_float] give. *)
Example binary64_agrees_with_spec_float :
  forallb (fun a =>
     forallb (fun b =>
        same_fraction a b && forallb (same_product a b) (seq 0 41))
       (map Pos.of_nat (seq 1 12)))
    (map (fun k => (Z.of_nat k - 12)%Z) (seq 0 25))
  = true.
Proof. vm_compute. reflexivity. Qed.

(** The float 0.7 times 45 is just below 31.5, and 31 channels are sampled;
    the float 0.58 times 50 is just below 29, and a tally of 29 exceeds it;
    the float 0.6 times 5 is 3.0, and a tally of 3 does not exceed it. *)
Example products_that_round :
  n_samples_of (7 # 10) 45 = 31%Z /\
  exceeds (58 # 100) 50 29 = true /\
  exceeds (6 # 10) 5 3 = false.
Proof. repeat split; vm_compute; reflexivity. Qed.

(** ** The sampler *)

Lemma round_bounds (f : Q) (C : nat) :
  (0 < f)%Q -> (f <= 1)%Q -> (Z.of_nat C <= 2 ^ 53)%Z ->
  (0 <= n_samples_of f C <= Z.of_nat C)%Z.
Proof.
  intros Hpos Hle HC. unfold n_samples_of. split.
  - assert (H : (inject_Z 0 <= Binary64.mul_int f C)%Q)
      by apply mul_int_nonneg, Qlt_le_weak, Hpos.
    apply round_mono in H. now rewrite round_inject_Z in H.
  - assert (H : (Binary64.mul_int f C <= inject_Z (Z.of_nat C))%Q)
      by (rewrite <- of_nat_exact by exact HC; apply mul_int_le, Hle).
    apply round_mono in H. now rewrite round_inject_Z in H.
Qed.

Lemma slice_to_firstn {A : Type} (l : list A) (n : Z) :
  (0 <= n)%Z -> Np.slice_to l n = firstn (Z.to_nat n) l.
Proof.
  intros Hn. unfold Np.slice_to.
  destruct (Z.leb_spec 0 n); [reflexivity|lia].
Qed.

Lemma in_firstn {A : Type} (n : nat) (l : list A) (x : A) :
  In x (firstn n l) -> In x l.
Proof.
  intros H. rewrite <- (firstn_skipn n l). apply in_or_app. now left.
Qed.

Lemma slice_to_incl {A : Type} (l : list A) (n : Z) (x : A) :
  In x (Np.slice_to l n) -> In x l.
Proof.
  unfold Np.slice_to. destruct (0 <=? n)%Z; apply in_firstn.
Qed.

Lemma NoDup_firstn {A : Type} (n : nat) (l : list A) :
  NoDup l -> NoDup (firstn n l).
Proof.
  intros H. rewrite <- (firstn_skipn n l) in H.
  now apply NoDup_app_remove_r in H.
Qed.

Lemma draw_picks_length `{E : Externals} (rng : RandomState) (C : nat) (n_samples : Z) (n : nat) :
  length (draw_picks rng C n_samples n) = n.
Proof.
  revert rng. induction n as [|n IH]; intros rng; simpl; [reflexivity|].
  destruct (permutation rng C). simpl. now rewrite IH.
Qed.

Lemma draw_picks_in_range `{E : Externals} (rng : RandomState) (C : nat) (n_samples : Z) (n : nat) :
  permutation_ok ->
  Forall (Forall (fun p => p < C)) (draw_picks rng C n_samples n).
Proof.
  intros Hperm. revert rng. induction n as [|n IH]; intros rng; simpl; [constructor|].
  pose proof (Hperm rng C) as Hp. destruct (permutation rng C) as [perm rng'].
  simpl in Hp. constructor; [|apply IH].
  apply Forall_forall. intros p Hin. apply slice_to_incl in Hin.
  apply (Permutation_in _ Hp) in Hin. apply in_seq in Hin. lia.
Qed.

Lemma draw_picks_ok `{E : Externals} (rng : RandomState) (C : nat) (n_samples : Z) (n : nat) :
  permutation_ok ->
  (0 <= n_samples <= Z.of_nat C)%Z ->
  Forall (pick_ok C n_samples) (draw_picks rng C n_samples n).
Proof.
  intros Hperm Hn. revert rng. induction n as [|n IH]; intros rng; simpl; [constructor|].
  pose proof (Hperm rng C) as Hp. destruct (permutation rng C) as [perm rng'].
  simpl in Hp. constructor; [|apply IH].
  rewrite slice_to_firstn by lia.
  assert (Hlen : length perm = C)
    by (rewrite (Permutation_length Hp); apply length_seq).
  assert (Hfl : length (firstn (Z.to_nat n_samples) perm) = Z.to_nat n_samples)
    by (rewrite length_firstn; lia).
  unfold pick_ok. rewrite Hfl. repeat split.
  - lia.
  - apply NoDup_firstn. apply (Permutation_NoDup (Permutation_sym Hp)), seq_NoDup.
  - apply Forall_forall. intros p Hin. apply in_firstn in Hin.
    apply (Permutation_in _ Hp) in Hin. apply in_seq in Hin. lia.
  - exists perm. split; [exact Hp|reflexivity].
Qed.

Lemma map_result_getitem {A : Type} (l : list A) (d : A) (pick : list nat) :
  Forall (fun p => p < length l) pick ->
  map_result (list_getitem l) pick = Ok (map (fun p => nth p l d) pick).
Proof.
  induction 1 as [|p pick Hp _ IH]; simpl; [reflexivity|].
  unfold list_getitem at 1.
  destruct (nth_error l p) as [a|] eqn:E.
  - simpl. rewrite IH. simpl. now rewrite (nth_error_nth _ _ d E).
  - apply nth_error_None in E. lia.
Qed.

Lemma map_result_ok_map {A B : Type} (f : A -> result B) (g : A -> B) (xs : list A) :
  Forall (fun x => f x = Ok (g x)) xs -> map_result f xs = Ok (map g xs).
Proof.
  induction 1 as [|x xs Hx _ IH]; simpl; [reflexivity|].
  now rewrite Hx, IH.
Qed.

Lemma get_random_subsets_ok `{E : Externals} (self : Ransac) (i : Info) :
  permutation_ok ->
  _get_random_subsets self i
  = Ok (map (map (fun p => nth p (ch_names i) ""%string)) (picks_of self i)).
Proof.
  intros Hperm. unfold _get_random_subsets. apply map_result_ok_map.
  unfold picks_of.
  eapply Forall_impl; [|apply draw_picks_in_range; exact Hperm].
  intros pick Hpick. now apply map_result_getitem.
Qed.

(** C4.  For a fraction [min_channels] in (0, 1] the sampler returns
    [n_resample] subsets.  With [n] the integer nearest to the product
    [min_channels * C] as the program computes it in binary64 (the even
    integer at a tie), [n] lies between 0 and [C], and each subset is the
    list of names of a pick that holds exactly [n] pairwise distinct indices
    below [C] and is a prefix of a permutation of [0 .. C-1].  [C] is at
    most 2^53, so that its conversion to a float is exact. *)
Theorem C4_random_subsets `{E : Externals} (self : Ransac) (i : Info) :
  permutation_ok ->
  (0 < min_channels self)%Q -> (min_channels self <= 1)%Q ->
  (Z.of_nat (length (ch_names i)) <= 2 ^ 53)%Z ->
  exists (subsets : list (list string)) (n : Z),
    _get_random_subsets self i = Ok subsets /\
    length subsets = n_resample self /\
    nearest_even (Binary64.mul_int (min_channels self) (length (ch_names i))) n /\
    (0 <= n <= Z.of_nat (length (ch_names i)))%Z /\
    subsets = map (map (fun p => nth p (ch_names i) ""%string)) (picks_of self i) /\
    Forall (fun pick =>
              Z.of_nat (length pick) = n /\
              NoDup pick /\
              Forall (fun p => p < length (ch_names i)) pick /\
              exists perm,
                Permutation perm (seq 0 (length (ch_names i))) /\
                pick = firstn (length pick) perm)
           (picks_of self i) /\
    Forall (fun subset => Z.of_nat (length subset) = n) subsets.
Proof.
  intros Hperm Hpos Hle HC.
  assert (Hb : (0 <= n_samples_of (min_channels self) (length (ch_names i))
                <= Z.of_nat (length (ch_names i)))%Z)
    by (apply round_bounds; assumption).
  assert (Hok : Forall (pick_ok (length (ch_names i))
                          (n_samples_of (min_channels self) (length (ch_names i))))
                       (picks_of self i))
    by (apply draw_picks_ok; assumption).
  eexists. exists (n_samples_of (min_channels self) (length (ch_names i))).
  split; [apply get_random_subsets_ok; exact Hperm|].
  split; [rewrite length_map; apply draw_picks_length|].
  split; [apply round_nearest_even|]. split; [exact Hb|].
  split; [reflexivity|]. split; [exact Hok|].
  apply Forall_map. eapply Forall_impl; [|exact Hok].
  intros pick [Hlen _]. now rewrite length_map.
Qed.

Lemma demo_permutation_ok : @permutation_ok Demo.externals.
Proof.
  intros rng n. simpl. unfold Demo.rotate.
  rewrite Permutation_app_comm. now rewrite firstn_skipn.
Qed.

Lemma C4_witness :
  exists (subsets : list (list string)) (n : Z),
    _get_random_subsets (E := Demo.externals) (Demo.ransac 1) Demo.eeg3 = Ok subsets /\
    length subsets = 2 /\
    nearest_even (Binary64.mul_int (2 # 3) 3) n /\
    (0 <= n <= 3)%Z /\
    subsets = map (map (fun p => nth p (ch_names Demo.eeg3) ""%string))
                  (picks_of (E := Demo.externals) (Demo.ransac 1) Demo.eeg3) /\
    Forall (fun pick =>
              Z.of_nat (length pick) = n /\
              NoDup pick /\
              Forall (fun p => p < 3) pick /\
              exists perm,
                Permutation perm (seq 0 3) /\ pick = firstn (length pick) perm)
           (picks_of (E := Demo.externals) (Demo.ransac 1) Demo.eeg3) /\
    Forall (fun subset => Z.of_nat (length subset) = n) subsets.
Proof.
  apply (@C4_random_subsets Demo.externals (Demo.ransac 1) Demo.eeg3
           demo_permutation_ok);
    [reflexivity | unfold Qle; simpl; lia | vm_compute; discriminate].
Defined.

(** ** Names and indices *)





(** ** The operator builder *)

Lemma length_set_nth (c : nat) (v : float64) (row : vector) :
  length (set_nth c v row) = length row.
Proof.
  revert c. induction row as [|x row IH]; intros [|c]; simpl; auto.
Qed.

Lemma nth_set_nth_other (c j : nat) (v : float64) (row : vector) :
  j <> c -> nth j (set_nth c v row) zero = nth j row zero.
Proof.
  revert c j. induction row as [|x row IH]; intros [|c] [|j] H; simpl;
    try reflexivity; try lia.
  apply IH. lia.
Qed.

Lemma length_assign_row (row : vector) (cols : list nat) (values : vector) :
  length (assign_row row cols values) = length row.
Proof.
  unfold assign_row. revert row.
  induction (combine cols values) as [|cv l IH]; intros row; simpl; [reflexivity|].
  now rewrite IH, length_set_nth.
Qed.

Lemma nth_assign_row_other (row : vector) (cols : list nat) (values : vector) (j : nat) :
  ~ In j cols ->
  nth j (assign_row row cols values) zero = nth j row zero.
Proof.
  unfold assign_row. revert row values.
  induction cols as [|c cols IH]; intros row values Hj; simpl; [reflexivity|].
  destruct values as [|v values]; simpl; [reflexivity|].
  rewrite IH by (intros Hin; apply Hj; now right).
  apply nth_set_nth_other. intros ->. apply Hj. now left.
Qed.

Lemma nth_zeros (n j : nat) : nth j (Np.zeros n) zero = zero.
Proof.
  unfold Np.zeros. destruct (Nat.lt_ge_cases j n).
  - now apply nth_repeat_lt.
  - apply nth_overflow. now rewrite repeat_length.
Qed.

Lemma has_shape_zeros2 (n m : nat) : Np.has_shape n m (Np.zeros2 n m) = true.
Proof.
  apply has_shape_spec. unfold Np.zeros2, Np.zeros.
  split; [apply repeat_length|].
  apply Forall_forall. intros row Hrow. apply repeat_spec in Hrow. subst.
  apply repeat_length.
Qed.

Lemma get2_zeros2 (n m i j : nat) : Np.get2 (Np.zeros2 n m) i j = zero.
Proof.
  unfold Np.get2, Np.get, Np.zeros2.
  destruct (Nat.lt_ge_cases i n).
  - rewrite nth_repeat_lt by assumption. apply nth_zeros.
  - rewrite (nth_overflow (repeat (Np.zeros m) n)) by (rewrite repeat_length; lia).
    now destruct j.
Qed.

Lemma set_columns_zeros (C : nat) (cols : list nat) (k m : matrix) :
  set_columns C C (Np.zeros2 C C) cols k = Ok m -> block_ok C cols m.
Proof.
  unfold set_columns.
  destruct (forallb (fun c => c <? C) cols); simpl; [|discriminate].
  destruct (Np.has_shape C (length cols) k) eqn:Hk; simpl; [|discriminate].
  intros [= <-]. apply has_shape_spec in Hk. destruct Hk as [Hk _].
  pose proof (has_shape_zeros2 C C) as Hz. apply has_shape_spec in Hz.
  destruct Hz as [Hz Hzrows]. split.
  - apply has_shape_spec. split.
    + rewrite length_zip_with. lia.
    + apply Forall_forall. intros row Hin.
      apply In_nth with (d := []) in Hin. destruct Hin as [i [Hi <-]].
      rewrite length_zip_with in Hi.
      rewrite nth_zip_with with (da := ([] : vector)) (db := ([] : vector)) by lia.
      rewrite length_assign_row. rewrite Forall_forall in Hzrows.
      apply Hzrows, nth_In. lia.
  - intros i j Hj. unfold Np.get2, Np.get.
    destruct (Nat.lt_ge_cases i C) as [Hi|Hi].
    + rewrite nth_zip_with with (da := ([] : vector)) (db := ([] : vector)) by lia.
      rewrite nth_assign_row_other by exact Hj.
      apply (get2_zeros2 C C i j).
    + rewrite (nth_overflow (Np.zip_with _ _ _)) by (rewrite length_zip_with; lia).
      now destruct j.
Qed.

Lemma block_ok_zeros2 (C : nat) (cols : list nat) : block_ok C cols (Np.zeros2 C C).
Proof. split; [apply has_shape_zeros2|]. intros. apply get2_zeros2. Qed.

Lemma as_index_ok (picks cols : list nat) :
  as_index picks = Ok cols -> cols = picks /\ picks <> [].
Proof.
  destruct picks as [|p picks]; simpl; intros H; [discriminate|].
  injection H as <-. split; [reflexivity|discriminate].
Qed.


Lemma mapping_of_ok `{E : Externals} (self : Ransac) (inst : Epochs)
  (pos : matrix) (subset : list string) (m : matrix) :
  mapping_of self inst pos subset = Ok m ->
  exists pick_from,
    pick_from_of (ch_names (info inst)) subset = Ok pick_from /\
    block_ok (n_channels_of inst) pick_from m.
Proof.
  unfold mapping_of, n_channels_of.
  destruct (pick_from_of (ch_names (info inst)) subset) as [pick_from|e];
    simpl; [|discriminate].
  intros Hm. exists pick_from. split; [reflexivity|].
  destruct (ch_type self) as [t|]; simpl in Hm; [|discriminate].
  destruct t as [t|].
  - destruct (String.eqb t "meg").
    + destruct (as_index pick_from) as [cols|] eqn:Hcols; simpl in Hm;
        [|discriminate].
      apply as_index_ok in Hcols. destruct Hcols as [-> _].
      now apply set_columns_zeros in Hm.
    + destruct (String.eqb t "eeg").
      * destruct (as_index pick_from) as [cols|] eqn:Hcols; simpl in Hm;
          [|discriminate].
        apply as_index_ok in Hcols. destruct Hcols as [-> _].
        destruct (take_rows pos pick_from); simpl in Hm; [|discriminate].
        destruct (take_rows pos (seq 0 (length (ch_names (info inst)))));
          simpl in Hm; [|discriminate].
        now apply set_columns_zeros in Hm.
      * injection Hm as <-. apply block_ok_zeros2.
  - injection Hm as <-. apply block_ok_zeros2.
Qed.

Lemma map_result_Forall2 {A B : Type} (f : A -> result B) (xs : list A) (ys : list B) :
  map_result f xs = Ok ys -> Forall2 (fun x y => f x = Ok y) xs ys.
Proof.
  revert ys. induction xs as [|x xs IH]; simpl; intros ys H.
  - injection H as <-. constructor.
  - destruct (f x) as [y|] eqn:Hy; simpl in H; [|discriminate].
    destruct (map_result f xs) as [ys'|]; simpl in H; [|discriminate].
    injection H as <-. constructor; auto.
Qed.

Lemma Forall2_nth {A B : Type} (P : A -> B -> Prop) (xs : list A) (ys : list B)
  (i : nat) (da : A) (db : B) :
  Forall2 P xs ys -> i < length xs -> P (nth i xs da) (nth i ys db).
Proof.
  intros H. revert i. induction H as [|x y xs ys Hxy _ IH]; intros [|i] Hi; simpl in *;
    try lia; auto. apply IH. lia.
Qed.

Lemma index_sound (names : list string) (name : string) (p : nat) :
  index names name = Ok p -> p < length names /\ nth p names ""%string = name.
Proof.
  revert p. induction names as [|x names IH]; simpl; intros p H; [discriminate|].
  destruct (String.eqb_spec x name) as [->|_].
  - injection H as <-. split; [lia|reflexivity].
  - destruct (index names name) as [q|]; simpl in H; [|discriminate].
    injection H as <-. destruct (IH q eq_refl). split; [lia|assumption].
Qed.

Lemma pick_from_of_sound (names subset : list string) (pick_from : list nat) (j : nat) :
  pick_from_of names subset = Ok pick_from -> In j pick_from ->
  j < length names /\ In (nth j names ""%string) subset.
Proof.
  unfold pick_from_of. intros H Hin. apply map_result_Forall2 in H.
  induction H as [|name p subset pick_from Hp _ IH]; [contradiction|].
  destruct Hin as [<-|Hin].
  - apply index_sound in Hp. destruct Hp as [Hlt Hnth]. split; [exact Hlt|].
    left. now symmetry.
  - destruct (IH Hin). split; [assumption|now right].
Qed.

(** C5.  The matrix [_get_mappings] returns for [n_resample] subsets over
    [C] sensors has shape ([n_resample * C], [C]); inside block [r] (rows
    [r*C .. r*C+C-1]) every column whose index is not among the indices of
    subset [r] is zero, and so is every column whose channel is not named
    in subset [r]. *)
Theorem C5_stacked_operator_shape_and_zeros `{E : Externals}
  (self : Ransac) (inst : Epochs) (subsets : list (list string)) (M : matrix) :
  ch_subsets_ self = Some subsets ->
  length subsets = n_resample self ->
  _get_mappings self inst = Ok M ->
  Np.has_shape (n_resample self * n_channels_of inst) (n_channels_of inst) M = true /\
  forall r, r < n_resample self ->
    exists pick_from,
      pick_from_of (ch_names (info inst)) (nth r subsets []) = Ok pick_from /\
      (forall i j, i < n_channels_of inst -> ~ In j pick_from ->
         Np.get2 M (r * n_channels_of inst + i) j = zero) /\
      (forall i j, i < n_channels_of inst ->
         ~ In (nth j (ch_names (info inst)) ""%string) (nth r subsets []) ->
         Np.get2 M (r * n_channels_of inst + i) j = zero).
Proof.
  intros Hsub HR HM. unfold _get_mappings in HM. rewrite Hsub in HM.
  cbn [bind getattr] in HM.
  set (pos := map (fun ch => firstn 3 (loc ch)) (chs (info inst))) in HM.
  destruct (map_result (mapping_of self inst pos) subsets) as [ms|] eqn:Hms;
    cbn [bind] in HM; [|discriminate].
  apply map_result_Forall2 in Hms.
  set (C := n_channels_of inst) in *.
  assert (Hlen : length ms = n_resample self)
    by (rewrite <- HR; symmetry; apply (Forall2_length Hms)).
  assert (Hblocks : Forall (fun m => Np.has_shape C C m = true) ms).
  { apply Forall_forall. intros m Hin.
    apply In_nth with (d := []) in Hin. destruct Hin as [r [Hr <-]].
    assert (Hr' : r < length subsets) by lia.
    pose proof (@Forall2_nth _ _ _ subsets ms r [] [] Hms Hr') as Hm.
    cbv beta in Hm.
    apply mapping_of_ok in Hm. destruct Hm as [pf [_ [Hs _]]]. exact Hs. }
  assert (HMeq : M = concat ms).
  { unfold Np.concatenate in HM. destruct ms; [discriminate|]. now injection HM. }
  assert (Hrowlen : Forall (fun m : matrix => length m = C) ms).
  { eapply Forall_impl; [|exact Hblocks]. intros m Hm.
    apply has_shape_spec in Hm. tauto. }
  split.
  - apply has_shape_spec. subst M. split.
    + rewrite length_concat. rewrite <- Hlen. clear - Hrowlen.
      induction Hrowlen as [|m ms Hm _ IH]; simpl; [reflexivity|].
      rewrite Hm. f_equal. exact IH.
    + apply Forall_concat. eapply Forall_impl; [|exact Hblocks].
      intros m Hm. apply has_shape_spec in Hm. tauto.
  - intros r Hr.
    assert (Hr' : r < length subsets) by lia.
    pose proof (@Forall2_nth _ _ _ subsets ms r [] [] Hms Hr') as Hm.
    cbv beta in Hm.
    apply mapping_of_ok in Hm. destruct Hm as [pf [Hpf [_ Hzero]]].
    exists pf. split; [exact Hpf|].
    assert (Hget : forall i j, i < C ->
              Np.get2 M (r * C + i) j = Np.get2 (nth r ms []) i j).
    { intros i j Hi. unfold Np.get2. subst M.
      replace (r * C + i) with (i + C * r) by lia.
      now rewrite nth_concat_uniform with (T := C). }
    split.
    + intros i j Hi Hj. rewrite Hget by exact Hi. now apply Hzero.
    + intros i j Hi Hj. rewrite Hget by exact Hi. apply Hzero.
      intros Hin. apply Hj.
      eapply pick_from_of_sound; eassumption.
Qed.

Lemma C5_witness :
  Np.has_shape (2 * 3) 3 Demo.mappings = true /\
  forall r, r < 2 ->
    exists pick_from,
      pick_from_of ["a"; "b"; "c"]%string
                   (nth r [["a"; "b"]; ["b"; "c"]]%string []) = Ok pick_from /\
      (forall i j, i < 3 -> ~ In j pick_from ->
         Np.get2 Demo.mappings (r * 3 + i) j = zero) /\
      (forall i j, i < 3 ->
         ~ In (nth j ["a"; "b"; "c"]%string ""%string)
              (nth r [["a"; "b"]; ["b"; "c"]]%string []) ->
         Np.get2 Demo.mappings (r * 3 + i) j = zero).
Proof.
  apply (@C5_stacked_operator_shape_and_zeros Demo.externals Demo.sampled
           Demo.epochs [["a"; "b"]; ["b"; "c"]]%string Demo.mappings);
    reflexivity.
Defined.

(** ** The scoring loop *)

Lemma length_vdiv_sum_axis0 (C : nat) (a b c : matrix) :
  length (Np.vdiv (Np.sum_axis0 C a)
            (Np.vmul (Np.vsqrt (Np.sum_axis0 C b)) (Np.vsqrt (Np.sum_axis0 C c))))
  = C.
Proof.
  unfold Np.vdiv, Np.vmul, Np.vsqrt, Np.sum_axis0.
  rewrite !length_zip_with, !length_map, !length_tabulate. lia.
Qed.

Lemma compute_correlations_length (self : Ransac) (inst : Epochs) (corr : vector) :
  _compute_correlations self inst = Ok corr -> length corr = n_channels_of inst.
Proof.
  unfold _compute_correlations.
  destruct (getattr "mappings_" (mappings_ self)); cbn [bind]; [|discriminate].
  destruct (y_pred_of (n_resample self) a inst); cbn [bind]; [|discriminate].
  destruct (list_getitem (get_data inst) 0); cbn [bind]; [|discriminate].
  intros [= <-]. apply length_vdiv_sum_axis0.
Qed.

Lemma score_epoch_length (ransac : Ransac) (epochs : Epochs) (i : nat) (corr : vector) :
  score_epoch ransac epochs i = Ok corr -> length corr = n_channels_of epochs.
Proof.
  unfold score_epoch, getitem.
  destruct (nth_error (get_data epochs) i); cbn [bind]; [|discriminate].
  intros H. apply compute_correlations_length in H. exact H.
Qed.

Lemma for_each_iterate (ransac : Ransac) (epochs : Epochs)
  (rest : list nat) (k : nat) (done zs : matrix) :
  length done = k -> length zs = length rest ->
  for_each (combine (seq k (length rest)) rest)
    (fun corrs (p : nat * nat) =>
       inst <- getitem epochs (fst p) ;;
       corr <- _compute_correlations ransac inst ;;
       set_row (n_channels_of epochs) corrs (fst p) corr)
    (done ++ zs)
  = (rows <- sequential_scores ransac epochs (seq k (length rest)) ;;
     Ok (done ++ rows)).
Proof.
  revert k done zs. induction rest as [|a rest IH]; intros k done zs Hk Hzs.
  - destruct zs; [|discriminate]. reflexivity.
  - destruct zs as [|z zs]; [discriminate|]. simpl in Hzs.
    cbn [length seq combine for_each sequential_scores map_result fst].
    fold (sequential_scores ransac epochs (seq (S k) (length rest))).
    unfold score_epoch at 1.
    destruct (getitem epochs k) as [inst|e] eqn:Hinst; cbn [bind]; [|reflexivity].
    destruct (_compute_correlations ransac inst) as [corr|e] eqn:Hcorr;
      cbn [bind]; [|reflexivity].
    assert (Hlen : length corr = n_channels_of epochs).
    { apply (score_epoch_length ransac epochs k). unfold score_epoch.
      rewrite Hinst. exact Hcorr. }
    unfold set_row. rewrite length_app. cbn [length].
    replace (k <? length done + S (length zs)) with true
      by (symmetry; apply Nat.ltb_lt; lia).
    rewrite Hlen, Nat.eqb_refl. cbn [negb bind].
    replace (firstn k (done ++ z :: zs)) with done
      by (rewrite firstn_app, <- Hk, firstn_all, Nat.sub_diag; simpl;
          now rewrite app_nil_r).
    replace (skipn (S k) (done ++ z :: zs)) with zs.
    2:{ rewrite skipn_app, <- Hk. rewrite skipn_all2 by lia.
        replace (S (length done) - length done) with 1 by lia. reflexivity. }
    replace (done ++ corr :: zs) with ((done ++ [corr]) ++ zs)
      by (now rewrite <- app_assoc).
    rewrite IH by (rewrite ?length_app; simpl; lia).
    destruct (sequential_scores ransac epochs (seq (S k) (length rest)));
      cbn [bind]; [|reflexivity].
    now rewrite <- app_assoc.
Qed.

(** Whatever the entries of [idxs], [_iterate_epochs] scores the segments
    at positions [0 .. len(idxs)-1]. *)
Lemma iterate_epochs_scores_leading (ransac : Ransac) (epochs : Epochs)
  (idxs : list nat) :
  _iterate_epochs ransac epochs idxs
  = sequential_scores ransac epochs (seq 0 (length idxs)).
Proof.
  unfold _iterate_epochs, enumerate.
  assert (Hz : length (Np.zeros2 (length idxs) (n_channels_of epochs))
               = length idxs) by (unfold Np.zeros2; apply repeat_length).
  pose proof (@for_each_iterate ransac epochs idxs 0 [] _ eq_refl Hz) as H.
  cbn [app] in H. rewrite H.
  destruct (sequential_scores ransac epochs (seq 0 (length idxs))); reflexivity.
Qed.

(** ** The classifier *)

Lemma where_filter_from (mask : list bool) (s : nat) :
  map fst (filter snd (combine (seq s (length mask)) mask))
  = filter (fun j => nth (j - s) mask false) (seq s (length mask)).
Proof.
  revert s. induction mask as [|b mask IH]; intros s; [reflexivity|].
  assert (Hrest : filter (fun j => nth (j - s) (b :: mask) false)
                         (seq (S s) (length mask))
                  = filter (fun j => nth (j - S s) mask false)
                           (seq (S s) (length mask))).
  { apply filter_ext_in. intros j Hj. apply in_seq in Hj.
    replace (j - s) with (S (j - S s)) by lia. reflexivity. }
  simpl. rewrite Nat.sub_diag. simpl in Hrest.
  destruct b; simpl; rewrite IH, Hrest; reflexivity.
Qed.

Lemma where_filter (mask : list bool) :
  Np.where_ mask = filter (fun j => nth j mask false) (seq 0 (length mask)).
Proof.
  unfold Np.where_. rewrite where_filter_from.
  apply filter_ext. intros j. now rewrite Nat.sub_0_r.
Qed.

Lemma bad_idx_of_filter (u : Q) (N C : nat) (f : nat -> nat) :
  bad_idx_of u N (Np.tabulate C f)
  = filter (fun j => exceeds u N (f j)) (seq 0 C).
Proof.
  unfold bad_idx_of. rewrite where_filter, length_map, length_tabulate.
  apply filter_ext_in. intros j Hj. apply in_seq in Hj.
  rewrite nth_map_in with (d := 0) by (rewrite length_tabulate; lia).
  rewrite nth_tabulate by lia. reflexivity.
Qed.

Lemma bad_idx_of_tally (m : float64) (u : Q) (N C : nat) (corr : matrix) :
  bad_idx_of u N (tally_of C (bad_log_of m corr))
  = filter (fun j => exceeds u N (tally_at m corr j)) (seq 0 C).
Proof. unfold tally_of. apply bad_idx_of_filter. Qed.

Lemma fold_add_acc (l : list nat) (acc : nat) :
  fold_left Nat.add l acc = acc + fold_left Nat.add l 0.
Proof.
  revert acc. induction l as [|x l IH]; intros acc; simpl; [lia|].
  rewrite (IH (acc + x)), (IH x). lia.
Qed.

Lemma tally_at_cons (m : float64) (row : vector) (corr : matrix) (j : nat) :
  tally_at m (row :: corr) j
  = nth j (map (fun c => if ltb c m then 1 else 0) row) 0 + tally_at m corr j.
Proof. unfold tally_at. simpl. apply fold_add_acc. Qed.

Lemma nth_indicator (p : float64 -> bool) (row : vector) (j : nat) :
  j < length row ->
  nth j (map (fun c => if p c then 1 else 0) row) 0
  = if p (Np.get row j) then 1 else 0.
Proof.
  intros Hj. unfold Np.get.
  now rewrite nth_map_in with (d := zero) by exact Hj.
Qed.

Lemma tally_at_count (m : float64) (corr : matrix) (j : nat) :
  Forall (fun row => j < length row) corr ->
  tally_at m corr j = count_below m corr j.
Proof.
  induction 1 as [|row corr Hrow _ IH]; [reflexivity|].
  rewrite tally_at_cons, IH, nth_indicator by exact Hrow.
  unfold count_below. simpl. destruct (ltb (Np.get row j) m); reflexivity.
Qed.

Lemma count_below_drops_nan (m : float64) (corr : matrix) (j : nat) :
  count_below m corr j = count_below_not_nan m corr j.
Proof.
  unfold count_below, count_below_not_nan. f_equal. apply filter_ext.
  intros row. destruct (is_nan (Np.get row j)) eqn:Hn; [|reflexivity].
  now rewrite ltb_nan_l.
Qed.

Lemma Qltb_lt (x y : Q) : Qltb x y = true <-> (x < y)%Q.
Proof.
  unfold Qltb. rewrite negb_true_iff.
  split; intros H.
  - apply Qnot_le_lt. intros Hle. apply Qle_bool_iff in Hle. congruence.
  - destruct (Qle_bool y x) eqn:Hb; [|reflexivity].
    apply Qle_bool_iff in Hb. exfalso. now apply (Qlt_not_le _ _ H).
Qed.

Lemma exceeds_spec (u : Q) (N t : nat) :
  exceeds u N t = true
  <-> (Binary64.mul_int u N < Binary64.of_nat t)%Q.
Proof. apply Qltb_lt. Qed.

(** A tally of 0 never exceeds the threshold of a non-negative fraction. *)
Lemma exceeds_zero_tally (u : Q) (N : nat) :
  (0 <= u)%Q -> ~ (Binary64.mul_int u N < Binary64.of_nat 0)%Q.
Proof.
  intros Hu H. apply (Qlt_not_le _ _ H).
  rewrite of_nat_0. now apply mul_int_nonneg.
Qed.

(** With a fraction of at least 1 no tally up to the number of segments
    exceeds the threshold. *)
Lemma exceeds_full_fraction (u : Q) (N t : nat) :
  (1 <= u)%Q -> t <= N -> ~ (Binary64.mul_int u N < Binary64.of_nat t)%Q.
Proof.
  intros Hu Ht H. apply (Qlt_not_le _ _ H).
  apply Qle_trans with (Binary64.of_nat N);
    [now apply of_nat_mono|now apply mul_int_ge].
Qed.

Lemma StronglySorted_seq (s n : nat) : StronglySorted lt (seq s n).
Proof.
  revert s. induction n as [|n IH]; intros s; simpl; constructor; [apply IH|].
  apply Forall_forall. intros x Hx. apply in_seq in Hx. lia.
Qed.

Lemma StronglySorted_filter_lt (f : nat -> bool) (l : list nat) :
  StronglySorted lt l -> StronglySorted lt (filter f l).
Proof.
  induction 1 as [|x l Hs IH Hx]; simpl; [constructor|].
  destruct (f x); [|exact IH]. constructor; [exact IH|].
  apply Forall_forall. intros y Hy. apply filter_In in Hy.
  rewrite Forall_forall in Hx. now apply Hx.
Qed.

Lemma bad_names_ok (names : list string) (f : nat -> bool) (w : World) :
  (if 0 <? length (filter f (seq 0 (length names)))
   then bad <~ lift (map_result (list_getitem names)
                                (filter f (seq 0 (length names)))) ;;
        setattr (set_bad_chs_ bad)
   else setattr (set_bad_chs_ [])) w
  = ({| self := set_bad_chs_
                  (map (fun p => nth p names ""%string)
                       (filter f (seq 0 (length names))))
                  (self w);
        calls := calls w |}, Ok tt).
Proof.
  destruct (filter f (seq 0 (length names))) as [|p l] eqn:Hl; [reflexivity|].
  cbn [length Nat.ltb Nat.leb]. rewrite <- Hl.
  unfold bindM, lift.
  rewrite map_result_getitem with (d := ""%string); [reflexivity|].
  apply Forall_forall. intros q Hq. apply filter_In in Hq.
  destruct Hq as [Hq _]. apply in_seq in Hq. lia.
Qed.

(** ** [fit], stage by stage *)

Lemma parallel_run (ransac : Ransac) (epochs : Epochs)
  (chunks : list (list nat)) (w w' : World) (res : result (list matrix)) :
  parallel ransac epochs chunks w = (w', res) ->
  self w' = self w /\
  res = map_result (_iterate_epochs ransac epochs) chunks /\
  (forall corrs, res = Ok corrs ->
     calls w' = calls w ++ map Call_iterate_epochs chunks).
Proof.
  unfold parallel. revert w w' res.
  induction chunks as [|idxs chunks IH]; intros w w' res H.
  - simpl in H. injection H as <- <-. split; [reflexivity|].
    split; [reflexivity|]. intros _ _. simpl. now rewrite app_nil_r.
  - cbn [map_M map_result map] in *. unfold bindM at 1 in H.
    unfold invoke at 1 in H.
    destruct (_iterate_epochs ransac epochs idxs) as [rows|x]; cbn [bind].
    + unfold bindM at 1 in H.
      destruct (map_M _ chunks _) as [w1 r1] eqn:Hrest.
      apply IH in Hrest. destruct Hrest as [Hs [Hr Hc]]. cbn [self calls] in *.
      rewrite <- Hr. destruct r1 as [rest|x]; cbn [bind].
      * unfold ret in H. injection H as <- <-.
        split; [exact Hs|]. split; [reflexivity|]. intros _ _.
        rewrite (Hc rest eq_refl). now rewrite <- app_assoc.
      * injection H as <- <-. split; [exact Hs|]. split; [reflexivity|].
        discriminate.
    + injection H as <- <-. split; [reflexivity|]. split; [reflexivity|].
      discriminate.
Qed.

Lemma fit_cases `{E : Externals} (r : Ransac) (e : Epochs) (w : World)
  (res : result unit) :
  run_fit r e = (w, res) ->
  (corr_ (self w) = corr_ r /\ bad_chs_ (self w) = bad_chs_ r /\
   exists x, res = Raise x)
  \/
  (res = Ok tt /\
   exists t subsets mappings chunks corrs corr,
     check_data e = Ok tt /\
     _get_channel_type e = Ok t /\
     _get_random_subsets (set_ch_type t r) (info e) = Ok subsets /\
     _get_mappings (set_ch_subsets_ subsets (set_ch_type t r)) e = Ok mappings /\
     Np.array_split_arange (len e) (check_n_jobs (n_jobs r)) = Ok chunks /\
     map_result
       (_iterate_epochs
          (set_mappings_ mappings (set_ch_subsets_ subsets (set_ch_type t r))) e)
       chunks = Ok corrs /\
     Np.concatenate corrs = Ok corr /\
     self w = fitted r e t subsets mappings corr /\
     calls w = [Call_check_data; Call_get_channel_type;
                Call_get_random_subsets; Call_get_mappings]
               ++ map Call_iterate_epochs chunks).
Proof.
  unfold run_fit, fit. intros H.
  unfold bindM at 1 in H. unfold invoke at 1 in H. cbn [self calls app] in H.
  destruct (check_data e) as [[]|x] eqn:Hcd;
    [|injection H as <- <-; left; cbn; eauto].
  unfold bindM at 1 in H. unfold invoke at 1 in H. cbn [self calls app] in H.
  destruct (_get_channel_type e) as [t|x] eqn:Ht;
    [|injection H as <- <-; left; cbn; eauto].
  unfold bindM at 1 in H. unfold setattr at 1 in H. cbn [self calls app] in H.
  unfold bindM at 1 in H. unfold read at 1 in H. cbn [self calls app] in H.
  unfold bindM at 1 in H. unfold invoke at 1 in H. cbn [self calls app] in H.
  destruct (_get_random_subsets (set_ch_type t r) (info e)) as [subsets|x] eqn:Hsub;
    [|injection H as <- <-; left; cbn; eauto].
  unfold bindM at 1 in H. unfold setattr at 1 in H. cbn [self calls app] in H.
  unfold bindM at 1 in H. unfold read at 1 in H. cbn [self calls app] in H.
  unfold bindM at 1 in H. unfold invoke at 1 in H. cbn [self calls app] in H.
  destruct (_get_mappings (set_ch_subsets_ subsets (set_ch_type t r)) e)
    as [mappings|x] eqn:Hmap;
    [|injection H as <- <-; left; cbn; eauto].
  unfold bindM at 1 in H. unfold setattr at 1 in H. cbn [self calls app] in H.
  unfold bindM at 1 in H. unfold read at 1 in H. cbn [self calls app] in H.
  unfold bindM at 1 in H. unfold lift at 1 in H.
  replace (n_jobs (set_mappings_ mappings (set_ch_subsets_ subsets (set_ch_type t r))))
    with (n_jobs r) in H by reflexivity.
  destruct (Np.array_split_arange (len e) (check_n_jobs (n_jobs r)))
    as [chunks|x] eqn:Hchunks;
    [|injection H as <- <-; left; cbn; eauto].
  unfold bindM at 1 in H.
  destruct (parallel _ e chunks _) as [w1 r1] eqn:Hpar.
  apply parallel_run in Hpar. destruct Hpar as [Hs [Hr Hc]].
  cbn [self calls] in Hs, Hc.
  destruct r1 as [corrs|x];
    [|injection H as <- <-; left; rewrite Hs; cbn; eauto].
  specialize (Hc corrs eq_refl).
  unfold bindM at 1 in H. unfold lift at 1 in H.
  destruct (Np.concatenate corrs) as [corr|x] eqn:Hcat;
    [|injection H as <- <-; left; rewrite Hs; cbn; eauto].
  unfold bindM at 1 in H. unfold setattr at 1 in H. cbn [self calls app] in H.
  unfold bindM at 1 in H. unfold read at 1 in H. cbn [self calls app] in H.
  unfold bindM at 1 in H. unfold setattr at 1 in H. cbn [self calls app] in H.
  rewrite Hs in H.
  replace (min_corr (set_corr_ corr (set_mappings_ mappings
             (set_ch_subsets_ subsets (set_ch_type t r)))))
    with (min_corr r) in H by reflexivity.
  replace (unbroken_time (set_corr_ corr (set_mappings_ mappings
             (set_ch_subsets_ subsets (set_ch_type t r)))))
    with (unbroken_time r) in H by reflexivity.
  rewrite bad_idx_of_tally in H.
  unfold n_channels_of in H.
  rewrite bad_names_ok in H. cbn [self calls] in H.
  assert (Hfinal : w = {| self := fitted r e t subsets mappings corr;
                          calls := calls w1 |} /\ res = Ok tt).
  { unfold fitted. rewrite bad_idx_of_tally. unfold n_channels_of.
    injection H as <- <-. split; reflexivity. }
  destruct Hfinal as [-> ->]. right. split; [reflexivity|]. symmetry in Hr.
  exists t, subsets, mappings, chunks, corrs, corr.
  repeat split; try assumption; try reflexivity.
Qed.

(** ** The flagging rule *)

Lemma map_result_Forall {A B : Type} (f : A -> result B) (P : B -> Prop)
  (xs : list A) (ys : list B) :
  (forall x y, f x = Ok y -> P y) ->
  map_result f xs = Ok ys -> Forall P ys.
Proof.
  intros Hf H. apply map_result_Forall2 in H.
  induction H as [|x y xs ys Hxy _ IH]; constructor; eauto.
Qed.

Lemma iterate_epochs_row_lengths (ransac : Ransac) (epochs : Epochs)
  (idxs : list nat) (rows : matrix) :
  _iterate_epochs ransac epochs idxs = Ok rows ->
  Forall (fun row => length row = n_channels_of epochs) rows.
Proof.
  rewrite iterate_epochs_scores_leading. unfold sequential_scores.
  apply map_result_Forall. intros i row. apply score_epoch_length.
Qed.

Lemma fit_corr_row_lengths (ransac : Ransac) (epochs : Epochs)
  (chunks : list (list nat)) (corrs : list matrix) (corr : matrix) :
  map_result (_iterate_epochs ransac epochs) chunks = Ok corrs ->
  Np.concatenate corrs = Ok corr ->
  Forall (fun row => length row = n_channels_of epochs) corr.
Proof.
  intros Hmap Hcat.
  assert (Hall : Forall (Forall (fun row => length row = n_channels_of epochs)) corrs).
  { revert Hmap. apply map_result_Forall. intros idxs rows.
    apply iterate_epochs_row_lengths. }
  unfold Np.concatenate in Hcat. destruct corrs; [discriminate|].
  injection Hcat as <-. apply Forall_concat in Hall. exact Hall.
Qed.

(** What a successful [fit] leaves on the object, in terms of the counts. *)
Lemma fit_flags `{E : Externals} (r : Ransac) (e : Epochs) (w : World) :
  run_fit r e = (w, Ok tt) ->
  exists corr,
    corr_ (self w) = Some corr /\
    bad_log (self w) = Some (bad_log_of (min_corr r) corr) /\
    Forall (fun row => length row = n_channels_of e) corr /\
    bad_chs_ (self w)
    = Some (map (fun p => nth p (ch_names (info e)) ""%string)
              (filter (fun j => exceeds (unbroken_time r) (len e)
                                  (count_below (min_corr r) corr j))
                      (seq 0 (n_channels_of e)))).
Proof.
  intros H. apply fit_cases in H. destruct H as [[_ [_ [x Hx]]]|[_ H]]; [discriminate|].
  destruct H as (t & subsets & mappings & chunks & corrs & corr & _ & _ & _ & _ & _
                 & Hmap & Hcat & Hself & _).
  pose proof (fit_corr_row_lengths _ _ _ Hmap Hcat) as Hrows.
  exists corr. rewrite Hself. unfold fitted. cbn.
  split; [reflexivity|]. split; [reflexivity|]. split; [exact Hrows|].
  f_equal. f_equal. rewrite bad_idx_of_tally.
  apply filter_ext_in. intros j Hj. apply in_seq in Hj.
  rewrite tally_at_count; [reflexivity|].
  eapply Forall_impl; [|exact Hrows]. cbv beta. intros row ->. lia.
Qed.

(** C6.  After [fit] on [N] segments, sensor [j] is flagged exactly when
    its tally, the number of segments whose correlation is below
    [min_corr], is strictly greater than [unbroken_time * N], the product
    and the comparison being the binary64 ones of the program; [bad_chs_]
    names the flagged sensors in channel order; it is the empty list when
    no sensor exceeds the threshold; and with [unbroken_time = 1] no sensor
    whose tally is below [N] is flagged. *)
Theorem C6_flagging_rule `{E : Externals} (r : Ransac) (e : Epochs) (w : World) :
  run_fit r e = (w, Ok tt) ->
  exists (corr : matrix) (bad_idx : list nat),
    corr_ (self w) = Some corr /\
    bad_chs_ (self w)
    = Some (map (fun p => nth p (ch_names (info e)) ""%string) bad_idx) /\
    (forall j,
       In j bad_idx <->
       j < n_channels_of e /\
       (Binary64.mul_int (unbroken_time r) (len e)
        < Binary64.of_nat (count_below (min_corr r) corr j))%Q) /\
    StronglySorted lt bad_idx /\
    ((forall j, j < n_channels_of e ->
        ~ (Binary64.mul_int (unbroken_time r) (len e)
           < Binary64.of_nat (count_below (min_corr r) corr j))%Q) ->
     bad_chs_ (self w) = Some []) /\
    ((unbroken_time r == 1)%Q ->
     forall j, count_below (min_corr r) corr j < len e -> ~ In j bad_idx) /\
    (NoDup (ch_names (info e)) ->
     forall j, j < n_channels_of e ->
       (In (nth j (ch_names (info e)) ""%string)
           (map (fun p => nth p (ch_names (info e)) ""%string) bad_idx)
        <-> (Binary64.mul_int (unbroken_time r) (len e)
             < Binary64.of_nat (count_below (min_corr r) corr j))%Q)).
Proof.
  intros H. apply fit_flags in H. destruct H as (corr & Hcorr & _ & _ & Hbad).
  set (flag := fun j => exceeds (unbroken_time r) (len e)
                          (count_below (min_corr r) corr j)) in *.
  assert (Hin : forall j,
             In j (filter flag (seq 0 (n_channels_of e))) <->
             j < n_channels_of e /\
             (Binary64.mul_int (unbroken_time r) (len e)
              < Binary64.of_nat (count_below (min_corr r) corr j))%Q).
  { intros j. rewrite filter_In, in_seq. unfold flag. rewrite exceeds_spec.
    intuition lia. }
  exists corr, (filter flag (seq 0 (n_channels_of e))).
  split; [exact Hcorr|]. split; [exact Hbad|]. split; [exact Hin|].
  split; [apply StronglySorted_filter_lt, StronglySorted_seq|].
  split; [|split].
  - intros Hnone. rewrite Hbad. f_equal.
    assert (Hnil : forall l : list nat, (forall x, ~ In x l) -> l = []).
    { intros [|x l] Hl; [reflexivity|]. exfalso. apply (Hl x). now left. }
    rewrite (Hnil (filter flag (seq 0 (n_channels_of e)))); [reflexivity|].
    intros j Hj. apply Hin in Hj. destruct Hj as [Hj Hlt]. exact (Hnone j Hj Hlt).
  - intros Hone j Hcount Hj. apply Hin in Hj. destruct Hj as [_ Hlt].
    apply (@exceeds_full_fraction (unbroken_time r) (len e)
             (count_below (min_corr r) corr j)); [|lia|exact Hlt].
    rewrite Hone. apply Qle_refl.
  - intros Hnd j Hj. split.
    + intros Hname. apply in_map_iff in Hname. destruct Hname as [p [Hp Hpin]].
      apply Hin in Hpin. destruct Hpin as [Hplt Hthr].
      assert (p = j) as ->; [|exact Hthr].
      apply (proj1 (NoDup_nth (ch_names (info e)) ""%string) Hnd); assumption.
    + intros Hthr. apply in_map_iff. exists j. split; [reflexivity|].
      apply Hin. split; assumption.
Qed.

(** ** Monotonicity *)

Lemma filter_length_le {A : Type} (f g : A -> bool) (l : list A) :
  (forall x, In x l -> f x = true -> g x = true) ->
  length (filter f l) <= length (filter g l).
Proof.
  induction l as [|x l IH]; intros H; simpl; [lia|].
  assert (IH' : length (filter f l) <= length (filter g l))
    by (apply IH; intros y Hy; apply H; now right).
  destruct (f x) eqn:Hf.
  - rewrite (H x (or_introl eq_refl) Hf). simpl. lia.
  - destruct (g x); simpl; lia.
Qed.

Lemma tally_at_mono (m1 m2 : float64) (corr : matrix) (j : nat) :
  leb m1 m2 = true -> tally_at m1 corr j <= tally_at m2 corr j.
Proof.
  intros Hm. induction corr as [|row corr IH]; [apply Nat.le_refl|].
  rewrite !tally_at_cons. apply Nat.add_le_mono; [|exact IH].
  destruct (Nat.lt_ge_cases j (length row)) as [Hj|Hj].
  - rewrite !nth_indicator by exact Hj.
    destruct (ltb (Np.get row j) m1) eqn:H1.
    + now rewrite (ltb_leb_trans _ _ _ H1 Hm).
    + destruct (ltb (Np.get row j) m2); lia.
  - rewrite !nth_overflow by (rewrite length_map; lia). lia.
Qed.

Lemma exceeds_mono_tally (u : Q) (N t1 t2 : nat) :
  t1 <= t2 -> exceeds u N t1 = true -> exceeds u N t2 = true.
Proof.
  intros Ht. rewrite !exceeds_spec. intros H.
  eapply Qlt_le_trans; [exact H|]. now apply of_nat_mono.
Qed.

Lemma exceeds_mono_fraction (u1 u2 : Q) (N t : nat) :
  (u1 <= u2)%Q -> exceeds u2 N t = true -> exceeds u1 N t = true.
Proof.
  intros Hu. rewrite !exceeds_spec. intros H.
  eapply Qle_lt_trans; [|exact H]. now apply mul_int_mono.
Qed.

Lemma flagged_count_filter (m : float64) (u : Q) (N C : nat) (corr : matrix) :
  flagged_count m u N C corr
  = length (filter (fun j => exceeds u N (tally_at m corr j)) (seq 0 C)).
Proof. unfold flagged_count. now rewrite bad_idx_of_tally. Qed.

(** C7.  For a fixed correlation matrix and a fixed number of segments the
    number of flagged sensors is monotone: a lower [min_corr] never flags
    more sensors, and a higher [unbroken_time] never flags more sensors. *)
Theorem C7_monotone_thresholds (corr : matrix) (N C : nat)
  (m1 m2 : float64) (u1 u2 : Q) :
  leb m1 m2 = true ->
  (u1 <= u2)%Q ->
  flagged_count m1 u1 N C corr <= flagged_count m2 u1 N C corr /\
  flagged_count m1 u2 N C corr <= flagged_count m1 u1 N C corr.
Proof.
  intros Hm Hu. rewrite !flagged_count_filter. split.
  - apply filter_length_le. intros j _.
    apply exceeds_mono_tally. now apply tally_at_mono.
  - apply filter_length_le. intros j _. now apply exceeds_mono_fraction.
Qed.

(** The number of names in [bad_chs_] after [fit] is [flagged_count] at the
    object's own thresholds. *)
Lemma fit_flagged_count `{E : Externals} (r : Ransac) (e : Epochs) (w : World) :
  run_fit r e = (w, Ok tt) ->
  exists corr names,
    corr_ (self w) = Some corr /\ bad_chs_ (self w) = Some names /\
    length names
    = flagged_count (min_corr r) (unbroken_time r) (len e) (n_channels_of e) corr.
Proof.
  intros H. apply fit_cases in H. destruct H as [[_ [_ [x Hx]]]|[_ H]]; [discriminate|].
  destruct H as (t & subsets & mappings & chunks & corrs & corr & _ & _ & _ & _ & _
                 & _ & _ & Hself & _).
  exists corr. eexists. rewrite Hself. unfold fitted. cbn.
  split; [reflexivity|]. split; [reflexivity|]. now rewrite length_map.
Qed.

(** ** [nan] correlations *)

Lemma count_below_not_nan_all_nan (m : float64) (corr : matrix) (j : nat) :
  (forall i, i < length corr -> is_nan (Np.get2 corr i j) = true) ->
  count_below_not_nan m corr j = 0.
Proof.
  intros Hall. unfold count_below_not_nan.
  replace (filter _ corr) with (@nil vector); [reflexivity|].
  symmetry. apply List.length_zero_iff_nil.
  assert (Hle : length (filter (fun row => negb (is_nan (Np.get row j))
                                           && ltb (Np.get row j) m) corr)
                <= length (filter (fun _ => false) corr)).
  { apply filter_length_le. intros row Hin.
    apply In_nth with (d := []) in Hin. destruct Hin as [i [Hi <-]].
    specialize (Hall i Hi). unfold Np.get2 in Hall. now rewrite Hall. }
  replace (filter (fun _ : vector => false) corr) with (@nil vector) in Hle
    by (clear; induction corr; simpl; auto).
  simpl in Hle. lia.
Qed.

(** C9.  A [nan] entry of the correlation matrix compares false against
    [min_corr], so its [bad_log] entry is 0 and the tally of a sensor counts
    only the entries that are not [nan]; a sensor whose correlations are all
    [nan] is not flagged (for a non-negative [unbroken_time]); and once the
    correlation matrix is assembled [fit] returns, whatever its entries. *)
Theorem C9_nan_never_counts `{E : Externals} (r : Ransac) (e : Epochs)
  (w : World) (res : result unit) (corr : matrix) :
  corr_ r = None ->
  run_fit r e = (w, res) ->
  corr_ (self w) = Some corr ->
  res = Ok tt /\
  exists (bl : list (list nat)) (bad_idx : list nat),
    bad_log (self w) = Some bl /\
    bad_chs_ (self w)
    = Some (map (fun p => nth p (ch_names (info e)) ""%string) bad_idx) /\
    (forall i j, i < length corr -> j < n_channels_of e ->
       is_nan (Np.get2 corr i j) = true ->
       ltb (Np.get2 corr i j) (min_corr r) = false /\
       nth j (nth i bl []) 0 = 0) /\
    (forall j,
       In j bad_idx <->
       j < n_channels_of e /\
       (Binary64.mul_int (unbroken_time r) (len e)
        < Binary64.of_nat (count_below_not_nan (min_corr r) corr j))%Q) /\
    (forall j,
       (forall i, i < length corr -> is_nan (Np.get2 corr i j) = true) ->
       (0 <= unbroken_time r)%Q -> ~ In j bad_idx).
Proof.
  intros Hfresh Hrun Hcorr.
  pose proof (fit_cases _ _ Hrun) as [[Hsame _]|[-> _]];
    [rewrite Hsame, Hfresh in Hcorr; discriminate|].
  split; [reflexivity|].
  apply fit_flags in Hrun.
  destruct Hrun as (corr' & Hcorr' & Hbl & Hrows & Hbad).
  rewrite Hcorr in Hcorr'. injection Hcorr' as <-.
  set (flag := fun j => exceeds (unbroken_time r) (len e)
                          (count_below (min_corr r) corr j)) in *.
  assert (Hin : forall j,
             In j (filter flag (seq 0 (n_channels_of e))) <->
             j < n_channels_of e /\
             (Binary64.mul_int (unbroken_time r) (len e)
              < Binary64.of_nat (count_below_not_nan (min_corr r) corr j))%Q).
  { intros j. rewrite filter_In, in_seq. unfold flag.
    rewrite exceeds_spec, count_below_drops_nan. intuition lia. }
  exists (bad_log_of (min_corr r) corr), (filter flag (seq 0 (n_channels_of e))).
  split; [exact Hbl|]. split; [exact Hbad|]. split; [|split; [exact Hin|]].
  - intros i j Hi Hj Hnan. split; [now apply ltb_nan_l|].
    unfold bad_log_of. rewrite nth_map_in with (d := ([] : vector)) by exact Hi.
    assert (Hlen : length (nth i corr []) = n_channels_of e).
    { rewrite Forall_forall in Hrows. apply Hrows, nth_In, Hi. }
    rewrite nth_indicator by lia.
    fold (Np.get2 corr i j). now rewrite ltb_nan_l.
  - intros j Hall Hu Hj. apply Hin in Hj. destruct Hj as [_ Hlt].
    rewrite count_below_not_nan_all_nan in Hlt by exact Hall.
    exact (@exceeds_zero_tally _ _ Hu Hlt).
Qed.

Lemma C6_witness :
  exists (corr : matrix) (bad_idx : list nat),
    corr_ (self Demo.world1) = Some corr /\
    bad_chs_ (self Demo.world1)
    = Some (map (fun p => nth p (ch_names (info Demo.epochs)) ""%string) bad_idx) /\
    (forall j,
       In j bad_idx <->
       j < n_channels_of Demo.epochs /\
       (Binary64.mul_int (unbroken_time (Demo.ransac 1)) (len Demo.epochs)
        < Binary64.of_nat (count_below (min_corr (Demo.ransac 1)) corr j))%Q) /\
    StronglySorted lt bad_idx /\
    ((forall j, j < n_channels_of Demo.epochs ->
        ~ (Binary64.mul_int (unbroken_time (Demo.ransac 1)) (len Demo.epochs)
           < Binary64.of_nat (count_below (min_corr (Demo.ransac 1)) corr j))%Q) ->
     bad_chs_ (self Demo.world1) = Some []) /\
    ((unbroken_time (Demo.ransac 1) == 1)%Q ->
     forall j, count_below (min_corr (Demo.ransac 1)) corr j < len Demo.epochs ->
               ~ In j bad_idx) /\
    (NoDup (ch_names (info Demo.epochs)) ->
     forall j, j < n_channels_of Demo.epochs ->
       (In (nth j (ch_names (info Demo.epochs)) ""%string)
           (map (fun p => nth p (ch_names (info Demo.epochs)) ""%string) bad_idx)
        <-> (Binary64.mul_int (unbroken_time (Demo.ransac 1)) (len Demo.epochs)
             < Binary64.of_nat (count_below (min_corr (Demo.ransac 1)) corr j))%Q)).
Proof.
  apply (@C6_flagging_rule Demo.externals (Demo.ransac 1) Demo.epochs Demo.world1).
  vm_compute. reflexivity.
Defined.

Lemma C7_witness :
  flagged_count (div (of_Z 1) (of_Z 2)) (1 # 4) 2 3 Demo.corr1
  <= flagged_count (div (of_Z 3) (of_Z 4)) (1 # 4) 2 3 Demo.corr1 /\
  flagged_count (div (of_Z 1) (of_Z 2)) (4 # 10) 2 3 Demo.corr1
  <= flagged_count (div (of_Z 1) (of_Z 2)) (1 # 4) 2 3 Demo.corr1.
Proof.
  apply (@C7_monotone_thresholds Demo.corr1 2 3
           (div (of_Z 1) (of_Z 2)) (div (of_Z 3) (of_Z 4)) (1 # 4) (4 # 10)).
  - vm_compute. reflexivity.
  - unfold Qle. simpl. lia.
Defined.

Lemma C9_witness :
  Ok tt = Ok tt /\
  exists (bl : list (list nat)) (bad_idx : list nat),
    bad_log (self Demo.world1) = Some bl /\
    bad_chs_ (self Demo.world1)
    = Some (map (fun p => nth p (ch_names (info Demo.epochs)) ""%string) bad_idx) /\
    (forall i j, i < length Demo.corr1 -> j < n_channels_of Demo.epochs ->
       is_nan (Np.get2 Demo.corr1 i j) = true ->
       ltb (Np.get2 Demo.corr1 i j) (min_corr (Demo.ransac 1)) = false /\
       nth j (nth i bl []) 0 = 0) /\
    (forall j,
       In j bad_idx <->
       j < n_channels_of Demo.epochs /\
       (Binary64.mul_int (unbroken_time (Demo.ransac 1)) (len Demo.epochs)
        < Binary64.of_nat
            (count_below_not_nan (min_corr (Demo.ransac 1)) Demo.corr1 j))%Q) /\
    (forall j,
       (forall i, i < length Demo.corr1 ->
                  is_nan (Np.get2 Demo.corr1 i j) = true) ->
       (0 <= unbroken_time (Demo.ransac 1))%Q -> ~ In j bad_idx).
Proof.
  apply (@C9_nan_never_counts Demo.externals (Demo.ransac 1) Demo.epochs
           Demo.world1 (Ok tt) Demo.corr1).
  - reflexivity.
  - vm_compute. reflexivity.
  - reflexivity.
Defined.

(** In the demo the flat sensor of the first segment scores 0/0. *)
Example nan_from_flat_sensor : Np.get2 Demo.corr1 0 2 = nan.
Proof. reflexivity. Qed.

(** ** Chunked scoring against the sequential pass *)

Lemma array_split_one (n : nat) :
  Np.array_split_arange n 1 = Ok [seq 0 n].
Proof.
  unfold Np.array_split_arange, Np.section_sizes. cbn [Nat.eqb].
  rewrite Nat.mod_1_r, Nat.div_1_r. reflexivity.
Qed.

(** With one job the rows of [corr_] are the scores of the segments
    [0 .. N-1], in segment order. *)
Lemma fit_sequential_in_order `{E : Externals} (r : Ransac) (e : Epochs) (w : World) :
  n_jobs r = 1%positive ->
  run_fit r e = (w, Ok tt) ->
  exists corr,
    corr_ (self w) = Some corr /\
    sequential_scores (self w) e (seq 0 (len e)) = Ok corr.
Proof.
  intros Hjobs H. apply fit_cases in H.
  destruct H as [[_ [_ [x Hx]]]|[_ H]]; [discriminate|].
  destruct H as (t & subsets & mappings & chunks & corrs & corr & _ & _ & _ & _
                 & Hchunks & Hmap & Hcat & Hself & _).
  rewrite Hjobs in Hchunks. change (check_n_jobs 1) with 1 in Hchunks.
  rewrite array_split_one in Hchunks. injection Hchunks as <-.
  cbn [map_result] in Hmap. rewrite iterate_epochs_scores_leading in Hmap.
  rewrite length_seq in Hmap.
  exists corr. rewrite Hself. split; [reflexivity|].
  unfold fitted.
  destruct (sequential_scores _ e (seq 0 (len e))) as [rows|] eqn:Hrows;
    cbn [bind] in Hmap; [|discriminate].
  injection Hmap as <-. cbn in Hcat. rewrite app_nil_r in Hcat.
  injection Hcat as <-. reflexivity.
Qed.

(** With several jobs every chunk is scored from segment 0 on: the rows of
    [corr_] are, chunk after chunk, the scores of the leading segments. *)
Lemma fit_chunks_score_leading `{E : Externals} (r : Ransac) (e : Epochs) (w : World) :
  run_fit r e = (w, Ok tt) ->
  exists chunks corrs corr,
    Np.array_split_arange (len e) (check_n_jobs (n_jobs r)) = Ok chunks /\
    map_result (fun idxs => sequential_scores (self w) e (seq 0 (length idxs)))
               chunks = Ok corrs /\
    corr = concat corrs /\
    corr_ (self w) = Some corr.
Proof.
  intros H. apply fit_cases in H.
  destruct H as [[_ [_ [x Hx]]]|[_ H]]; [discriminate|].
  destruct H as (t & subsets & mappings & chunks & corrs & corr & _ & _ & _ & _
                 & Hchunks & Hmap & Hcat & Hself & _).
  exists chunks, corrs, corr. split; [exact Hchunks|]. rewrite Hself. split.
  - rewrite <- Hmap. clear. induction chunks as [|idxs chunks IH]; [reflexivity|].
    cbn [map_result]. rewrite IH, iterate_epochs_scores_leading. reflexivity.
  - split; [|reflexivity]. unfold Np.concatenate in Hcat.
    destruct corrs; [discriminate|]. now injection Hcat.
Qed.

(** C1.  On the demo recording (two segments that score differently) a fit
    with [n_jobs = 2] does not reproduce the fit with [n_jobs = 1]: the
    second row of [corr_] repeats the scores of segment 0 instead of holding
    those of segment 1, and [bad_chs_] differs. *)
Theorem C1_two_jobs_repeat_first_segment :
  exists (row0 row1 : vector),
    sequential_scores (self Demo.world1) Demo.epochs [0; 1] = Ok [row0; row1] /\
    row0 <> row1 /\
    corr_ (self (fst (run_fit (E := Demo.externals) (Demo.ransac 1) Demo.epochs)))
    = Some [row0; row1] /\
    corr_ (self (fst (run_fit (E := Demo.externals) (Demo.ransac 2) Demo.epochs)))
    = Some [row0; row0] /\
    bad_chs_ (self (fst (run_fit (E := Demo.externals) (Demo.ransac 1) Demo.epochs)))
    = Some ["a"; "b"; "c"]%string /\
    bad_chs_ (self (fst (run_fit (E := Demo.externals) (Demo.ransac 2) Demo.epochs)))
    = Some [].
Proof.
  exists (nth 0 Demo.corr1 []), (nth 1 Demo.corr1 []).
  split; [vm_compute; reflexivity|].
  split; [vm_compute; discriminate|].
  repeat split; vm_compute; reflexivity.
Qed.

(** ** Channel-type validation *)

Lemma get_channel_type_mixed `{E : Externals} (e : Epochs) :
  contains e "meg" = true -> contains e "eeg" = true ->
  exists msg, _get_channel_type e = Raise (ValueError msg).
Proof.
  intros Hmeg Heeg. unfold _get_channel_type.
  destruct (0 <? length _); [eexists; reflexivity|].
  rewrite Hmeg, Heeg. eexists. reflexivity.
Qed.

Lemma get_channel_type_other `{E : Externals} (e : Epochs) (key : string) :
  In key pick_types_keys ->
  in_strings key ["mag"; "grad"; "eeg"]%string = false ->
  contains e key = true ->
  exists msg, _get_channel_type e = Raise (ValueError msg).
Proof.
  intros Hkey Hother Hpresent. unfold _get_channel_type.
  assert (Hin : In key
            (filter (fun key => negb (in_strings key ["mag"; "grad"; "eeg"]%string)
                                && contains e key)
                    (map fst (channel_indices_by_type (info e))))).
  { apply filter_In. split.
    - unfold channel_indices_by_type. rewrite map_map. cbn [fst].
      now rewrite map_id.
    - now rewrite Hother, Hpresent. }
  destruct (filter _ _) as [|k l]; [contradiction|]. eexists. reflexivity.
Qed.

(** When no listed channel type is present, [_get_channel_type] falls off
    its last [elif] and returns [None]. *)
Lemma get_channel_type_none `{E : Externals} (e : Epochs) :
  (forall key, In key pick_types_keys -> contains e key = false) ->
  contains e "meg" = false -> contains e "eeg" = false ->
  _get_channel_type e = Ok None.
Proof.
  intros Hnone Hmeg Heeg. unfold _get_channel_type.
  assert (Hnil : filter (fun key => negb (in_strings key ["mag"; "grad"; "eeg"]%string)
                                    && contains e key)
                        (map fst (channel_indices_by_type (info e))) = []).
  { unfold channel_indices_by_type. rewrite map_map. cbn [fst]. rewrite map_id.
    induction pick_types_keys as [|k l IH]; [reflexivity|]. simpl.
    rewrite (Hnone k (or_introl eq_refl)), andb_false_r.
    apply IH. intros key Hk. apply Hnone. now right. }
  rewrite Hnil, Hmeg, Heeg. reflexivity.
Qed.

(** A run that is refused by [_check_data] or by [_get_channel_type] leaves
    the object as it was and makes neither the sampling call nor the
    operator-building call. *)
Lemma fit_rejects_before_sampling `{E : Externals} (r : Ransac) (e : Epochs)
  (x : exn) :
  _get_channel_type e = Raise x ->
  exists x',
    snd (run_fit r e) = Raise x' /\
    self (fst (run_fit r e)) = r /\
    ~ In Call_get_random_subsets (calls (fst (run_fit r e))) /\
    ~ In Call_get_mappings (calls (fst (run_fit r e))).
Proof.
  intros Ht. unfold run_fit, fit.
  unfold bindM at 1. unfold invoke at 1. cbn [self calls app].
  destruct (check_data e) as [[]|x0].
  - unfold bindM at 1. unfold invoke at 1. cbn [self calls app]. rewrite Ht.
    exists x. cbn. intuition discriminate.
  - exists x0. cbn. intuition discriminate.
Qed.

(** When neither family is present on a recording that has a channel, the
    type of that channel is another of the listed types. *)
Lemma neither_family_other_type `{E : Externals} (e : Epochs) :
  chs (info e) <> [] ->
  Forall (fun ch => In (kind ch) pick_types_keys) (chs (info e)) ->
  ~ In "meg"%string pick_types_keys ->
  contains e "eeg" = false -> contains e "meg" = false ->
  invalid_present e.
Proof.
  intros Hne Hkinds Hmeg Heeg Hfam.
  destruct (chs (info e)) as [|ch rest] eqn:Hchs; [contradiction|].
  inversion Hkinds as [|? ? Hkey _]; subst.
  unfold contains in Heeg, Hfam. cbn [String.eqb Ascii.eqb Bool.eqb] in Heeg, Hfam.
  unfold contains_ch_type in Heeg, Hfam. rewrite Hchs in Heeg, Hfam.
  cbn [existsb] in Heeg, Hfam.
  apply orb_false_iff in Heeg. destruct Heeg as [Heeg _].
  apply orb_false_iff in Hfam. destruct Hfam as [Hmag Hgrad].
  apply orb_false_iff in Hmag. destruct Hmag as [Hmag _].
  apply orb_false_iff in Hgrad. destruct Hgrad as [Hgrad _].
  exists (kind ch). split; [exact Hkey|]. split.
  - unfold in_strings. cbn [existsb].
    rewrite Hmag, Hgrad, Heeg. reflexivity.
  - unfold contains.
    destruct (String.eqb_spec (kind ch) "meg") as [Heq|_].
    + exfalso. apply Hmeg. rewrite <- Heq. exact Hkey.
    + unfold contains_ch_type. rewrite Hchs. cbn [existsb].
      now rewrite String.eqb_refl.
Qed.

(** C8.  A recording in which both supported families are present, or in
    which neither is, is refused before any subset is sampled and before any
    operator is built: [fit] raises, the object is left as it was, and
    neither [_get_random_subsets] nor [_get_mappings] has been called; when
    [_check_data] has accepted the recording the exception is the
    [ValueError] of [_get_channel_type].  The recording has at least one
    channel, and the type of every channel is one of the keys of
    [channel_indices_by_type], of which ['meg'] is none (it names the
    family of the types ['mag'] and ['grad']). *)
Theorem C8_invalid_type_mix_is_rejected_before_sampling `{E : Externals}
  (r : Ransac) (e : Epochs) :
  chs (info e) <> [] ->
  Forall (fun ch => In (kind ch) pick_types_keys) (chs (info e)) ->
  ~ In "meg"%string pick_types_keys ->
  (contains e "eeg" = true /\ contains e "meg" = true) \/
  (contains e "eeg" = false /\ contains e "meg" = false) ->
  exists x,
    snd (run_fit r e) = Raise x /\
    (check_data e = Ok tt -> exists msg, x = ValueError msg) /\
    self (fst (run_fit r e)) = r /\
    ~ In Call_get_random_subsets (calls (fst (run_fit r e))) /\
    ~ In Call_get_mappings (calls (fst (run_fit r e))).
Proof.
  intros Hne Hkinds Hmeg Hmix.
  assert (Hraise : exists msg, _get_channel_type e = Raise (ValueError msg)).
  { destruct Hmix as [[Heeg Hfam]|[Heeg Hfam]].
    - now apply get_channel_type_mixed.
    - destruct (neither_family_other_type e Hne Hkinds Hmeg Heeg Hfam)
        as (key & Hkey & Hother & Hpresent).
      now apply get_channel_type_other with (key := key). }
  destruct Hraise as [msg Ht]. unfold run_fit, fit.
  unfold bindM at 1. unfold invoke at 1. cbn [self calls app].
  destruct (check_data e) as [[]|x0].
  - unfold bindM at 1. unfold invoke at 1. cbn [self calls app]. rewrite Ht.
    exists (ValueError msg). cbn.
    split; [reflexivity|]. split; [intros _; now exists msg|].
    intuition discriminate.
  - exists x0. cbn. split; [reflexivity|]. split; [discriminate|].
    intuition discriminate.
Qed.

Lemma C8_witness :
  exists x,
    snd (run_fit (E := Demo.externals) (Demo.ransac 1) More.eog_only) = Raise x /\
    (@check_data Demo.externals More.eog_only = Ok tt ->
     exists msg, x = ValueError msg) /\
    self (fst (run_fit (E := Demo.externals) (Demo.ransac 1) More.eog_only))
    = Demo.ransac 1 /\
    ~ In Call_get_random_subsets
         (calls (fst (run_fit (E := Demo.externals) (Demo.ransac 1) More.eog_only))) /\
    ~ In Call_get_mappings
         (calls (fst (run_fit (E := Demo.externals) (Demo.ransac 1) More.eog_only))).
Proof.
  apply (@C8_invalid_type_mix_is_rejected_before_sampling Demo.externals
           (Demo.ransac 1) More.eog_only).
  - discriminate.
  - repeat constructor; simpl; tauto.
  - simpl. intuition discriminate.
  - right. split; reflexivity.
Defined.

(** The condition that the recording has a channel cannot be dropped: on a
    recording without any channel neither family is present, and
    [_get_channel_type] falls off its last [elif], returns [None], and
    [fit] goes on to the sampler and the operator builder. *)
Example recording_without_channels_is_not_refused :
  contains Demo.no_channels "eeg" = false /\
  contains Demo.no_channels "meg" = false /\
  _get_channel_type (E := Demo.externals) Demo.no_channels = Ok None /\
  snd (run_fit (E := Demo.externals) (Demo.ransac 1) Demo.no_channels) = Ok tt /\
  calls (fst (run_fit (E := Demo.externals) (Demo.ransac 1) Demo.no_channels))
  = [Call_check_data; Call_get_channel_type; Call_get_random_subsets;
     Call_get_mappings; Call_iterate_epochs [0]] /\
  ch_type (self (fst (run_fit (E := Demo.externals) (Demo.ransac 1)
                        Demo.no_channels)))
  = Some None.
Proof. repeat split; vm_compute; reflexivity. Qed.

(** The mixed demo recording is refused before sampling. *)
Example mixed_recording_is_rejected :
  snd (run_fit (E := Demo.externals) (Demo.ransac 1) Demo.mixed)
  = Raise (ValueError
             "Got mixed channel types. Pick either eeg or meg but not both") /\
  fst (run_fit (E := Demo.externals) (Demo.ransac 1) Demo.mixed)
  = {| self := Demo.ransac 1;
       calls := [Call_check_data; Call_get_channel_type] |}.
Proof. split; vm_compute; reflexivity. Qed.

(** * Further properties *)

(** ** Rows and shape of the correlation matrix *)

(** X1.  [_iterate_epochs] never looks at the entries of [idxs]: for a list
    of [n] indices it returns the scores of the segments [0 .. n-1], or the
    first exception met on the way. *)
Theorem X1_iterate_epochs_uses_positions (ransac : Ransac) (epochs : Epochs)
  (idxs : list nat) :
  _iterate_epochs ransac epochs idxs
  = sequential_scores ransac epochs (seq 0 (length idxs)).
Proof. apply iterate_epochs_scores_leading. Qed.

(** X2.  After a fit with one job the rows of [corr_] are the scores of the
    segments [0 .. N-1] in segment order. *)
Theorem X2_one_job_rows_in_segment_order `{E : Externals}
  (r : Ransac) (e : Epochs) (w : World) :
  n_jobs r = 1%positive ->
  run_fit r e = (w, Ok tt) ->
  exists corr,
    corr_ (self w) = Some corr /\
    sequential_scores (self w) e (seq 0 (len e)) = Ok corr.
Proof.
  intros Hjobs Hrun.
  apply fit_sequential_in_order with (r := r); assumption.
Qed.

Lemma X2_witness :
  exists corr,
    corr_ (self Demo.world1) = Some corr /\
    sequential_scores (self Demo.world1) Demo.epochs (seq 0 (len Demo.epochs))
    = Ok corr.
Proof.
  apply (@X2_one_job_rows_in_segment_order Demo.externals (Demo.ransac 1)
           Demo.epochs Demo.world1).
  - reflexivity.
  - vm_compute. reflexivity.
Defined.

Lemma map_result_length {A B : Type} (f : A -> result B) (xs : list A) (ys : list B) :
  map_result f xs = Ok ys -> length ys = length xs.
Proof.
  intros H. apply map_result_Forall2 in H. symmetry. exact (Forall2_length H).
Qed.

Lemma split_sizes_lengths (start : nat) (sizes : list nat) :
  map (@length nat) (Np.split_sizes start sizes) = sizes.
Proof.
  revert start. induction sizes as [|sz sizes IH]; intros start; [reflexivity|].
  simpl. now rewrite length_seq, IH.
Qed.

Lemma list_sum_repeat (a n : nat) : list_sum (repeat a n) = n * a.
Proof. induction n as [|n IH]; simpl; [reflexivity|]. now rewrite IH. Qed.

Lemma section_sizes_sum (n sections : nat) :
  sections <> 0 -> list_sum (Np.section_sizes n sections) = n.
Proof.
  intros Hs. unfold Np.section_sizes.
  rewrite list_sum_app, !list_sum_repeat.
  pose proof (Nat.div_mod_eq n sections) as Hdm.
  pose proof (Nat.mod_upper_bound n sections Hs) as Hlt.
  nia.
Qed.

Lemma array_split_lengths (n sections : nat) (chunks : list (list nat)) :
  Np.array_split_arange n sections = Ok chunks ->
  length chunks = sections /\ list_sum (map (@length nat) chunks) = n.
Proof.
  unfold Np.array_split_arange.
  destruct (Nat.eqb_spec sections 0) as [|Hs]; [discriminate|].
  intros [= <-]. rewrite split_sizes_lengths. split.
  - rewrite <- (length_map (@length nat)), split_sizes_lengths.
    unfold Np.section_sizes. rewrite length_app, !repeat_length.
    pose proof (Nat.mod_upper_bound n sections Hs). lia.
  - now apply section_sizes_sum.
Qed.

Lemma chunk_rows_lengths (ransac : Ransac) (epochs : Epochs)
  (chunks : list (list nat)) (corrs : list matrix) :
  map_result (_iterate_epochs ransac epochs) chunks = Ok corrs ->
  map (@length vector) corrs = map (@length nat) chunks.
Proof.
  intros H. apply map_result_Forall2 in H.
  induction H as [|idxs rows chunks corrs Hrows _ IH]; [reflexivity|].
  simpl. f_equal; [|exact IH].
  rewrite iterate_epochs_scores_leading in Hrows.
  apply map_result_length in Hrows. now rewrite length_seq in Hrows.
Qed.

(** X3.  Whatever [n_jobs] is, a fit that returns leaves a correlation
    matrix with one row per segment and one column per channel, and a
    [bad_log] of the same shape whose entry is 1 where the correlation is
    below [min_corr] and 0 elsewhere. *)
Theorem X3_corr_and_bad_log_shape `{E : Externals}
  (r : Ransac) (e : Epochs) (w : World) :
  run_fit r e = (w, Ok tt) ->
  exists (corr : matrix) (bl : list (list nat)),
    corr_ (self w) = Some corr /\
    bad_log (self w) = Some bl /\
    Np.has_shape (len e) (n_channels_of e) corr = true /\
    length bl = len e /\
    forall i, i < len e ->
      length (nth i bl []) = n_channels_of e /\
      forall j, j < n_channels_of e ->
        nth j (nth i bl []) 0
        = if ltb (Np.get2 corr i j) (min_corr r) then 1 else 0.
Proof.
  intros H. pose proof H as Hflags. apply fit_flags in Hflags.
  destruct Hflags as (corr & Hcorr & Hbl & Hrows & _).
  apply fit_cases in H. destruct H as [[_ [_ [x Hx]]]|[_ H]]; [discriminate|].
  destruct H as (t & subsets & mappings & chunks & corrs & corr' & _ & _ & _ & _
                 & Hchunks & Hmap & Hcat & Hself & _).
  assert (corr' = corr) as ->.
  { rewrite Hself in Hcorr. unfold fitted in Hcorr. cbn in Hcorr. congruence. }
  assert (Hlen : length corr = len e).
  { assert (HC : corr = concat corrs).
    { unfold Np.concatenate in Hcat. destruct corrs; [discriminate|].
      now injection Hcat. }
    rewrite HC, length_concat.
    rewrite chunk_rows_lengths with (ransac := set_mappings_ mappings
              (set_ch_subsets_ subsets (set_ch_type t r)))
              (epochs := e) (chunks := chunks) by exact Hmap.
    apply array_split_lengths in Hchunks. tauto. }
  exists corr, (bad_log_of (min_corr r) corr).
  split; [exact Hcorr|]. split; [exact Hbl|].
  split; [apply has_shape_spec; split; assumption|].
  split; [unfold bad_log_of; now rewrite length_map|].
  intros i Hi. rewrite <- Hlen in Hi.
  assert (Hrow : length (nth i corr []) = n_channels_of e).
  { rewrite Forall_forall in Hrows. apply Hrows, nth_In, Hi. }
  unfold bad_log_of. rewrite nth_map_in with (d := ([] : vector)) by exact Hi.
  split; [now rewrite length_map|].
  intros j Hj. rewrite nth_indicator by lia. reflexivity.
Qed.

Lemma X3_witness :
  exists (corr : matrix) (bl : list (list nat)),
    corr_ (self More.world2) = Some corr /\
    bad_log (self More.world2) = Some bl /\
    Np.has_shape (len Demo.epochs) (n_channels_of Demo.epochs) corr = true /\
    length bl = len Demo.epochs /\
    forall i, i < len Demo.epochs ->
      length (nth i bl []) = n_channels_of Demo.epochs /\
      forall j, j < n_channels_of Demo.epochs ->
        nth j (nth i bl []) 0
        = if ltb (Np.get2 corr i j) (min_corr (Demo.ransac 2)) then 1 else 0.
Proof.
  apply (@X3_corr_and_bad_log_shape Demo.externals (Demo.ransac 2)
           Demo.epochs More.world2).
  vm_compute. reflexivity.
Defined.

(** ** Channel-type validation *)

Lemma invalid_filter_spec `{E : Externals} (e : Epochs) :
  (0 <? length (filter (fun key => negb (in_strings key ["mag"; "grad"; "eeg"]%string)
                                   && contains e key)
                       (map fst (channel_indices_by_type (info e))))) = true
  <-> invalid_present e.
Proof.
  unfold channel_indices_by_type. rewrite map_map. cbn [fst]. rewrite map_id.
  rewrite Nat.ltb_lt. split.
  - intros Hlen.
    destruct (filter _ pick_types_keys) as [|key l] eqn:Hf; [simpl in Hlen; lia|].
    assert (Hin : In key (key :: l)) by now left.
    rewrite <- Hf in Hin. apply filter_In in Hin. destruct Hin as [Hkey Hb].
    apply andb_true_iff in Hb. destruct Hb as [Hb1 Hb2].
    exists key. rewrite negb_true_iff in Hb1. tauto.
  - intros [key [Hkey [Hother Hpresent]]].
    assert (Hin : In key (filter (fun key =>
                     negb (in_strings key ["mag"; "grad"; "eeg"]%string)
                     && contains e key) pick_types_keys)).
    { apply filter_In. split; [exact Hkey|]. now rewrite Hother, Hpresent. }
    destruct (filter _ pick_types_keys); [contradiction|]. simpl. lia.
Qed.

Ltac channel_cases :=
  solve [ tauto
        | discriminate
        | congruence
        | intros H; discriminate H
        | intros [msg Hmsg]; discriminate Hmsg
        | intros [msg Hmsg]; auto
        | intros; eexists; reflexivity
        | intros v [= <-]; tauto
        | intros [H|[H1 H2]]; first [contradiction | discriminate]
        | intros [H0 [H1 H2]]; first [contradiction | discriminate] ].

(** X4.  [_get_channel_type] answers ['eeg'] exactly when EEG channels are
    present, no magnetometer or gradiometer is and no other listed type is;
    ['meg'] in the mirror case; [None] exactly when no listed type is
    present at all; and it raises [ValueError] exactly when another listed
    type is present or both families are.  It returns no other value. *)
Theorem X4_channel_type_cases `{E : Externals} (e : Epochs) :
  (_get_channel_type e = Ok (Some "eeg"%string) <->
   ~ invalid_present e /\ contains e "eeg" = true /\ contains e "meg" = false) /\
  (_get_channel_type e = Ok (Some "meg"%string) <->
   ~ invalid_present e /\ contains e "eeg" = false /\ contains e "meg" = true) /\
  (_get_channel_type e = Ok None <->
   ~ invalid_present e /\ contains e "eeg" = false /\ contains e "meg" = false) /\
  ((exists msg, _get_channel_type e = Raise (ValueError msg)) <->
   invalid_present e \/ (contains e "eeg" = true /\ contains e "meg" = true)) /\
  (forall v, _get_channel_type e = Ok v ->
     v = Some "eeg"%string \/ v = Some "meg"%string \/ v = None).
Proof.
  pose proof (invalid_filter_spec e) as Hinv. unfold _get_channel_type.
  destruct (0 <? length _) eqn:Hf.
  - assert (Hi : invalid_present e) by now apply Hinv.
    repeat split; channel_cases.
  - assert (Hi : ~ invalid_present e)
      by (intros Hi; apply Hinv in Hi; discriminate).
    destruct (contains e "meg"), (contains e "eeg"); cbn [andb];
      repeat split; channel_cases.
Qed.

(** X5.  When [_check_data] accepts the recording and [_get_channel_type]
    raises, [fit] raises that same exception, leaves the object as it was
    and has called neither the sampler nor the operator builder. *)
Theorem X5_rejected_type_stops_fit `{E : Externals} (r : Ransac) (e : Epochs)
  (x : exn) :
  check_data e = Ok tt ->
  _get_channel_type e = Raise x ->
  run_fit r e
  = ({| self := r; calls := [Call_check_data; Call_get_channel_type] |},
     Raise x).
Proof.
  intros Hcd Ht. unfold run_fit, fit.
  unfold bindM at 1. unfold invoke at 1. cbn [self calls app]. rewrite Hcd.
  unfold bindM at 1. unfold invoke at 1. cbn [self calls app]. rewrite Ht.
  reflexivity.
Qed.

Lemma X5_witness :
  run_fit (E := Demo.externals) (Demo.ransac 1) Demo.mixed
  = ({| self := Demo.ransac 1;
        calls := [Call_check_data; Call_get_channel_type] |},
     Raise (ValueError
              "Got mixed channel types. Pick either eeg or meg but not both")).
Proof.
  apply (@X5_rejected_type_stops_fit Demo.externals (Demo.ransac 1) Demo.mixed);
    reflexivity.
Defined.

(** ** Degenerate configurations *)




Lemma draw_picks_none `{E : Externals} (rng : RandomState) (C n : nat) :
  draw_picks rng C 0 n = repeat [] n.
Proof.
  revert rng. induction n as [|n IH]; intros rng; simpl; [reflexivity|].
  destruct (permutation rng C) as [perm rng']. now rewrite IH.
Qed.

(** X7.  When [min_channels * n_channels] rounds to 0 every sampled subset
    is empty: the sampler returns [n_resample] empty lists. *)
Theorem X7_fraction_rounding_to_zero `{E : Externals} (self : Ransac) (i : Info) :
  n_samples_of (min_channels self) (length (ch_names i)) = 0%Z ->
  _get_random_subsets self i = Ok (repeat [] (n_resample self)).
Proof.
  intros H0. unfold _get_random_subsets, picks_of.
  rewrite H0, draw_picks_none.
  induction (n_resample self) as [|n IH]; simpl; [reflexivity|].
  now rewrite IH.
Qed.

Lemma X7_witness :
  _get_random_subsets (E := Demo.externals) More.no_sample Demo.eeg3
  = Ok (repeat [] 2).
Proof.
  apply (@X7_fraction_rounding_to_zero Demo.externals More.no_sample Demo.eeg3).
  vm_compute. reflexivity.
Defined.

(** ** Names, indices and the columns of the operator *)

Lemma index_first (names : list string) (name : string) (p : nat) :
  index names name = Ok p ->
  p < length names /\ nth p names ""%string = name /\
  forall q, q < p -> nth q names ""%string <> name.
Proof.
  revert p. induction names as [|x names IH]; simpl; intros p H; [discriminate|].
  destruct (String.eqb_spec x name) as [->|Hne].
  - injection H as <-. repeat split; [lia|]. intros q Hq. lia.
  - destruct (index names name) as [p'|]; simpl in H; [|discriminate].
    injection H as <-. destruct (IH p' eq_refl) as [Hlt [Hnth Hfirst]].
    repeat split; [lia|exact Hnth|].
    intros [|q] Hq; [exact Hne|]. apply Hfirst. lia.
Qed.

Lemma index_found (names : list string) (name : string) :
  In name names -> exists p, index names name = Ok p.
Proof.
  induction names as [|x names IH]; simpl; [contradiction|]. intros Hin.
  destruct (String.eqb_spec x name) as [_|Hne]; [now exists 0|].
  destruct Hin as [Heq|Hin]; [contradiction|].
  destruct (IH Hin) as [p Hp]. rewrite Hp. now exists (S p).
Qed.

(** X8.  Turning a pick into names and the names back into indices with
    [ch_names.index] always succeeds, and gives for every picked channel
    the first channel that bears its name: an index not above the picked
    one, with the same name, below which no channel has that name.  (With
    duplicate names the operator is therefore built from the first bearer,
    not from the channel that was sampled.) *)
Theorem X8_names_resolve_to_first_bearer (names : list string) (pick : list nat) :
  Forall (fun p => p < length names) pick ->
  exists pick_from,
    pick_from_of names (map (fun p => nth p names ""%string) pick) = Ok pick_from /\
    Forall2 (first_bearer names) pick pick_from.
Proof.
  unfold pick_from_of. induction 1 as [|p pick Hp _ IH].
  - exists []. split; [reflexivity|constructor].
  - destruct IH as [pf [Hpf Hall]].
    destruct (index_found names (nth p names ""%string)) as [q Hq];
      [now apply nth_In|].
    exists (q :: pf). cbn [map map_result]. rewrite Hq, Hpf. split; [reflexivity|].
    constructor; [|exact Hall].
    apply index_first in Hq. destruct Hq as [Hlt [Hnth Hfirst]].
    unfold first_bearer. repeat split; [|exact Hnth|exact Hfirst].
    destruct (Nat.le_gt_cases q p) as [Hle|Hgt]; [exact Hle|].
    exfalso. now apply (Hfirst p Hgt).
Qed.

Lemma X8_witness :
  exists pick_from,
    pick_from_of More.twin_names
                 (map (fun p => nth p More.twin_names ""%string) [1; 2])
    = Ok pick_from /\
    Forall2 (first_bearer More.twin_names) [1; 2] pick_from.
Proof.
  apply (@X8_names_resolve_to_first_bearer More.twin_names [1; 2]).
  repeat constructor.
Defined.

(** With duplicate names the round trip moves the pick. *)
Example twin_names_move_the_pick :
  pick_from_of More.twin_names
               (map (fun p => nth p More.twin_names ""%string) [1; 2])
  = Ok [0; 2].
Proof. reflexivity. Qed.

Lemma nth_set_nth_same (c : nat) (v : float64) (row : vector) :
  c < length row -> nth c (set_nth c v row) zero = v.
Proof.
  revert c. induction row as [|x row IH]; intros [|c] H; simpl in *;
    try lia; try reflexivity. apply IH. lia.
Qed.

Lemma nth_assign_row_at (row : vector) (cols : list nat) (values : vector) (k : nat) :
  NoDup cols -> k < length cols -> k < length values ->
  nth k cols 0 < length row ->
  nth (nth k cols 0) (assign_row row cols values) zero = nth k values zero.
Proof.
  unfold assign_row. intros Hnd. revert row values k.
  induction Hnd as [|c cols Hc Hnd IH]; intros row values k Hk Hv Hrow;
    [simpl in Hk; lia|].
  destruct values as [|v values]; [simpl in Hv; lia|].
  cbn [combine fold_left fst snd].
  destruct k as [|k]; cbn [nth] in *.
  - fold (assign_row (set_nth c v row) cols values).
    rewrite nth_assign_row_other by exact Hc.
    now apply nth_set_nth_same.
  - apply IH; simpl in Hk, Hv; try lia. now rewrite length_set_nth.
Qed.

Lemma set_columns_at (C : nat) (mapping : matrix) (cols : list nat) (k m : matrix)
  (i kk : nat) :
  Np.has_shape C C mapping = true ->
  set_columns C C mapping cols k = Ok m ->
  NoDup cols -> i < C -> kk < length cols ->
  Np.get2 m i (nth kk cols 0) = Np.get2 k i kk.
Proof.
  intros Hshape Hset Hnd Hi Hkk. unfold set_columns in Hset.
  destruct (forallb (fun c => c <? C) cols) eqn:Hcols; simpl in Hset; [|discriminate].
  destruct (Np.has_shape C (length cols) k) eqn:Hk; simpl in Hset; [|discriminate].
  injection Hset as <-.
  apply has_shape_spec in Hshape. destruct Hshape as [Hlen Hrows].
  apply has_shape_spec in Hk. destruct Hk as [Hklen Hkrows].
  rewrite Forall_forall in Hrows, Hkrows.
  unfold Np.get2, Np.get.
  rewrite nth_zip_with with (da := ([] : vector)) (db := ([] : vector)) by lia.
  apply nth_assign_row_at; try assumption.
  - rewrite (Hkrows (nth i k [])) by (apply nth_In; lia). exact Hkk.
  - rewrite (Hrows (nth i mapping [])) by (apply nth_In; lia).
    rewrite forallb_forall in Hcols. apply Nat.ltb_lt, Hcols, nth_In, Hkk.
Qed.

(** The blocks behind the stacked operator. *)
Lemma get_mappings_blocks `{E : Externals} (self : Ransac) (inst : Epochs)
  (subsets : list (list string)) (M : matrix) :
  ch_subsets_ self = Some subsets ->
  _get_mappings self inst = Ok M ->
  exists ms,
    Forall2 (fun subset m =>
               mapping_of self inst
                 (map (fun ch => firstn 3 (loc ch)) (chs (info inst))) subset
               = Ok m) subsets ms /\
    M = concat ms /\
    Forall (fun m => Np.has_shape (n_channels_of inst) (n_channels_of inst) m = true) ms.
Proof.
  intros Hsub HM. unfold _get_mappings in HM. rewrite Hsub in HM.
  cbn [bind getattr] in HM.
  destruct (map_result _ subsets) as [ms|] eqn:Hms; cbn [bind] in HM; [|discriminate].
  apply map_result_Forall2 in Hms. exists ms. split; [exact Hms|]. split.
  - unfold Np.concatenate in HM. destruct ms; [discriminate|]. now injection HM.
  - clear HM Hsub. induction Hms as [|s m subsets ms Hm _ IH]; [constructor|].
    constructor; [|exact IH].
    apply mapping_of_ok in Hm. destruct Hm as [pf [_ [Hs _]]]. exact Hs.
Qed.

Lemma get2_concat_blocks (C : nat) (ms : list matrix) (r i j : nat) :
  Forall (fun m => Np.has_shape C C m = true) ms -> i < C ->
  Np.get2 (concat ms) (r * C + i) j = Np.get2 (nth r ms []) i j.
Proof.
  intros Hms Hi. unfold Np.get2.
  replace (r * C + i) with (i + C * r) by lia.
  rewrite nth_concat_uniform with (T := C); [reflexivity| |exact Hi].
  eapply Forall_impl; [|exact Hms]. intros m Hm.
  apply has_shape_spec in Hm. tauto.
Qed.

Lemma get_mappings_shape `{E : Externals} (self : Ransac) (inst : Epochs)
  (subsets : list (list string)) (M : matrix) :
  ch_subsets_ self = Some subsets ->
  _get_mappings self inst = Ok M ->
  Np.has_shape (length subsets * n_channels_of inst) (n_channels_of inst) M = true.
Proof.
  intros Hsub HM.
  destruct (get_mappings_blocks _ _ Hsub HM) as [ms [Hms [-> Hblocks]]].
  apply has_shape_spec. split.
  - rewrite length_concat, (Forall2_length Hms). clear Hms HM.
    induction Hblocks as [|m ms Hm _ IH]; [reflexivity|].
    apply has_shape_spec in Hm. destruct Hm as [Hm _].
    simpl. rewrite Hm. f_equal. exact IH.
  - apply Forall_concat. eapply Forall_impl; [|exact Hblocks].
    intros m Hm. apply has_shape_spec in Hm. tauto.
Qed.

(** X9.  For an EEG fit, block [r] of the stacked operator holds the
    kernel's weights in the picked columns: when the indices [pick_from] of
    subset [r] are pairwise distinct, column [pick_from[k]] of the block is
    column [k] of [_make_interpolation_matrix(pos[pick_from], pos[pick_to],
    alpha=1e-5)]. *)
Theorem X9_picked_columns_hold_kernel_weights `{E : Externals}
  (self : Ransac) (inst : Epochs) (subsets : list (list string)) (M : matrix) :
  ch_subsets_ self = Some subsets ->
  ch_type self = Some (Some "eeg"%string) ->
  _get_mappings self inst = Ok M ->
  forall r, r < length subsets ->
    exists pick_from pos_from pos_to,
      pick_from_of (ch_names (info inst)) (nth r subsets []) = Ok pick_from /\
      take_rows (map (fun ch => firstn 3 (loc ch)) (chs (info inst))) pick_from
      = Ok pos_from /\
      take_rows (map (fun ch => firstn 3 (loc ch)) (chs (info inst)))
                (seq 0 (n_channels_of inst))
      = Ok pos_to /\
      (NoDup pick_from ->
       forall i k, i < n_channels_of inst -> k < length pick_from ->
         Np.get2 M (r * n_channels_of inst + i) (nth k pick_from 0)
         = Np.get2 (make_interpolation_matrix pos_from pos_to alpha) i k).
Proof.
  intros Hsub Htype HM r Hr.
  destruct (get_mappings_blocks _ _ Hsub HM) as [ms [Hms [-> Hblocks]]].
  pose proof (@Forall2_nth _ _ _ subsets ms r [] [] Hms Hr) as Hm.
  cbv beta in Hm. unfold mapping_of in Hm. rewrite Htype in Hm.
  destruct (pick_from_of (ch_names (info inst)) (nth r subsets [])) as [pf|]
    eqn:Hpf; cbn [bind getattr] in Hm; [|discriminate].
  change (String.eqb "eeg" "meg") with false in Hm.
  change (String.eqb "eeg" "eeg") with true in Hm. cbv iota in Hm.
  destruct (as_index pf) as [rows|] eqn:Hrows; cbn [bind] in Hm;
    [|discriminate].
  apply as_index_ok in Hrows. destruct Hrows as [-> _].
  destruct (take_rows _ pf) as [pos_from|] eqn:Hfrom; cbn [bind] in Hm;
    [|discriminate].
  fold (n_channels_of inst) in Hm.
  destruct (take_rows _ (seq 0 (n_channels_of inst))) as [pos_to|] eqn:Hto;
    cbn [bind] in Hm; [|discriminate].
  exists pf, pos_from, pos_to.
  split; [reflexivity|]. split; [exact Hfrom|]. split; [reflexivity|].
  intros Hnd i k Hi Hk.
  rewrite get2_concat_blocks by assumption.
  apply set_columns_at with (C := n_channels_of inst)
                            (mapping := Np.zeros2 (n_channels_of inst)
                                                  (n_channels_of inst));
    try assumption. apply has_shape_zeros2.
Qed.

Lemma X9_witness :
  exists pick_from pos_from pos_to,
    pick_from_of (ch_names (info Demo.epochs))
                 (nth 1 [["a"; "b"]; ["b"; "c"]]%string []) = Ok pick_from /\
    take_rows (map (fun ch => firstn 3 (loc ch)) (chs (info Demo.epochs)))
              pick_from
    = Ok pos_from /\
    take_rows (map (fun ch => firstn 3 (loc ch)) (chs (info Demo.epochs)))
              (seq 0 (n_channels_of Demo.epochs))
    = Ok pos_to /\
    (NoDup pick_from ->
     forall i k, i < n_channels_of Demo.epochs -> k < length pick_from ->
       Np.get2 Demo.mappings (1 * n_channels_of Demo.epochs + i)
               (nth k pick_from 0)
       = Np.get2 (@make_interpolation_matrix Demo.externals
                    pos_from pos_to alpha) i k).
Proof.
  apply (@X9_picked_columns_hold_kernel_weights Demo.externals Demo.sampled
           Demo.epochs [["a"; "b"]; ["b"; "c"]]%string Demo.mappings
           eq_refl eq_refl eq_refl 1).
  simpl. lia.
Defined.

(** X10.  When the stored channel type is [None] (what
    [_get_channel_type] leaves for a recording without any listed channel
    type) [_get_mappings] calls no kernel: the operator it returns is zero
    everywhere. *)
Theorem X10_untyped_operator_is_zero `{E : Externals}
  (self : Ransac) (inst : Epochs) (subsets : list (list string)) (M : matrix) :
  ch_subsets_ self = Some subsets ->
  ch_type self = Some None ->
  _get_mappings self inst = Ok M ->
  Np.has_shape (length subsets * n_channels_of inst) (n_channels_of inst) M = true /\
  forall r i j, r < length subsets -> i < n_channels_of inst ->
    Np.get2 M (r * n_channels_of inst + i) j = zero.
Proof.
  intros Hsub Htype HM.
  split; [now apply get_mappings_shape with (self := self)|].
  destruct (get_mappings_blocks _ _ Hsub HM) as [ms [Hms [-> Hblocks]]].
  intros r i j Hr Hi.
  pose proof (@Forall2_nth _ _ _ subsets ms r [] [] Hms Hr) as Hm.
  cbv beta in Hm. unfold mapping_of in Hm. rewrite Htype in Hm.
  destruct (pick_from_of (ch_names (info inst)) (nth r subsets [])) as [pf|];
    cbn [bind getattr] in Hm; [|discriminate].
  injection Hm as Hm.
  rewrite get2_concat_blocks by assumption.
  rewrite <- Hm. apply get2_zeros2.
Qed.

Lemma X10_witness :
  Np.has_shape (2 * 3) 3 (Np.zeros2 6 3) = true /\
  forall r i j, r < 2 -> i < 3 -> Np.get2 (Np.zeros2 6 3) (r * 3 + i) j = zero.
Proof.
  apply (@X10_untyped_operator_is_zero Demo.externals More.untyped Demo.epochs
           [["a"; "b"]; ["b"; "c"]]%string (Np.zeros2 6 3));
    reflexivity.
Defined.

(** ** Flat sensors *)

Lemma mul_zero_l (a b : float64) :
  is_zero a = true -> zero_or_nan (mul a b) = true.
Proof. destruct a; try discriminate. destruct b; reflexivity. Qed.

Lemma mul_zero_or_nan_l (a b : float64) :
  zero_or_nan a = true -> zero_or_nan (mul a b) = true.
Proof. destruct a; try discriminate; destruct b; reflexivity. Qed.

Lemma add_zero_or_nan (a b : float64) :
  zero_or_nan a = true -> zero_or_nan b = true -> zero_or_nan (add a b) = true.
Proof.
  destruct a as [sa| | |]; try discriminate; destruct b as [sb| | |];
    try discriminate; intros _ _; try reflexivity.
  destruct sa, sb; reflexivity.
Qed.

Lemma sqrt_zero_or_nan (a : float64) :
  zero_or_nan a = true -> zero_or_nan (sqrt a) = true.
Proof. destruct a; try discriminate; reflexivity. Qed.

Lemma div_zero_or_nan (a b : float64) :
  zero_or_nan a = true -> zero_or_nan b = true -> div a b = nan.
Proof.
  destruct a; try discriminate; destruct b; try discriminate; reflexivity.
Qed.

Lemma fold_add_zero_or_nan (l : vector) (acc : float64) :
  zero_or_nan acc = true -> forallb zero_or_nan l = true ->
  zero_or_nan (fold_left add l acc) = true.
Proof.
  revert acc. induction l as [|x l IH]; intros acc Hacc Hl; [exact Hacc|].
  simpl in Hl. apply andb_true_iff in Hl. destruct Hl as [Hx Hl].
  simpl. apply IH; [now apply add_zero_or_nan|exact Hl].
Qed.

Lemma sum_zero_or_nan (l : vector) :
  forallb zero_or_nan l = true -> zero_or_nan (Np.sum l) = true.
Proof.
  destruct l as [|x l]; [reflexivity|]. simpl. intros H.
  apply andb_true_iff in H. destruct H as [Hx Hl].
  now apply fold_add_zero_or_nan.
Qed.

Lemma forallb_tabulate {A : Type} (p : A -> bool) (n : nat) (f : nat -> A) :
  (forall i, i < n -> p (f i) = true) -> forallb p (Np.tabulate n f) = true.
Proof.
  intros H. apply forallb_forall. intros x Hx. unfold Np.tabulate in Hx.
  apply in_map_iff in Hx. destruct Hx as [i [<- Hi]]. apply in_seq in Hi.
  apply H. lia.
Qed.

(** A sensor whose samples are all zero scores [nan]. *)
Lemma score_flat_nan (self : Ransac) (mappings : matrix) (inst : Epochs)
  (x : matrix) (c : nat) :
  mappings_ self = Some mappings ->
  nth_error (get_data inst) 0 = Some x ->
  Np.has_shape (n_channels_of inst) (n_times inst) x = true ->
  Np.has_shape (n_resample self * n_channels_of inst) (n_channels_of inst)
               mappings = true ->
  c < n_channels_of inst ->
  forallb is_zero (nth c x []) = true ->
  exists corr,
    _compute_correlations self inst = Ok corr /\ Np.get corr c = nan.
Proof.
  intros Hm Hx Hxs Hms Hc Hflat.
  pose proof (y_pred_of_ok (n_resample self) mappings inst Hx Hms) as Hy.
  pose proof Hxs as Hxs'. apply has_shape_spec in Hxs'.
  destruct Hxs' as [Hlen Hrows]. rewrite Forall_forall in Hrows.
  eexists. split.
  - apply compute_correlations_closed_form
      with (mappings := mappings) (x := x);
      [exact Hm | exact Hx | exact Hlen | exact Hy
      | apply median_last_axis_reshape].
  - unfold Np.get. rewrite nth_tabulate by exact Hc.
    assert (Hz : forall t, t < n_times inst -> is_zero (Np.get2 x c t) = true).
    { intros t Ht. rewrite forallb_forall in Hflat. apply Hflat.
      unfold Np.get2, Np.get. apply nth_In.
      rewrite (Hrows (nth c x [])) by (apply nth_In; lia). exact Ht. }
    apply div_zero_or_nan.
    + apply sum_zero_or_nan, forallb_tabulate. intros t Ht.
      now apply mul_zero_l, Hz.
    + apply mul_zero_or_nan_l, sqrt_zero_or_nan, sum_zero_or_nan,
        forallb_tabulate.
      intros t Ht. now apply mul_zero_l, Hz.
Qed.

(** X11.  A sensor whose samples in a segment are all zero (of either
    sign) gets the score [nan] for that segment: numerator and denominator
    of the correlation are both zero or [nan]. *)
Theorem X11_flat_sensor_scores_nan (self : Ransac) (mappings : matrix)
  (inst : Epochs) (x : matrix) (c : nat) :
  mappings_ self = Some mappings ->
  nth_error (get_data inst) 0 = Some x ->
  Np.has_shape (n_channels_of inst) (n_times inst) x = true ->
  Np.has_shape (n_resample self * n_channels_of inst) (n_channels_of inst)
               mappings = true ->
  c < n_channels_of inst ->
  forallb is_zero (nth c x []) = true ->
  exists corr,
    _compute_correlations self inst = Ok corr /\ Np.get corr c = nan.
Proof. apply score_flat_nan. Qed.

Lemma X11_witness :
  exists corr,
    _compute_correlations Demo.with_stacked Demo.first_epoch = Ok corr /\
    Np.get corr 2 = nan.
Proof.
  apply (@X11_flat_sensor_scores_nan Demo.with_stacked Demo.stacked
           Demo.first_epoch Demo.first_data 2); try reflexivity.
  unfold n_channels_of. simpl. lia.
Defined.

Lemma get_random_subsets_length `{E : Externals} (self : Ransac) (i : Info)
  (subsets : list (list string)) :
  _get_random_subsets self i = Ok subsets -> length subsets = n_resample self.
Proof.
  unfold _get_random_subsets. intros H. apply map_result_length in H.
  rewrite H. unfold picks_of. apply draw_picks_length.
Qed.

Lemma score_epoch_flat (ransac : Ransac) (mappings : matrix) (e : Epochs)
  (i j : nat) (row : vector) :
  mappings_ ransac = Some mappings ->
  Np.has_shape (n_resample ransac * n_channels_of e) (n_channels_of e)
               mappings = true ->
  Forall (fun x => Np.has_shape (n_channels_of e) (n_times e) x = true)
         (get_data e) ->
  j < n_channels_of e ->
  (forall x, In x (get_data e) -> forallb is_zero (nth j x []) = true) ->
  score_epoch ransac e i = Ok row ->
  Np.get row j = nan.
Proof.
  intros Hm Hms Hwf Hj Hflat Hrow. unfold score_epoch, getitem in Hrow.
  destruct (nth_error (get_data e) i) as [x|] eqn:Hx; cbn [bind] in Hrow;
    [|discriminate].
  apply nth_error_In in Hx. rewrite Forall_forall in Hwf.
  destruct (@score_flat_nan ransac mappings
              {| info := info e; n_times := n_times e; get_data := [x] |} x j)
    as [corr [Hcorr Hnan]]; try assumption; try reflexivity.
  - now apply Hwf.
  - now apply Hflat.
  - rewrite Hrow in Hcorr. now injection Hcorr as ->.
Qed.

(** X12.  A sensor that is zero throughout a well-shaped recording is never
    flagged: after [fit], for any [n_jobs], every entry of its column of
    [corr_] is [nan], and for a non-negative [unbroken_time] its index is
    not among the bad ones. *)
Theorem X12_flat_sensor_is_never_flagged `{E : Externals}
  (r : Ransac) (e : Epochs) (w : World) (j : nat) :
  run_fit r e = (w, Ok tt) ->
  Forall (fun x => Np.has_shape (n_channels_of e) (n_times e) x = true)
         (get_data e) ->
  j < n_channels_of e ->
  (forall x, In x (get_data e) -> forallb is_zero (nth j x []) = true) ->
  (0 <= unbroken_time r)%Q ->
  exists (corr : matrix) (bad_idx : list nat),
    corr_ (self w) = Some corr /\
    bad_chs_ (self w)
    = Some (map (fun p => nth p (ch_names (info e)) ""%string) bad_idx) /\
    (forall i, i < length corr -> Np.get2 corr i j = nan) /\
    ~ In j bad_idx.
Proof.
  intros Hrun Hwf Hj Hflat Hu.
  pose proof Hrun as Hflags. apply fit_flags in Hflags.
  destruct Hflags as (corr & Hcorr & _ & _ & Hbad).
  apply fit_cases in Hrun.
  destruct Hrun as [[_ [_ [x Hx]]]|[_ H]]; [discriminate|].
  destruct H as (t & subsets & mappings & chunks & corrs & corr' & _ & _ & Hsub
                 & Hmap' & _ & Hmap & Hcat & Hself & _).
  assert (corr' = corr) as ->.
  { rewrite Hself in Hcorr. unfold fitted in Hcorr. cbn in Hcorr. congruence. }
  set (this := set_mappings_ mappings
                 (set_ch_subsets_ subsets (set_ch_type t r))) in *.
  assert (Hshape : Np.has_shape (n_resample this * n_channels_of e)
                                (n_channels_of e) mappings = true).
  { apply get_random_subsets_length in Hsub. cbn in Hsub.
    change (n_resample this) with (n_resample r). rewrite <- Hsub.
    eapply get_mappings_shape; [|exact Hmap']. reflexivity. }
  assert (Hnan : Forall (fun row => Np.get row j = nan) corr).
  { assert (HC : corr = concat corrs).
    { unfold Np.concatenate in Hcat. destruct corrs; [discriminate|].
      now injection Hcat. }
    rewrite HC. apply Forall_concat.
    revert Hmap. apply map_result_Forall. intros idxs rows.
    rewrite iterate_epochs_scores_leading. unfold sequential_scores.
    apply map_result_Forall. intros i row.
    apply score_epoch_flat with (mappings := mappings); try assumption.
    reflexivity. }
  assert (Hcol : forall i, i < length corr -> Np.get2 corr i j = nan).
  { intros i Hi. rewrite Forall_forall in Hnan. apply Hnan, nth_In, Hi. }
  exists corr, (filter (fun j => exceeds (unbroken_time r) (len e)
                                   (count_below (min_corr r) corr j))
                       (seq 0 (n_channels_of e))).
  split; [exact Hcorr|]. split; [exact Hbad|]. split; [exact Hcol|].
  intros Hin. apply filter_In in Hin. destruct Hin as [_ Hex].
  rewrite count_below_drops_nan, count_below_not_nan_all_nan in Hex
    by (intros i Hi; now rewrite Hcol).
  apply exceeds_spec in Hex. exact (@exceeds_zero_tally _ _ Hu Hex).
Qed.

Lemma X12_witness :
  exists (corr : matrix) (bad_idx : list nat),
    corr_ (self More.flat_world) = Some corr /\
    bad_chs_ (self More.flat_world)
    = Some (map (fun p => nth p (ch_names (info More.flat_third)) ""%string)
                bad_idx) /\
    (forall i, i < length corr -> Np.get2 corr i 2 = nan) /\
    ~ In 2 bad_idx.
Proof.
  apply (@X12_flat_sensor_is_never_flagged Demo.externals (Demo.ransac 2)
           More.flat_third More.flat_world 2).
  - vm_compute. reflexivity.
  - repeat constructor.
  - unfold n_channels_of. simpl. lia.
  - intros x [<-|[<-|[]]]; reflexivity.
  - unfold Qle. simpl. lia.
Defined.

(** ** When [fit] returns *)


















(** With a fraction that rounds to no channel the operator builder is
    handed empty subsets and refuses them. *)
Example no_sample_fails_in_builder :
  snd (run_fit (E := Demo.externals) More.no_sample Demo.epochs)
  = Raise (IndexError
             "arrays used as indices must be of integer (or boolean) type") /\
  calls (fst (run_fit (E := Demo.externals) More.no_sample Demo.epochs))
  = [Call_check_data; Call_get_channel_type; Call_get_random_subsets;
     Call_get_mappings].
Proof. split; vm_compute; reflexivity. Qed.

(** ** [fit_transform] *)

(** X14.  [fit_transform] hands the repair step exactly the names that
    [fit] has just stored in [bad_chs_], on the recording it was given, and
    leaves the object as [fit] left it; when [fit] raises, [fit_transform]
    raises the same exception and the repair step is not reached. *)
Theorem X14_fit_transform_repairs_what_fit_flagged `{E : Externals} `{P : Repair}
  (r : Ransac) (e : Epochs) (w : World) (res : result unit) :
  run_fit r e = (w, res) ->
  match res with
  | Ok _ =>
      exists names,
        bad_chs_ (self w) = Some names /\
        fit_transform e {| self := r; calls := [] |}
        = ({| self := self w; calls := calls w ++ [Call_check_data] |},
           interpolate_bads e names)
  | Raise x =>
      fit_transform e {| self := r; calls := [] |} = (w, Raise x)
  end.
Proof.
  intros Hrun. pose proof Hrun as Hcases. apply fit_cases in Hcases.
  unfold run_fit in Hrun.
  destruct res as [[]|x];
    [|unfold fit_transform; unfold bindM at 1; now rewrite Hrun].
  destruct Hcases as [[_ [_ [x Hx]]]|[_ H]]; [discriminate|].
  destruct H as (t & subsets & mappings & chunks & corrs & corr & Hcd & _ & _ & _
                 & _ & _ & _ & Hself & _).
  eexists. split; [rewrite Hself; reflexivity|].
  unfold fit_transform. unfold bindM at 1. rewrite Hrun.
  unfold transform. unfold bindM at 1. unfold invoke at 1. rewrite Hcd.
  unfold bindM at 1. unfold read at 1. cbn [self calls].
  unfold bindM at 1. unfold lift at 1. rewrite Hself. reflexivity.
Qed.

Lemma X14_witness :
  exists names,
    bad_chs_ (self Demo.world1) = Some names /\
    fit_transform (E := Demo.externals) (P := More.repair) Demo.epochs
                  {| self := Demo.ransac 1; calls := [] |}
    = ({| self := self Demo.world1;
          calls := calls Demo.world1 ++ [Call_check_data] |},
       @interpolate_bads More.repair Demo.epochs names).
Proof.
  apply (@X14_fit_transform_repairs_what_fit_flagged Demo.externals More.repair
           (Demo.ransac 1) Demo.epochs Demo.world1 (Ok tt)).
  vm_compute. reflexivity.
Defined.

(** ** Further consequences for [corr_] and [bad_chs_] *)

(** X15.  For any [n_jobs], the rows of [corr_] after [fit] are, chunk
    after chunk of [np.array_split], the scores of the first
    [len(chunk)] segments of the recording. *)
Theorem X15_every_chunk_scores_leading_segments `{E : Externals}
  (r : Ransac) (e : Epochs) (w : World) :
  run_fit r e = (w, Ok tt) ->
  exists chunks corrs corr,
    Np.array_split_arange (len e) (check_n_jobs (n_jobs r)) = Ok chunks /\
    map_result (fun idxs => sequential_scores (self w) e (seq 0 (length idxs)))
               chunks = Ok corrs /\
    corr = concat corrs /\
    corr_ (self w) = Some corr.
Proof. apply fit_chunks_score_leading. Qed.

Lemma X15_witness :
  exists chunks corrs corr,
    Np.array_split_arange (len Demo.epochs) (check_n_jobs (n_jobs (Demo.ransac 2)))
    = Ok chunks /\
    map_result (fun idxs => sequential_scores (self More.world2) Demo.epochs
                              (seq 0 (length idxs)))
               chunks = Ok corrs /\
    corr = concat corrs /\
    corr_ (self More.world2) = Some corr.
Proof.
  apply (@X15_every_chunk_scores_leading_segments Demo.externals (Demo.ransac 2)
           Demo.epochs More.world2).
  vm_compute. reflexivity.
Defined.

Lemma fit_corr_length `{E : Externals} (r : Ransac) (e : Epochs) (w : World)
  (corr : matrix) :
  run_fit r e = (w, Ok tt) -> corr_ (self w) = Some corr ->
  length corr = len e.
Proof.
  intros H Hcorr. apply fit_cases in H.
  destruct H as [[_ [_ [x Hx]]]|[_ H]]; [discriminate|].
  destruct H as (t & subsets & mappings & chunks & corrs & corr' & _ & _ & _ & _
                 & Hchunks & Hmap & Hcat & Hself & _).
  assert (corr' = corr) as ->.
  { rewrite Hself in Hcorr. unfold fitted in Hcorr. cbn in Hcorr. congruence. }
  assert (HC : corr = concat corrs).
  { unfold Np.concatenate in Hcat. destruct corrs; [discriminate|].
    now injection Hcat. }
  rewrite HC, length_concat.
  rewrite chunk_rows_lengths with (ransac := set_mappings_ mappings
            (set_ch_subsets_ subsets (set_ch_type t r)))
            (epochs := e) (chunks := chunks) by exact Hmap.
  apply array_split_lengths in Hchunks. tauto.
Qed.

Lemma count_below_le (m : float64) (corr : matrix) (j : nat) :
  count_below m corr j <= length corr.
Proof.
  unfold count_below. induction corr as [|row corr IH]; simpl; [lia|].
  destruct (ltb (Np.get row j) m); simpl; lia.
Qed.

(** X16.  With [unbroken_time >= 1] no sensor is ever flagged: a tally
    cannot exceed the number of segments, so [bad_chs_] is the empty list
    whatever the data. *)
Theorem X16_full_fraction_flags_nothing `{E : Externals}
  (r : Ransac) (e : Epochs) (w : World) :
  run_fit r e = (w, Ok tt) ->
  (1 <= unbroken_time r)%Q ->
  bad_chs_ (self w) = Some [].
Proof.
  intros Hrun Hu. pose proof Hrun as Hflags. apply fit_flags in Hflags.
  destruct Hflags as (corr & Hcorr & _ & _ & Hbad).
  pose proof (fit_corr_length _ _ Hrun Hcorr) as Hlen.
  rewrite Hbad. f_equal.
  replace (filter _ (seq 0 (n_channels_of e))) with (@nil nat); [reflexivity|].
  symmetry. apply List.length_zero_iff_nil.
  assert (Hle : length (filter (fun j => exceeds (unbroken_time r) (len e)
                                   (count_below (min_corr r) corr j))
                               (seq 0 (n_channels_of e)))
                <= length (filter (fun _ => false) (seq 0 (n_channels_of e)))).
  { apply filter_length_le. intros j _ Hex. apply exceeds_spec in Hex.
    exfalso. revert Hex. apply exceeds_full_fraction; [exact Hu|].
    pose proof (count_below_le (min_corr r) corr j). lia. }
  replace (filter (fun _ : nat => false) (seq 0 (n_channels_of e)))
    with (@nil nat) in Hle
    by (clear; induction (seq 0 (n_channels_of e)); simpl; auto).
  simpl in Hle. lia.
Qed.

Lemma X16_witness : bad_chs_ (self More.full_world) = Some [].
Proof.
  apply (@X16_full_fraction_flags_nothing Demo.externals More.full_fraction
           Demo.epochs More.full_world).
  - vm_compute. reflexivity.
  - unfold Qle. simpl. lia.
Defined.

(** X17.  The names [fit] stores in [bad_chs_] are channel names of the
    recording, at most one per channel; when the channel names are pairwise
    distinct, so are the stored names. *)
Theorem X17_bad_chs_are_channels `{E : Externals}
  (r : Ransac) (e : Epochs) (w : World) :
  run_fit r e = (w, Ok tt) ->
  exists names,
    bad_chs_ (self w) = Some names /\
    incl names (ch_names (info e)) /\
    length names <= n_channels_of e /\
    (NoDup (ch_names (info e)) -> NoDup names).
Proof.
  intros Hrun. apply fit_flags in Hrun.
  destruct Hrun as (corr & _ & _ & _ & Hbad).
  eexists. split; [exact Hbad|].
  set (flag := fun j => exceeds (unbroken_time r) (len e)
                          (count_below (min_corr r) corr j)).
  assert (Hrange : forall p, In p (filter flag (seq 0 (n_channels_of e))) ->
                             p < length (ch_names (info e))).
  { intros p Hp. apply filter_In in Hp. destruct Hp as [Hp _].
    apply in_seq in Hp. unfold n_channels_of in Hp. lia. }
  split; [|split].
  - intros name Hname. apply in_map_iff in Hname.
    destruct Hname as [p [<- Hp]]. apply nth_In. now apply Hrange.
  - rewrite length_map.
    apply Nat.le_trans with (length (seq 0 (n_channels_of e)));
      [|now rewrite length_seq].
    generalize (seq 0 (n_channels_of e)). clear.
    intros l. induction l as [|x l IH]; simpl; [lia|].
    destruct (flag x); simpl; lia.
  - intros Hnd. apply NoDup_map_NoDup_ForallPairs.
    + intros p q Hp Hq Heq.
      apply (proj1 (NoDup_nth (ch_names (info e)) ""%string) Hnd);
        auto.
    + apply NoDup_filter, seq_NoDup.
Qed.

Lemma X17_witness :
  exists names,
    bad_chs_ (self Demo.world1) = Some names /\
    incl names (ch_names (info Demo.epochs)) /\
    length names <= n_channels_of Demo.epochs /\
    (NoDup (ch_names (info Demo.epochs)) -> NoDup names).
Proof.
  apply (@X17_bad_chs_are_channels Demo.externals (Demo.ransac 1) Demo.epochs
           Demo.world1).
  vm_compute. reflexivity.
Defined.
